(** * Chordify chord filter: a model of [chord-sorter.js] and its properties

    The userscript removes chord-diagram blocks whose label is in a fixed
    list, re-sorts the remaining blocks, and clicks the "Summary" toggle.
    Everything it does is a walk over the live DOM, so the development is a
    model of the part of the DOM the script touches (elements with a tag,
    a class list and attributes, text nodes, a document tree and the
    subtrees that were taken out of it), the selector queries the script
    issues, and the script's functions written over that model.

    Two host functions are not part of the script and are left abstract:
    [String.prototype.normalize('NFC')] and [String.prototype.localeCompare]
    with [{ sensitivity: 'base' }]. So is the interface of each element
    object, on which it depends whether [el.dataset] and [el.click()]
    exist: where they do not, the script throws a TypeError. *)

From Stdlib Require Import List Bool Arith ZArith NArith Lia String Ascii.
From Stdlib Require Import Permutation Sorted.
Import ListNotations.

Set Implicit Arguments.
Local Open Scope list_scope.

(* ===================================================================== *)
(** ** JavaScript strings *)
(* ===================================================================== *)

(** A JavaScript string is a sequence of UTF-16 code units. *)
Definition jsstring := list N.

(** An ASCII literal as a JavaScript string. *)
Definition lit (s : string) : jsstring :=
  map N_of_ascii (list_ascii_of_string s).

Fixpoint str_eqb (a b : jsstring) : bool :=
  match a, b with
  | [], [] => true
  | x :: a', y :: b' => N.eqb x y && str_eqb a' b'
  | _, _ => false
  end.

Definition str_mem (s : jsstring) (l : list jsstring) : bool :=
  existsb (str_eqb s) l.

Fixpoint isPrefixOf (p s : jsstring) : bool :=
  match p, s with
  | [], _ => true
  | x :: p', y :: s' => N.eqb x y && isPrefixOf p' s'
  | _ :: _, [] => false
  end.

(** [String.prototype.includes]. *)
Fixpoint includes (s p : jsstring) : bool :=
  isPrefixOf p s || match s with [] => false | _ :: s' => includes s' p end.

(** ECMAScript [WhiteSpace] and [LineTerminator] code units: what
    [trim] strips and what the regular expression class [\s] matches. *)
Definition isWhiteSpace (c : N) : bool :=
  let eq := N.eqb c in
  (eq 9 || eq 10 || eq 11 || eq 12 || eq 13 || eq 32 || eq 160 || eq 5760
   || (N.leb 8192 c && N.leb c 8202)
   || eq 8232 || eq 8233 || eq 8239 || eq 8287 || eq 12288 || eq 65279)%N.

Fixpoint trimStart (s : jsstring) : jsstring :=
  match s with
  | c :: s' => if isWhiteSpace c then trimStart s' else s
  | [] => []
  end.

Definition trimEnd (s : jsstring) : jsstring := rev (trimStart (rev s)).

Definition trim (s : jsstring) : jsstring := trimEnd (trimStart s).

(** The glyphs of the chord labels. *)
Definition SUBSCRIPT_M : N := 8344.   (* U+2098 *)
Definition FLAT : N := 9837.          (* U+266D *)
Definition SHARP : N := 9839.         (* U+266F *)

(** Canonicalisation of a code unit by a case-insensitive regular
    expression without the [u] flag, restricted to what can equal an ASCII
    letter: a code unit at or above 128 never canonicalises to an ASCII
    one, so only the ASCII letters fold. *)
Definition asciiLower (c : N) : N :=
  if (N.leb 65 c && N.leb c 90)%N then (c + 32)%N else c.

(** [/^summary$/i.test(txt)]. *)
Definition testSummary (txt : jsstring) : bool :=
  str_eqb (map asciiLower txt) (lit "summary").

(* ===================================================================== *)
(** ** The DOM *)
(* ===================================================================== *)

(** An element: its identity (the object itself in JavaScript, a number
    here), its local name, its class list and its other attributes. *)
Record element := mkElement {
  eid : nat;
  tagName : jsstring;
  classList : list jsstring;
  attributes : list (jsstring * jsstring)
}.

(** A node of a tree: a text node or an element with its child nodes.
    Comments and other nodes carry no text for [textContent] and match no
    selector; they are left out. *)
Local Unset Elimination Schemes.
Inductive node :=
| Text (data : jsstring)
| Elem (e : element) (childNodes : list node).
Local Set Elimination Schemes.

(** The live DOM as the script can reach it: the children of the
    [Document] node and the subtrees that were removed from their parent
    (still referenced from node lists the script holds). *)
Record dom := mkDom {
  document : list node;
  orphans : list node
}.

Definition allTrees (d : dom) : list node := document d ++ orphans d.

(** An element as seen in its tree: the element, its child nodes and its
    proper ancestors, nearest first. *)
Record view := mkView {
  self : element;
  kids : list node;
  above : list element
}.

Definition vid (v : view) : nat := eid (self v).

(** The elements of a subtree in document order, each with its ancestors;
    [anc] are the ancestors of the subtree's root. *)
Fixpoint locs_node (anc : list element) (n : node) : list view :=
  match n with
  | Text _ => []
  | Elem e ks => mkView e ks anc :: flat_map (locs_node (e :: anc)) ks
  end.

Definition locs_in (anc : list element) (f : list node) : list view :=
  flat_map (locs_node anc) f.

Definition locs (f : list node) : list view := locs_in [] f.

(** The proper descendants of a viewed element. *)
Definition descendants (v : view) : list view :=
  locs_in (self v :: above v) (kids v).

(** Finding an element by identity. *)
Definition locate_in (i : nat) (f : list node) : option view :=
  find (fun v => Nat.eqb (vid v) i) (locs f).

Definition locate (i : nat) (d : dom) : option view :=
  locate_in i (allTrees d).

(** [Node.textContent]. *)
Fixpoint text_node (n : node) : jsstring :=
  match n with
  | Text s => s
  | Elem _ ks => flat_map text_node ks
  end.

Definition text_of (ks : list node) : jsstring := flat_map text_node ks.

Definition textContent (d : dom) (i : nat) : jsstring :=
  match locate i d with
  | Some v => text_of (kids v)
  | None => []
  end.

(* --------------------------------------------------------------------- *)
(** *** Selectors *)

Inductive attrTest :=
| AttrEquals (name value : jsstring)      (* [name="value"] *)
| AttrIncludes (name value : jsstring).   (* [name*="value"] *)

(** A compound selector: an optional type selector, classes, attribute
    tests. *)
Record compound := mkCompound {
  selTag : option jsstring;
  selClasses : list jsstring;
  selAttrs : list attrTest
}.

(** A complex selector built with the descendant combinator only, its
    subject (rightmost compound) first; and a selector list. *)
Definition complex := list compound.
Definition selector := list complex.

Fixpoint getAttribute (name : jsstring) (attrs : list (jsstring * jsstring))
  : option jsstring :=
  match attrs with
  | [] => None
  | (k, v) :: rest => if str_eqb k name then Some v else getAttribute name rest
  end.

Definition attrHolds (e : element) (t : attrTest) : bool :=
  match t with
  | AttrEquals name value =>
      match getAttribute name (attributes e) with
      | Some v => str_eqb v value
      | None => false
      end
  | AttrIncludes name value =>
      match getAttribute name (attributes e) with
      | Some v => includes v value
      | None => false
      end
  end.

Definition hasClass (c : jsstring) (e : element) : bool :=
  str_mem c (classList e).

Definition matchesCompound (c : compound) (e : element) : bool :=
  match selTag c with
  | Some t => str_eqb (tagName e) t
  | None => true
  end
  && forallb (fun cl => hasClass cl e) (selClasses c)
  && forallb (attrHolds e) (selAttrs c).

(** The compounds left of the subject each match some ancestor, in
    order, going up. *)
Fixpoint matchesAbove (cs : list compound) (anc : list element) : bool :=
  match cs with
  | [] => true
  | c :: cs' =>
      match anc with
      | [] => false
      | a :: anc' =>
          (matchesCompound c a && matchesAbove cs' anc') || matchesAbove cs anc'
      end
  end.

Definition matchesComplex (cx : complex) (e : element) (anc : list element)
  : bool :=
  match cx with
  | [] => false
  | c :: cs => matchesCompound c e && matchesAbove cs anc
  end.

Definition matchesSel (s : selector) (e : element) (anc : list element)
  : bool :=
  existsb (fun cx => matchesComplex cx e anc) s.

(** [Element.matches]. *)
Definition matchesView (s : selector) (v : view) : bool :=
  matchesSel s (self v) (above v).

(** What a query starts from: the document, or an element. *)
Inductive root :=
| Document
| Element (i : nat).

(** [root.querySelectorAll(s)]: the matching elements below the root in
    document order, as a static list. *)
Definition querySelectorAll (r : root) (s : selector) (d : dom) : list nat :=
  match r with
  | Document => map vid (filter (matchesView s) (locs (document d)))
  | Element i =>
      match locate i d with
      | Some v => map vid (filter (matchesView s) (descendants v))
      | None => []
      end
  end.

(** [root.querySelector(s)]. *)
Definition querySelector (r : root) (s : selector) (d : dom) : option nat :=
  hd_error (querySelectorAll r s d).

(** [Element.closest]: the nearest inclusive ancestor that matches. *)
Fixpoint closestFrom (s : selector) (e : element) (anc : list element)
  : option nat :=
  if matchesSel s e anc then Some (eid e)
  else match anc with
       | [] => None
       | a :: anc' => closestFrom s a anc'
       end.

Definition closest (s : selector) (d : dom) (i : nat) : option nat :=
  match locate i d with
  | Some v => closestFrom s (self v) (above v)
  | None => None
  end.

(** [el.matches(s)] for an element given by identity. *)
Definition matchesSelAt (s : selector) (d : dom) (i : nat) : bool :=
  match locate i d with
  | Some v => matchesView s v
  | None => false
  end.

(** [Node.parentElement]: the parent when it is an element. *)
Definition parentElement (d : dom) (i : nat) : option nat :=
  match locate i d with
  | Some v => match above v with
              | a :: _ => Some (eid a)
              | [] => None
              end
  | None => None
  end.

(* --------------------------------------------------------------------- *)
(** *** Tree surgery *)

Definition isElem (i : nat) (n : node) : bool :=
  match n with
  | Elem e _ => Nat.eqb (eid e) i
  | Text _ => false
  end.

(** A node is kept when it is not an element picked by [P]. *)
Definition keeps (P : nat -> bool) (n : node) : bool :=
  match n with
  | Elem e _ => negb (P (eid e))
  | Text _ => true
  end.

(** Cutting out every subtree whose root is picked by [P]. *)
Fixpoint prune_node (P : nat -> bool) (n : node) : node :=
  match n with
  | Text s => Text s
  | Elem e ks => Elem e (filter (keeps P) (map (prune_node P) ks))
  end.

Definition prune (P : nat -> bool) (f : list node) : list node :=
  filter (keeps P) (map (prune_node P) f).

(** Rewriting the child list of the element [p]. *)
Fixpoint mapKids (p : nat) (g : list node -> list node) (n : node) : node :=
  match n with
  | Text s => Text s
  | Elem e ks =>
      let ks' := map (mapKids p g) ks in
      Elem e (if Nat.eqb (eid e) p then g ks' else ks')
  end.

Definition viewNode (v : view) : node := Elem (self v) (kids v).

(** [ChildNode.remove()]: the node leaves its parent's child list and
    stays reachable as the root of its own tree; a node without a parent
    is left alone. *)
Definition remove (i : nat) (d : dom) : dom :=
  match locate i d with
  | None => d
  | Some v =>
      if existsb (isElem i) (orphans d) then d
      else mkDom (prune (Nat.eqb i) (document d))
                 (prune (Nat.eqb i) (orphans d) ++ [viewNode v])
  end.

(** What a script operation that can throw leaves behind. *)
Inductive outcome :=
| Done (d : dom)
| Threw (d : dom).

Definition domOf (o : outcome) : dom :=
  match o with Done d => d | Threw d => d end.

(** [p.appendChild(c)]: [c] leaves its place and becomes the last child
    of [p]; a [HierarchyRequestError] when [c] is [p] or one of its
    ancestors. *)
Definition appendChild (p c : nat) (d : dom) : outcome :=
  match locate p d, locate c d with
  | Some vp, Some vc =>
      if existsb (Nat.eqb c) (map eid (self vp :: above vp)) then Threw d
      else
        let put := map (mapKids p (fun ks => ks ++ [viewNode vc])) in
        Done (mkDom (put (prune (Nat.eqb c) (document d)))
                    (put (prune (Nat.eqb c) (orphans d))))
  | _, _ => Done d
  end.

(** Setting an attribute: replaced when present, added otherwise. *)
Fixpoint setAttr (name value : jsstring) (attrs : list (jsstring * jsstring))
  : list (jsstring * jsstring) :=
  match attrs with
  | [] => [(name, value)]
  | (k, v) :: rest =>
      if str_eqb k name then (k, value) :: rest
      else (k, v) :: setAttr name value rest
  end.

Fixpoint mapElement (i : nat) (g : element -> element) (n : node) : node :=
  match n with
  | Text s => Text s
  | Elem e ks =>
      Elem (if Nat.eqb (eid e) i then g e else e) (map (mapElement i g) ks)
  end.

Definition setAttribute (i : nat) (name value : jsstring) (d : dom) : dom :=
  let g e := mkElement (eid e) (tagName e) (classList e)
                       (setAttr name value (attributes e)) in
  mkDom (map (mapElement i g) (document d)) (map (mapElement i g) (orphans d)).

(** Well-formed trees: no element occurs twice. *)
Definition wf_forest (f : list node) : Prop := NoDup (map vid (locs f)).
Definition wf (d : dom) : Prop := wf_forest (allTrees d).

(* ===================================================================== *)
(** ** The script *)
(* ===================================================================== *)

(** The selectors the script uses. *)
Definition cbg1qdk : jsstring := lit "cbg1qdk".
Definition deu1fhf : jsstring := lit "deu1fhf".

(** ['span.cbg1qdk'] *)
Definition spanSel : selector :=
  [[mkCompound (Some (lit "span")) [cbg1qdk] []]].
(** ['div.deu1fhf'] *)
Definition blockSel : selector :=
  [[mkCompound (Some (lit "div")) [deu1fhf] []]].
(** ['div'] *)
Definition divSel : selector :=
  [[mkCompound (Some (lit "div")) [] []]].
(** ['svg use[href*="/api/v2/diagrams/instruments/"]'] *)
Definition diagramSel : selector :=
  [[mkCompound (Some (lit "use")) []
      [AttrIncludes (lit "href") (lit "/api/v2/diagrams/instruments/")];
    mkCompound (Some (lit "svg")) [] []]].
(** ['.view-diagrams'] *)
Definition viewDiagramsSel : selector :=
  [[mkCompound None [lit "view-diagrams"] []]].
(** ['button, [role="button"], a'] *)
Definition buttonSel : selector :=
  [[mkCompound (Some (lit "button")) [] []];
   [mkCompound None [] [AttrEquals (lit "role") (lit "button")]];
   [mkCompound (Some (lit "a")) [] []]].

(** [dataset._clickedSummary] is the attribute [data-_clicked-summary]. *)
Definition clickedSummaryAttr : jsstring := lit "data-_clicked-summary".

Definition blockedChordsList : list jsstring :=
  let m := SUBSCRIPT_M in
  let b := FLAT in
  let A := 65%N in let B := 66%N in let C := 67%N in let D := 68%N in
  let E := 69%N in let F := 70%N in let G := 71%N in
  [ [A]; [B]; [C]; [D]; [E]; [F]; [G];
    [A;m]; [B;m]; [C;m]; [D;m]; [E;m]; [F;m]; [G;m];
    [A;b]; [B;b]; [C;b]; [D;b]; [E;b]; [F;b]; [G;b];
    [A;b;m]; [B;b;m]; [C;b;m]; [D;b;m]; [E;b;m]; [F;b;m]; [G;b;m] ].

(** [new Set(list)]: the distinct values in insertion order. *)
Fixpoint newSet (l : list jsstring) (acc : list jsstring) : list jsstring :=
  match l with
  | [] => acc
  | s :: l' => newSet l' (if str_mem s acc then acc else acc ++ [s])
  end.

(** Stable sorting by a comparator, as [Array.prototype.sort] is required
    to be for a consistent comparator: an element goes before the first
    one it does not compare greater than. *)
Fixpoint insertSorted (cmp : nat -> nat -> Z) (x : nat) (l : list nat)
  : list nat :=
  match l with
  | [] => [x]
  | y :: l' => if (cmp x y <=? 0)%Z then x :: l else y :: insertSorted cmp x l'
  end.

Fixpoint sortBy (cmp : nat -> nat -> Z) (l : list nat) : list nat :=
  match l with
  | [] => []
  | x :: l' => insertSorted cmp x (sortBy cmp l')
  end.

(** The [byParent] map: keys in insertion order, each with its array. *)
Fixpoint pushTo (p b : nat) (m : list (nat * list nat))
  : list (nat * list nat) :=
  match m with
  | [] => [(p, [b])]
  | (q, l) :: m' =>
      if Nat.eqb q p then (q, l ++ [b]) :: m' else (q, l) :: pushTo p b m'
  end.

(** A node of [MutationRecord.addedNodes]. *)
Inductive addedNode :=
| AddedText
| AddedElement (i : nat).

(** The interface of an element object, as far as the script uses it:
    an [HTMLElement] has [dataset] and [click()]; an [SVGElement] (and a
    [MathMLElement] alike) has [dataset] and no [click]; an element of
    another namespace is a bare [Element] and has neither. *)
Inductive interface :=
| HTMLElement
| SVGElement
| OtherElement.

Definition hasDataset (k : interface) : bool :=
  match k with
  | OtherElement => false
  | _ => true
  end.

Definition hasClick (k : interface) : bool :=
  match k with
  | HTMLElement => true
  | _ => false
  end.

(** How a call ends: it returns, or it throws a TypeError; either way it
    leaves a state. *)
Inductive completion (A : Type) :=
| Normal (a : A)
| Abrupt (a : A).

Definition stateOf (A : Type) (c : completion A) : A :=
  match c with
  | Normal a => a
  | Abrupt a => a
  end.

Section Script.

(** [String.prototype.normalize('NFC')], a function of the host. *)
Variable normalizeNFC : jsstring -> jsstring.

(** [a.localeCompare(b, undefined, { sensitivity: 'base' })], a function
    of the host and its locale. *)
Variable localeCompare : jsstring -> jsstring -> Z.

(** [const normalize = (s) => (s || '').trim().normalize('NFC')] *)
Definition normalize (s : jsstring) : jsstring := normalizeNFC (trim s).

Section Filter.

(** The [blockedChords] set the functions below read. *)
Variable blockedChords : list jsstring.

Definition isTargetSpan (d : dom) (span : nat) : bool :=
  match locate span d with
  | Some v =>
      hasClass cbg1qdk (self v)
      && str_mem (normalize (text_of (kids v))) blockedChords
  | None => false
  end.

Definition isChordBlock (d : dom) (el : nat) : bool :=
  match querySelector (Element el) diagramSel d with
  | Some _ => true
  | None => false
  end.

Definition chordContainerFor (d : dom) (span : nat) : option nat :=
  match closest blockSel d span with
  | Some c => Some c
  | None => closest divSel d span
  end.

(** The body of the [forEach] in [purge]. *)
Definition purgeSpan (d : dom) (span : nat) : dom :=
  if isTargetSpan d span then
    match chordContainerFor d span with
    | Some container =>
        if isChordBlock d container then remove container d else d
    | None => d
    end
  else d.

Definition purge (r : root) (d : dom) : dom :=
  fold_left purgeSpan (querySelectorAll r spanSel d) d.

End Filter.

(* --------------------------------------------------------------------- *)
(** *** Sorting *)

Definition chordKey (d : dom) (el : nat) : jsstring :=
  let t := normalize
             match querySelector (Element el) spanSel d with
             | Some s => textContent d s
             | None => []
             end in
  map (fun c => if N.eqb c SHARP then 35%N else c)
    (map (fun c => if N.eqb c FLAT then 98%N else c)
      (map (fun c => if N.eqb c SUBSCRIPT_M then 109%N else c)
        (filter (fun c => negb (isWhiteSpace c)) t))).

Definition groupByParent (d : dom) (blocks : list nat)
  : list (nat * list nat) :=
  fold_left
    (fun m b => match parentElement d b with
                | Some p => pushTo p b m
                | None => m
                end)
    blocks [].

Definition compareBlocks (d : dom) (a b : nat) : Z :=
  localeCompare (chordKey d a) (chordKey d b).

(** [for (const el of list) parent.appendChild(el)] *)
Fixpoint appendAll (parent : nat) (els : list nat) (d : dom) : outcome :=
  match els with
  | [] => Done d
  | el :: rest =>
      match appendChild parent el d with
      | Done d' => appendAll parent rest d'
      | Threw d' => Threw d'
      end
  end.

(** [for (const [parent, list] of byParent) { list.sort(...); ... }] *)
Fixpoint sortGroups (groups : list (nat * list nat)) (d : dom) : outcome :=
  match groups with
  | [] => Done d
  | (parent, l) :: rest =>
      match appendAll parent (sortBy (compareBlocks d) l) d with
      | Done d' => sortGroups rest d'
      | Threw d' => Threw d'
      end
  end.

Definition chordBlocks (r : root) (d : dom) : list nat :=
  filter (isChordBlock d) (querySelectorAll r blockSel d).

Definition sortChordBlocks (r : root) (d : dom) : outcome :=
  let blocks := chordBlocks r d in
  if List.length blocks <? 2 then Done d
  else sortGroups (groupByParent d blocks) d.

(* --------------------------------------------------------------------- *)
(** *** Clicking "Summary" *)

Definition onDiagramsPage (d : dom) : bool :=
  match querySelector Document viewDiagramsSel d with
  | Some _ => true
  | None => false
  end.

(** [!el.dataset._clickedSummary] is false exactly when the attribute is
    present and not empty. *)
Definition clickedSummary (d : dom) (el : nat) : bool :=
  match locate el d with
  | Some v =>
      match getAttribute clickedSummaryAttr (attributes (self v)) with
      | Some [] => false
      | Some _ => true
      | None => false
      end
  | None => false
  end.

(** The interface every element object implements; an object keeps it
    wherever it is moved. *)
Variable interfaceOf : nat -> interface.

(** The [for] loop over the candidates; the calls of [el.click()] are
    recorded in order in [clicks]. Reading [el.dataset._clickedSummary]
    throws a TypeError on an element without [dataset], and [el.click()]
    throws one, after the mark is set, on an element without [click]. *)
Fixpoint clickLoop (candidates : list nat) (d : dom) (clicks : list nat)
  : completion (dom * list nat) :=
  match candidates with
  | [] => Normal (d, clicks)
  | el :: rest =>
      let txt := normalize (textContent d el) in
      match txt with
      | [] => clickLoop rest d clicks
      | _ =>
          if testSummary txt then
            if hasDataset (interfaceOf el) then
              if clickedSummary d el then clickLoop rest d clicks
              else
                let d' := setAttribute el clickedSummaryAttr (lit "1") d in
                if hasClick (interfaceOf el)
                then Normal (d', clicks ++ [el])
                else Abrupt (d', clicks)
            else Abrupt (d, clicks)
          else clickLoop rest d clicks
      end
  end.

Definition clickSummaryIfPresent (r : root) (d : dom) (clicks : list nat)
  : completion (dom * list nat) :=
  if onDiagramsPage d
  then clickLoop (querySelectorAll r buttonSel d) d clicks
  else Normal (d, clicks).

(* --------------------------------------------------------------------- *)
(** *** The running script *)

(** The state the script's closures share, the page, the pending
    [setTimeout] callbacks and the elements whose [click()] was called so
    far. *)
Record script := mkScript {
  page : dom;
  blockedChords : list jsstring;
  _sortPending : bool;
  timeouts : nat;
  lastTick : Z;
  clicked : list nat
}.

Definition withPage (st : script) (d : dom) : script :=
  mkScript d (blockedChords st) (_sortPending st) (timeouts st)
           (lastTick st) (clicked st).

Definition runPurge (r : root) (st : script) : script :=
  withPage st (purge (blockedChords st) r (page st)).

Definition runSort (st : script) : script :=
  withPage st (domOf (sortChordBlocks Document (page st))).

Definition withClicks (st : script) (s : dom * list nat) : script :=
  mkScript (fst s) (blockedChords st) (_sortPending st) (timeouts st)
           (lastTick st) (snd s).

Definition runClick (r : root) (st : script) : completion script :=
  match clickSummaryIfPresent r (page st) (clicked st) with
  | Normal s => Normal (withClicks st s)
  | Abrupt s => Abrupt (withClicks st s)
  end.

Definition queueSort (st : script) : script :=
  if _sortPending st then st
  else mkScript (page st) (blockedChords st) true (S (timeouts st))
                (lastTick st) (clicked st).

(** The callback given to [setTimeout]. *)
Definition sortTimeout (st : script) : script :=
  runSort (mkScript (page st) (blockedChords st) false (pred (timeouts st))
                    (lastTick st) (clicked st)).

(** [start]: the click comes last, so an exception of it leaves the
    purge done and the sort queued. *)
Definition start (st : script) : completion script :=
  runClick Document (queueSort (runPurge Document st)).

(** The filter part of the observer's loop body for one added element. *)
Definition observeAdded (st : script) (node : nat) : script * bool :=
  let d := page st in
  if matchesSelAt spanSel d node && isTargetSpan (blockedChords st) d node
  then
    match chordContainerFor d node with
    | Some container =>
        if isChordBlock d container
        then (withPage st (remove container d), true)
        else (st, false)
    | None => (st, false)
    end
  else
    match querySelectorAll (Element node) spanSel d with
    | [] => (st, false)
    | _ :: _ => (runPurge (Element node) st, true)
    end.

(** The body of the observer's inner loop for one added node; [acc] is
    the state and [touched] so far. Once the click has thrown, the loops
    are over: the nodes that follow are not looked at. *)
Definition observeNode (acc : completion (script * bool)) (n : addedNode)
  : completion (script * bool) :=
  match acc with
  | Abrupt _ => acc
  | Normal (st, touched) =>
      match n with
      | AddedText => acc
      | AddedElement node =>
          let '(st', t) := observeAdded st node in
          match runClick (Element node) st' with
          | Normal st'' => Normal (st'', touched || t)
          | Abrupt st'' => Abrupt (st'', touched || t)
          end
      end
  end.

(** The [MutationObserver] callback; a mutation record is its
    [addedNodes]. An exception of the click leaves the callback before
    [if (touched) queueSort()]. *)
Definition observerCallback (mutations : list (list addedNode)) (st : script)
  : completion script :=
  match fold_left (fun acc m => fold_left observeNode m acc) mutations
          (Normal (st, false)) with
  | Normal (st', touched) => Normal (if touched then queueSort st' else st')
  | Abrupt (st', _) => Abrupt st'
  end.

(** [tick], called with [Date.now()]. An exception of the click leaves it
    after [lastTick = now] and before [queueSort()]. *)
Definition tick (now : Z) (st : script) : completion script :=
  if (now - lastTick st >? 1500)%Z
  then match runClick Document
               (mkScript (page st) (blockedChords st) (_sortPending st)
                         (timeouts st) now (clicked st)) with
       | Normal st' => Normal (queueSort st')
       | Abrupt st' => Abrupt st'
       end
  else Normal st.

(** What can happen to the running script. An exception that leaves one
    of its callbacks ends that callback and leaves the state as it is
    then. (When [start] is called while the script loads and throws, the
    script ends before it sets up the observer and [tick], and a [tick]
    that throws is not requested again: the runs of such a script are
    among the sequences of events here.) *)
Inductive event :=
| Start
| Mutations (ms : list (list addedNode))
| Timeout
| Frame (now : Z)
| PageChange (d : dom).

Definition step (st : script) (ev : event) : script :=
  match ev with
  | Start => stateOf (start st)
  | Mutations ms => stateOf (observerCallback ms st)
  | Timeout => match timeouts st with
               | O => st
               | S _ => sortTimeout st
               end
  | Frame now => stateOf (tick now st)
  | PageChange d => withPage st d
  end.

Definition run (evs : list event) (st : script) : script :=
  fold_left step evs st.

(** The script as loaded into a page. *)
Definition loaded (d : dom) : script :=
  mkScript d (newSet blockedChordsList []) false 0 0 [].

End Script.

(* ===================================================================== *)
(** ** Views used to state and prove the properties *)
(* ===================================================================== *)

(** What the script's tests read off the view of an element. *)
Definition targetView (nfc : jsstring -> jsstring) (blocked : list jsstring)
  (v : view) : bool :=
  hasClass cbg1qdk (self v)
  && str_mem (normalize nfc (text_of (kids v))) blocked.

Definition containerOf (v : view) : option nat :=
  match closestFrom blockSel (self v) (above v) with
  | Some c => Some c
  | None => closestFrom divSel (self v) (above v)
  end.

Definition guardView (v : view) : bool :=
  existsb (matchesView diagramSel) (descendants v).

(** The container a span of the document designates for removal, if any:
    the span's label is blocked and its container passes the
    chord-diagram guard. *)
Definition candidate (nfc : jsstring -> jsstring) (blocked : list jsstring)
  (d : dom) (span : nat) : list nat :=
  if isTargetSpan nfc blocked d span then
    match chordContainerFor d span with
    | Some c => if isChordBlock d c then [c] else []
    | None => []
    end
  else [].

(** The containers designated by the spans of the document. *)
Definition removable (nfc : jsstring -> jsstring) (blocked : list jsstring)
  (d : dom) : list nat :=
  flat_map (candidate nfc blocked d) (querySelectorAll Document spanSel d).

(** No designated container lies inside another one. *)
Definition containersApart (nfc : jsstring -> jsstring)
  (blocked : list jsstring) (d : dom) : Prop :=
  forall v w,
    In v (locs (document d)) -> In (vid v) (removable nfc blocked d) ->
    In w (descendants v) -> ~ In (vid w) (removable nfc blocked d).

(** A view survives the pruning by [P] when neither the element nor one of
    its ancestors is picked. *)
Definition clear (P : nat -> bool) (anc : list element) : bool :=
  forallb (fun a => negb (P (eid a))) anc.

Definition alive (P : nat -> bool) (v : view) : bool :=
  negb (P (vid v)) && clear P (above v).

Definition vprune (P : nat -> bool) (v : view) : view :=
  mkView (self v) (prune P (kids v)) (above v).

Definition inList (l : list nat) (i : nat) : bool := existsb (Nat.eqb i) l.


(** The containers designated by the spans among the views [L]. *)
Definition designated (nfc : jsstring -> jsstring) (blocked : list jsstring)
  (d : dom) (L : list view) : list nat :=
  flat_map (fun v => if matchesView spanSel v
                     then candidate nfc blocked d (vid v) else []) L.


(** The claim's description of a removed container: a span of the
    document with class [cbg1qdk] whose trimmed and normalised text is in
    the list has [c] as its container, and [c] passes the chord-diagram
    guard. *)
Definition designates (nfc : jsstring -> jsstring) (blocked : list jsstring)
  (d : dom) (c : nat) : Prop :=
  exists v vc,
    In v (locs (document d)) /\ matchesView spanSel v = true
    /\ In (nfc (trim (text_of (kids v)))) blocked
    /\ containerOf v = Some c
    /\ In vc (locs (document d)) /\ vid vc = c /\ guardView vc = true.

Fixpoint distinctb (l : list jsstring) : bool :=
  match l with
  | [] => true
  | x :: l' => negb (str_mem x l') && distinctb l'
  end.

(** Decidable forms of the side conditions, for concrete documents. *)
Fixpoint nodupb (l : list nat) : bool :=
  match l with
  | [] => true
  | x :: l' => negb (inList l' x) && nodupb l'
  end.

Definition wfb (d : dom) : bool := nodupb (map vid (locs (allTrees d))).

Definition containersApartb (nfc : jsstring -> jsstring)
  (blocked : list jsstring) (d : dom) : bool :=
  let rem := removable nfc blocked d in
  forallb (fun v => negb (inList rem (vid v))
                    || forallb (fun w => negb (inList rem (vid w)))
                               (descendants v))
          (locs (document d)).

(* --------------------------------------------------------------------- *)
(** *** Concrete hosts and documents *)

(** NFC on strings that are already in normal form, as every string of
    ASCII letters and chord glyphs is. *)
Definition nfcOfNormal (s : jsstring) : jsstring := s.

(** A comparison that ignores ASCII case, as [localeCompare] with base
    sensitivity orders strings of ASCII letters and digits. *)
Fixpoint compareBase (a b : jsstring) : Z :=
  match a, b with
  | [], [] => 0
  | [], _ :: _ => -1
  | _ :: _, [] => 1
  | x :: a', y :: b' =>
      match N.compare (asciiLower x) (asciiLower y) with
      | Lt => -1
      | Gt => 1
      | Eq => compareBase a' b'
      end
  end%Z.

Definition div (i : nat) (cls : list jsstring) (ks : list node) : node :=
  Elem (mkElement i (lit "div") cls []) ks.

Definition tagged (i : nat) (t : string) (ks : list node) : node :=
  Elem (mkElement i (lit t) [] []) ks.

(** A chord label [<span class="cbg1qdk">t</span>]. *)
Definition label (i : nat) (t : string) : node :=
  Elem (mkElement i (lit "span") [cbg1qdk] []) [Text (lit t)].

(** A chord diagram [<svg><use href="/api/v2/diagrams/instruments/..."/></svg>]. *)
Definition diagram (i j : nat) : node :=
  Elem (mkElement i (lit "svg") [] [])
    [Elem (mkElement j (lit "use") []
             [(lit "href", lit "/api/v2/diagrams/instruments/guitar/chords/X")])
          []].

Definition inBody (ks : list node) : dom :=
  mkDom [tagged 100 "html" [tagged 101 "body" ks]] [].

(** Two chord blocks side by side, one known (A) and one not (Am7). *)
Definition twoBlocks : dom :=
  inBody [div 1 []
            [div 2 [deu1fhf] [label 3 "A"; diagram 4 5];
             div 6 [deu1fhf] [label 7 "Am7"; diagram 8 9]]].

(** A chord block inside a chord block, its diagram in the inner one. *)
Definition nestedContainers : dom :=
  inBody [div 1 [deu1fhf]
            [div 2 [deu1fhf] [label 3 "A"; diagram 4 5]; label 6 "B"]].


(** No [span.cbg1qdk] of the document lies inside another one. *)
Definition spansApart (d : dom) : Prop :=
  forall v w,
    In v (locs (document d)) -> matchesView spanSel v = true ->
    In w (descendants v) -> matchesView spanSel w = false.

Definition spansApartb (d : dom) : bool :=
  forallb (fun v => negb (matchesView spanSel v)
                    || forallb (fun w => negb (matchesView spanSel w))
                               (descendants v))
          (locs (document d)).

(** The chord-diagram guard of [c] once the subtrees picked by [P] are
    out of the forest. *)
Definition stillGuarded (P : nat -> bool) (doc0 : list node) (c : nat) : bool :=
  match locate_in c doc0 with
  | Some vc =>
      existsb (matchesView diagramSel) (filter (alive P) (descendants vc))
  | None => false
  end.

(** A span that purge leaves alone: not blocked, without a container, or
    with a container that does not pass the guard. *)
Definition inert (nfc : jsstring -> jsstring) (blocked : list jsstring)
  (P : nat -> bool) (doc0 : list node) (u : view) : bool :=
  negb (targetView nfc blocked u)
  || match containerOf u with
     | None => true
     | Some c => negb (stillGuarded P doc0 c)
     end.

(** The state of purge over the document of [d0] after the views [pre]:
    some containers of spans are out of the document, and the spans
    visited that are still in it are inert. *)
Definition purgedState (nfc : jsstring -> jsstring) (blocked : list jsstring)
  (d0 : dom) (pre : list view) (d : dom) : Prop :=
  wf d
  /\ exists R,
       document d = prune (inList R) (document d0)
       /\ (forall c, In c R ->
             exists u, In u (locs (document d0))
                       /\ matchesView spanSel u = true
                       /\ containerOf u = Some c)
       /\ (forall u, In u pre -> matchesView spanSel u = true ->
             alive (inList R) u = true ->
             inert nfc blocked (inList R) (document d0) u = true).

(** A blocked label that holds, besides its text, a whole chord block. *)
Definition labelAroundBlock : dom :=
  inBody [div 1 []
            [diagram 2 3;
             Elem (mkElement 4 (lit "span") [cbg1qdk] [])
                  [Text (lit "A"); div 5 [] [label 6 "B"; diagram 7 8]]]].


(** Either nothing is pending, or the flag is set and one callback
    waits. *)
Definition debounced (st : script) : Prop :=
  (_sortPending st = false /\ timeouts st = 0)
  \/ (_sortPending st = true /\ timeouts st = 1).

(** The element [i] rewritten by [g], wherever a view shows it. *)
Definition atElement (i : nat) (g : element -> element) (e : element)
  : element :=
  if Nat.eqb (eid e) i then g e else e.

Definition vmapElement (i : nat) (g : element -> element) (v : view) : view :=
  mkView (atElement i g (self v)) (map (mapElement i g) (kids v))
         (map (atElement i g) (above v)).

Definition withAttr (name value : jsstring) (e : element) : element :=
  mkElement (eid e) (tagName e) (classList e)
            (setAttr name value (attributes e)).

(** The clicks recorded so far went to distinct elements, each marked. *)
Definition clickedMarked (s : dom * list nat) : Prop :=
  wf (fst s) /\ NoDup (snd s)
  /\ forall el, In el (snd s) -> clickedSummary (fst s) el = true.

(* --------------------------------------------------------------------- *)
(** *** Reordering children *)

(** The element children of a child list, by identity. *)
Definition elementKids (ks : list node) : list nat :=
  flat_map (fun k => match k with Elem e _ => [eid e] | Text _ => [] end) ks.

(** The child [b] moved behind its siblings. *)
Definition moveLast (b : nat) (ks : list node) : list node :=
  filter (fun k => negb (isElem b k)) ks ++ filter (isElem b) ks.

Definition moveLastId (b : nat) (ids : list nat) : list nat :=
  filter (fun i => negb (Nat.eqb i b)) ids ++ filter (fun i => Nat.eqb i b) ids.

(** The child list of [p] rewritten by [g] throughout the DOM. *)
Definition reorder (p : nat) (g : list node -> list node) (d : dom) : dom :=
  mkDom (map (mapKids p g) (document d)) (map (mapKids p g) (orphans d)).

Definition kidsAfter (p : nat) (g : list node -> list node) (v : view)
  : list node :=
  let ks := map (mapKids p g) (kids v) in
  if Nat.eqb (vid v) p then g ks else ks.

Definition vmapKids (p : nat) (g : list node -> list node) (v : view) : view :=
  mkView (self v) (kidsAfter p g v) (above v).

(** What stays of an element under reordering: the element and its
    ancestors. *)
Definition shape (d : dom) (i : nat) : option (element * list element) :=
  option_map (fun v => (self v, above v)) (locate i d).

Definition kidIds (d : dom) (i : nat) : option (list nat) :=
  option_map (fun v => elementKids (kids v)) (locate i d).

(** [d'] holds the elements of [d], each under the same ancestors. *)
Definition rearranged (d d' : dom) : Prop :=
  wf d'
  /\ (forall i, shape d' i = shape d i)
  /\ Permutation (map self (locs (document d'))) (map self (locs (document d))).

(** Every block of a group has the group's key as parent. *)
Definition groupsOf (d : dom) (groups : list (nat * list nat)) : Prop :=
  forall p l b, In (p, l) groups -> In b l -> parentElement d b = Some p.

(** A chord block: a [div.deu1fhf] that passes the chord-diagram guard. *)
Definition isBlock (d : dom) (i : nat) : bool :=
  matchesSelAt blockSel d i && isChordBlock d i.

(** The chord blocks among the children of a viewed element, in child
    order. *)
Definition blockKids (d : dom) (vp : view) : list nat :=
  filter (isBlock d) (elementKids (kids vp)).

(** [a] does not sort after [b] by chord key. *)
Definition keyLe (nfc : jsstring -> jsstring)
  (cmp : jsstring -> jsstring -> Z) (d : dom) (a b : nat) : Prop :=
  (compareBlocks nfc cmp d a b <= 0)%Z.

(** What [Array.prototype.sort] asks of a comparator, as far as the order
    of the result goes: any two strings compare one way or the other, and
    the order is transitive. *)
Definition consistentComparator (cmp : jsstring -> jsstring -> Z) : Prop :=
  (forall a b, (cmp a b <= 0)%Z \/ (cmp b a <= 0)%Z)
  /\ (forall a b c, (cmp a b <= 0)%Z -> (cmp b c <= 0)%Z -> (cmp a c <= 0)%Z).

(** No chord block of the document lies inside another one. *)
Definition blocksApart (d : dom) : Prop :=
  forall v w,
    In v (locs (document d)) -> In (vid v) (chordBlocks Document d) ->
    In w (descendants v) -> ~ In (vid w) (chordBlocks Document d).

Definition blocksApartb (d : dom) : bool :=
  let blocks := chordBlocks Document d in
  forallb (fun v => negb (inList blocks (vid v))
                    || forallb (fun w => negb (inList blocks (vid w)))
                               (descendants v))
          (locs (document d)).

(** A view at or below a chord block of the document. *)
Definition protected (d0 : dom) (v : view) : Prop :=
  exists e, In e (self v :: above v) /\ In (eid e) (chordBlocks Document d0).

(** What every state of a sort over [d0] keeps. *)
Definition settled (d0 d : dom) : Prop :=
  wf d
  /\ (forall i, shape d i = shape d0 i)
  /\ (forall i, isChordBlock d i = isChordBlock d0 i)
  /\ (forall v, In v (locs (allTrees d0)) -> protected d0 v ->
         locate (vid v) d = Some v)
  /\ Permutation (map self (locs (document d))) (map self (locs (document d0))).

(** The state of a sort over [d0] once the groups [done] are through:
    their parents have their blocks last, in sorted order; the child
    lists of the other elements hold what they held. *)
Definition sortingState (nfc : jsstring -> jsstring)
  (cmp : jsstring -> jsstring -> Z) (d0 : dom)
  (done : list (nat * list nat)) (d : dom) : Prop :=
  settled d0 d
  /\ (forall q, ~ In q (map fst done) -> kidIds d q = kidIds d0 q)
  /\ (forall p l, In (p, l) done ->
         kidIds d p
         = option_map
             (fun ids0 => filter (fun i => negb (inList l i)) ids0
                          ++ sortBy (compareBlocks nfc cmp d0) l)
             (kidIds d0 p)).

(** What the [byParent] map holds of the blocks [seen]. *)
Definition grouped (d : dom) (seen : list nat) (m : list (nat * list nat))
  : Prop :=
  NoDup (map fst m)
  /\ (forall p l b, In (p, l) m -> In b l ->
         In b seen /\ parentElement d b = Some p)
  /\ (forall b p, In b seen -> parentElement d b = Some p ->
         exists l, In (p, l) m /\ In b l)
  /\ (forall p l, In (p, l) m -> NoDup l).

(** Chord blocks Z and A inside a chord block, next to a chord block M. *)
Definition nestedBlocks : dom :=
  inBody [div 1 []
            [div 2 [deu1fhf]
               [div 3 [deu1fhf] [label 4 "Z"; diagram 5 6];
                div 7 [deu1fhf] [label 8 "A"; diagram 9 10]];
             div 11 [deu1fhf] [label 12 "M"; diagram 13 14]]].

(** Three chord blocks out of order, between other nodes. *)
Definition threeBlocks : dom :=
  inBody [div 1 []
            [div 2 [deu1fhf] [label 3 "Gm7"; diagram 4 5];
             tagged 6 "p" [Text (lit "capo 2")];
             div 7 [deu1fhf] [label 8 "C#"; diagram 9 10];
             div 11 [deu1fhf] [label 12 "am"; diagram 13 14]]].

(** The view of a located element ([i] is in the DOM where this is used). *)
Definition viewAt (d : dom) (i : nat) : view :=
  match locate i d with
  | Some v => v
  | None => mkView (mkElement i [] [] []) [] []
  end.

(** [nestedBlocks] after sortChordBlocks. *)
Definition sortedNested : dom :=
  domOf (sortChordBlocks nfcOfNormal compareBase Document nestedBlocks).




(** The loop of clickSummaryIfPresent goes no further than a candidate
    labelled "Summary" whose mark it cannot read or does not find. *)
Definition stopsAt (nfc : jsstring -> jsstring) (iface : nat -> interface)
  (d : dom) (el : nat) : bool :=
  testSummary (nfc (trim (textContent d el)))
  && (negb (hasDataset (iface el)) || negb (clickedSummary d el)).

(** A sequence of calls of [clickSummaryIfPresent], each with its root;
    a call that throws ends, and the next one finds the page and the
    clicks as it left them. *)
Definition clickRuns (nfc : jsstring -> jsstring) (iface : nat -> interface)
  (rs : list root) (s : dom * list nat) : dom * list nat :=
  fold_left
    (fun s r => stateOf (clickSummaryIfPresent nfc iface r (fst s) (snd s)))
    rs s.

(** The longest prefix of [l] whose elements pass [f]. *)
Fixpoint takeWhile (A : Type) (f : A -> bool) (l : list A) : list A :=
  match l with
  | [] => []
  | x :: l' => if f x then x :: takeWhile f l' else []
  end.

(** The interfaces of the elements of a document that the HTML parser
    built: an [svg] element and what it holds are SVG elements, the others
    HTML elements. *)
Definition parsedAs (d : dom) (i : nat) : interface :=
  match locate i d with
  | Some v =>
      if existsb (fun e => str_eqb (tagName e) (lit "svg")) (self v :: above v)
      then SVGElement
      else HTMLElement
  | None => HTMLElement
  end.

(** purge over a tree that holds the node and its subtree: the node
    itself is among the spans when it matches. *)
Definition purgeWithin (nfc : jsstring -> jsstring) (blocked : list jsstring)
  (node : nat) (d : dom) : dom :=
  fold_left (purgeSpan nfc blocked)
    ((if matchesSelAt spanSel d node then [node] else [])
     ++ querySelectorAll (Element node) spanSel d)
    d.

(** A page without chord blocks, buttons or views. *)
Definition plainPage : dom :=
  inBody [tagged 1 "p" [Text (lit "No chords here")]].

(** The Diagrams view with its toggles. *)
Definition togglePage : dom :=
  inBody [div 1 [lit "view-diagrams"]
            [tagged 2 "button" [Text (lit " Animated ")];
             tagged 3 "button" [Text (lit " SuMMary ")];
             tagged 4 "a" [Text (lit "Summary")]]].

(** The Diagrams view with an SVG icon that acts as the "Summary" button,
    before the "Summary" link. *)
Definition iconPage : dom :=
  inBody [div 1 [lit "view-diagrams"]
            [Elem (mkElement 2 (lit "svg") [] [(lit "role", lit "button")])
                  [tagged 3 "title" [Text (lit "Summary")]];
             tagged 4 "a" [Text (lit "Summary")]]].

(** A blocked label directly in the body that wraps a chord block. *)
Definition labelWrapsBlock : dom :=
  inBody [Elem (mkElement 1 (lit "span") [cbg1qdk] [])
               [div 2 [] [label 3 "A"; diagram 4 5]]].

(* --------------------------------------------------------------------- *)
(** *** What the container and guard tests look for *)

(** A [div], and a [div.deu1fhf]. *)
Definition isDiv (e : element) : bool := str_eqb (tagName e) (lit "div").

Definition isWrapper (e : element) : bool := isDiv e && hasClass deu1fhf e.

(** A [use] whose [href] holds the path of the chord diagrams, and an
    [svg]. *)
Definition isDiagramUse (e : element) : bool :=
  str_eqb (tagName e) (lit "use")
  && match getAttribute (lit "href") (attributes e) with
     | Some h => includes h (lit "/api/v2/diagrams/instruments/")
     | None => false
     end.

Definition isSvg (e : element) : bool := str_eqb (tagName e) (lit "svg").

(** Below the viewed element there is a diagram [use] with an [svg] among
    its ancestors. *)
Definition showsDiagram (v : view) : Prop :=
  exists w, In w (descendants v) /\ isDiagramUse (self w) = true
            /\ exists a, In a (above w) /\ isSvg a = true.

(** In the forest, [c] is a [div] that passes the chord-diagram guard and
    holds a [span.cbg1qdk]. *)
Definition holdsLabelIn (doc : list node) (c : nat) : Prop :=
  exists vc w,
    In vc (locs doc) /\ vid vc = c /\ isDiv (self vc) = true
    /\ guardView vc = true
    /\ In w (descendants vc) /\ matchesView spanSel w = true.

(* --------------------------------------------------------------------- *)
(** *** The mark of a click and the rest of the page *)

(** The attribute a test of a selector reads; a selector none of whose
    tests reads the attribute [name]. *)
Definition attrName (t : attrTest) : jsstring :=
  match t with
  | AttrEquals n _ => n
  | AttrIncludes n _ => n
  end.

Definition ignoresAttr (name : jsstring) (s : selector) : bool :=
  forallb (forallb (fun c => forallb (fun t => negb (str_eqb (attrName t) name))
                                     (selAttrs c))) s.

(** [e] is [e0], but for the mark of a click. *)
Definition sameButMark (e e0 : element) : Prop :=
  eid e = eid e0 /\ tagName e = tagName e0 /\ classList e = classList e0
  /\ (attributes e = attributes e0
      \/ attributes e = setAttr clickedSummaryAttr (lit "1") (attributes e0)).

(** Every element of the document of [d] is an element of the document of
    [d0], but for the mark. *)
Definition fromDocument (d0 d : dom) : Prop :=
  forall e, In e (map self (locs (document d))) ->
    exists e0, In e0 (map self (locs (document d0))) /\ sameButMark e e0.

(** An event of the script's own making or timing, as opposed to a
    change of the page by someone else. *)
Definition ownEvent (ev : event) : Prop :=
  match ev with
  | PageChange _ => False
  | _ => True
  end.

(* --------------------------------------------------------------------- *)
(** *** Child lists, node by node *)

(** A child node seen from its parent: an element by its identity, or a
    text node; and the child nodes of an element of the DOM seen so. *)
Definition nodeId (k : node) : option nat :=
  match k with
  | Elem e _ => Some (eid e)
  | Text _ => None
  end.

Definition nodeIds (ks : list node) : list (option nat) := map nodeId ks.

Definition kidTags (d : dom) (i : nat) : option (list (option nat)) :=
  option_map (fun v => nodeIds (kids v)) (locate i d).

(** The child node is the element [b]; is one of the elements [l]; is a
    chord block. *)
Definition isTag (b : nat) (t : option nat) : bool :=
  match t with
  | Some i => Nat.eqb i b
  | None => false
  end.

Definition tagIn (l : list nat) (t : option nat) : bool :=
  match t with
  | Some i => inList l i
  | None => false
  end.

Definition blockTag (d : dom) (t : option nat) : bool :=
  match t with
  | Some i => isBlock d i
  | None => false
  end.

(** [moveLast], on child nodes seen from the parent. *)
Definition moveLastTag (b : nat) (tags : list (option nat))
  : list (option nat) :=
  filter (fun t => negb (isTag b t)) tags ++ filter (isTag b) tags.

(** The children [S] moved behind their siblings, one after the other. *)
Definition moveAllLast (S : list nat) (ks : list node) : list node :=
  fold_left (fun ks s => moveLast s ks) S ks.

(** The child lists, node by node, once the groups [done] of a sort over
    [d0] are through. *)
Definition tagsState (nfc : jsstring -> jsstring)
  (cmp : jsstring -> jsstring -> Z) (d0 : dom)
  (done : list (nat * list nat)) (d : dom) : Prop :=
  (forall q, ~ In q (map fst done) -> kidTags d q = kidTags d0 q)
  /\ (forall p l, In (p, l) done ->
         kidTags d p
         = option_map
             (fun tags0 => filter (fun t => negb (tagIn l t)) tags0
                           ++ map Some (sortBy (compareBlocks nfc cmp d0) l))
             (kidTags d0 p)).

(** The array the [byParent] map holds for [p]. *)
Definition groupOf (p : nat) (m : list (nat * list nat)) : list nat :=
  match find (fun ql => Nat.eqb (fst ql) p) m with
  | Some (_, l) => l
  | None => []
  end.

(** The view is one of a child of [p]; the element [b] is a child of
    [p]. *)
Definition hasParent (p : nat) (v : view) : bool :=
  match above v with
  | a :: _ => Nat.eqb (eid a) p
  | [] => false
  end.

Definition parentIs (d : dom) (p b : nat) : bool :=
  match parentElement d b with
  | Some q => Nat.eqb q p
  | None => false
  end.

(* --------------------------------------------------------------------- *)
(** *** More documents *)

(** Labels that are not in the exclusion list. *)
Definition unknownChords : dom :=
  inBody [div 1 []
            [div 2 [deu1fhf] [label 3 "Gm7"; diagram 4 5];
             div 6 [deu1fhf] [label 7 "C#"; diagram 8 9]]].

(** A known label without a diagram, next to a known chord block. *)
Definition strayLabel : dom :=
  inBody [div 1 [] [label 2 "A"];
          div 3 [deu1fhf] [label 4 "B"; diagram 5 6]].

(** The script over [twoBlocks] once the known block is out of the
    document. *)
Definition afterRemoval : script :=
  mkScript (remove 2 twoBlocks) blockedChordsList false 0 0 [].

(** Induction over a forest: on the children of its first element and on
    the trees that follow. *)
Section ForestInd.
Variable Q : list node -> Prop.
Hypothesis Hnil : Q [].
Hypothesis Htext : forall s f, Q f -> Q (Text s :: f).
Hypothesis Helem : forall e ks f, Q ks -> Q f -> Q (Elem e ks :: f).

Fixpoint forest_ind_node (n : node) : forall f, Q f -> Q (n :: f) :=
  match n with
  | Text s => fun f H => Htext s H
  | Elem e ks =>
      fun f H =>
        Helem e
          ((fix go (l : list node) : Q l :=
              match l with
              | [] => Hnil
              | k :: l' => forest_ind_node k (go l')
              end) ks)
          H
  end.

Fixpoint forest_ind (f : list node) : Q f :=
  match f with
  | [] => Hnil
  | k :: f' => forest_ind_node k (forest_ind f')
  end.

End ForestInd.

(* ===================================================================== *)
(** ** Strings *)
(* ===================================================================== *)

Ltac reassoc :=
  repeat (rewrite <- app_assoc || rewrite <- app_comm_cons); try reflexivity.

Lemma str_eqb_eq (a b : jsstring) : str_eqb a b = true <-> a = b.
Proof.
  revert b; induction a as [|x a IH]; intros [|y b]; simpl; split;
    try congruence; try discriminate; auto.
  - rewrite andb_true_iff, N.eqb_eq, IH. intros [-> ->]; reflexivity.
  - intros H; injection H as -> ->. now rewrite N.eqb_refl, (proj2 (IH b) eq_refl).
Qed.

Lemma str_eqb_refl (a : jsstring) : str_eqb a a = true.
Proof. now apply str_eqb_eq. Qed.

Lemma str_mem_In (s : jsstring) (l : list jsstring) :
  str_mem s l = true <-> In s l.
Proof.
  unfold str_mem. rewrite existsb_exists. split.
  - intros [x [Hin Heq]]. apply str_eqb_eq in Heq. now subst.
  - intros Hin. exists s. split; [assumption | apply str_eqb_refl].
Qed.

Lemma inList_In (l : list nat) (i : nat) : inList l i = true <-> In i l.
Proof.
  unfold inList. rewrite existsb_exists. split.
  - intros [x [Hin Heq]]. apply Nat.eqb_eq in Heq. now subst.
  - intros Hin. exists i. split; [assumption | apply Nat.eqb_refl].
Qed.

(* ===================================================================== *)
(** ** Forests *)
(* ===================================================================== *)

Lemma locs_in_text anc s f : locs_in anc (Text s :: f) = locs_in anc f.
Proof. reflexivity. Qed.

Lemma locs_in_elem anc e ks f :
  locs_in anc (Elem e ks :: f)
  = mkView e ks anc :: locs_in (e :: anc) ks ++ locs_in anc f.
Proof. reflexivity. Qed.

Lemma locs_in_app anc f g :
  locs_in anc (f ++ g) = locs_in anc f ++ locs_in anc g.
Proof. unfold locs_in. apply flat_map_app. Qed.

Lemma prune_text P s f : prune P (Text s :: f) = Text s :: prune P f.
Proof. reflexivity. Qed.

Lemma prune_elem P e ks f :
  prune P (Elem e ks :: f)
  = if P (eid e) then prune P f else Elem e (prune P ks) :: prune P f.
Proof.
  unfold prune at 1. simpl. destruct (P (eid e)); reflexivity.
Qed.

Lemma prune_app P f g : prune P (f ++ g) = prune P f ++ prune P g.
Proof. unfold prune. now rewrite map_app, filter_app. Qed.

(** The ancestors of a view of a forest end with the ancestors the forest
    was entered with, and the others are elements of the forest. *)
Lemma above_in_forest f : forall anc v,
  In v (locs_in anc f) ->
  exists rel, above v = rel ++ anc
              /\ Forall (fun a => In a (map self (locs_in anc f))) rel.
Proof.
  induction f as [|s f IH|e ks f IHk IHf] using forest_ind; intros anc v Hin.
  - contradiction.
  - rewrite locs_in_text in *. now apply IH.
  - rewrite locs_in_elem in *. destruct Hin as [<- | Hin].
    + exists []. split; [reflexivity | constructor].
    + apply in_app_or in Hin. destruct Hin as [Hin | Hin].
      * destruct (IHk _ _ Hin) as [rel [Hab Hrel]].
        exists (rel ++ [e]). split.
        { rewrite Hab, <- app_assoc. reflexivity. }
        apply Forall_app. split.
        { eapply Forall_impl; [| exact Hrel]. intros a Ha. simpl. right.
          rewrite map_app. apply in_or_app. now left. }
        constructor; [now left | constructor].
      * destruct (IHf _ _ Hin) as [rel [Hab Hrel]].
        exists rel. split; [assumption |].
        eapply Forall_impl; [| exact Hrel]. intros a Ha. simpl. right.
        rewrite map_app. apply in_or_app. now right.
Qed.

Lemma above_ends anc f v :
  In v (locs_in anc f) -> exists rel, above v = rel ++ anc.
Proof.
  intros H. destruct (above_in_forest _ _ _ H) as [rel [Hab _]]. eauto.
Qed.

(** The identities of a forest do not depend on where it hangs. *)
Lemma ids_anc f : forall anc anc',
  map vid (locs_in anc f) = map vid (locs_in anc' f).
Proof.
  induction f as [|s f IH|e ks f IHk IHf] using forest_ind; intros anc anc'.
  - reflexivity.
  - rewrite !locs_in_text. apply IH.
  - rewrite !locs_in_elem. simpl. rewrite !map_app.
    now rewrite (IHk (e :: anc) (e :: anc')), (IHf anc anc').
Qed.

Lemma selves_anc f : forall anc anc',
  map self (locs_in anc f) = map self (locs_in anc' f).
Proof.
  induction f as [|s f IH|e ks f IHk IHf] using forest_ind; intros anc anc'.
  - reflexivity.
  - rewrite !locs_in_text. apply IH.
  - rewrite !locs_in_elem. simpl. rewrite !map_app.
    now rewrite (IHk (e :: anc) (e :: anc')), (IHf anc anc').
Qed.

(** A view of a forest is followed by its descendants. *)
Lemma locs_segment f : forall anc v,
  In v (locs_in anc f) ->
  exists l1 l2, locs_in anc f = l1 ++ v :: descendants v ++ l2.
Proof.
  induction f as [|s f IH|e ks f IHk IHf] using forest_ind; intros anc v Hin.
  - contradiction.
  - rewrite locs_in_text in *. now apply IH.
  - rewrite locs_in_elem in *. destruct Hin as [<- | Hin].
    + exists [], (locs_in anc f). reflexivity.
    + apply in_app_or in Hin. destruct Hin as [Hin | Hin].
      * destruct (IHk _ _ Hin) as [l1 [l2 Heq]].
        exists (mkView e ks anc :: l1), (l2 ++ locs_in anc f).
        rewrite Heq. now reassoc.
      * destruct (IHf _ _ Hin) as [l1 [l2 Heq]].
        exists (mkView e ks anc :: locs_in (e :: anc) ks ++ l1), l2.
        rewrite Heq. now reassoc.
Qed.

Lemma descendants_in anc f v w :
  In v (locs_in anc f) -> In w (descendants v) -> In w (locs_in anc f).
Proof.
  intros Hv Hw. destruct (locs_segment _ _ _ Hv) as [l1 [l2 Heq]].
  rewrite Heq. apply in_or_app. right. right. apply in_or_app. now left.
Qed.

Lemma descendants_trans u v w :
  In v (descendants u) -> In w (descendants v) -> In w (descendants u).
Proof. unfold descendants at 1 3. apply descendants_in. Qed.

Lemma descendant_above v w :
  In w (descendants v) -> exists rel, above w = rel ++ self v :: above v.
Proof. unfold descendants. apply above_ends. Qed.

Lemma exists_last_or_nil (A : Type) (l : list A) :
  l = [] \/ exists l' x, l = l' ++ [x].
Proof.
  induction l as [|x l _] using rev_ind; [now left | right; eauto].
Qed.

Lemma chain_split (A : Type) (pre post anc rel : list A) (c e : A) :
  pre ++ c :: post ++ anc = rel ++ e :: anc ->
  (post = [] /\ c = e /\ rel = pre)
  \/ exists post', post = post' ++ [e] /\ rel = pre ++ c :: post'.
Proof.
  intros H.
  assert (H' : pre ++ c :: post = rel ++ [e]).
  { apply (app_inv_tail anc). repeat rewrite <- app_assoc. simpl. exact H. }
  destruct (exists_last_or_nil post) as [-> | [post' [x ->]]].
  - left. change (pre ++ [c]) with (pre ++ [c]) in H'.
    apply app_inj_tail in H'. destruct H' as [-> ->]. auto.
  - right. exists post'.
    change (pre ++ c :: post' ++ [x]) with (pre ++ (c :: post') ++ [x]) in H'.
    rewrite app_assoc in H'. apply app_inj_tail in H'.
    destruct H' as [<- ->]. auto.
Qed.

(** Every ancestor of a view that lies in the forest has a view of its
    own there, with the view among its descendants. *)
Lemma ancestor_view f : forall anc v pre c post,
  In v (locs_in anc f) ->
  above v = pre ++ c :: post ++ anc ->
  exists kc, In (mkView c kc (post ++ anc)) (locs_in anc f)
             /\ In v (descendants (mkView c kc (post ++ anc))).
Proof.
  induction f as [|s f IH|e ks f IHk IHf] using forest_ind;
    intros anc v pre c post Hin Hab.
  - contradiction.
  - rewrite locs_in_text in *. eapply IH; eassumption.
  - rewrite locs_in_elem in *. destruct Hin as [<- | Hin].
    + simpl in Hab. apply (f_equal (@List.length element)) in Hab.
      rewrite length_app in Hab. simpl in Hab. rewrite length_app in Hab. lia.
    + apply in_app_or in Hin. destruct Hin as [Hin | Hin].
      * destruct (above_ends _ _ _ Hin) as [rel Hrel].
        rewrite Hab in Hrel.
        destruct (chain_split _ _ _ _ _ _ Hrel)
          as [[-> [-> ->]] | [post' [-> ->]]].
        -- exists ks. split; [now left | exact Hin].
        -- destruct (IHk (e :: anc) v pre c post' Hin) as [kc [Hc Hv]].
           { rewrite Hab. now reassoc. }
           exists kc. rewrite <- app_assoc. simpl. split; [| exact Hv].
           right. apply in_or_app. now left.
      * destruct (IHf anc v pre c post Hin Hab) as [kc [Hc Hv]].
        exists kc. split; [| exact Hv].
        right. apply in_or_app. now right.
Qed.

(* --------------------------------------------------------------------- *)
(** *** Finding a view by identity *)

Lemma view_unique (L : list view) (a b : view) :
  NoDup (map vid L) -> In a L -> In b L -> vid a = vid b -> a = b.
Proof.
  induction L as [|x L IH]; intros Hnd Ha Hb Heq; [contradiction |].
  simpl in Hnd. inversion Hnd as [|? ? Hx Hnd']; subst.
  destruct Ha as [-> | Ha], Hb as [-> | Hb]; auto.
  - exfalso. apply Hx. rewrite Heq. now apply in_map.
  - exfalso. apply Hx. rewrite <- Heq. now apply in_map.
Qed.

Lemma find_view_some (L : list view) i v :
  find (fun v => Nat.eqb (vid v) i) L = Some v -> In v L /\ vid v = i.
Proof.
  intros H. apply find_some in H. destruct H as [Hin Heq].
  apply Nat.eqb_eq in Heq. auto.
Qed.

Lemma find_view_none (L : list view) i :
  find (fun v => Nat.eqb (vid v) i) L = None <-> ~ In i (map vid L).
Proof.
  split.
  - intros H Hin. apply in_map_iff in Hin. destruct Hin as [v [Hv Hin]].
    apply (find_none _ _ H) in Hin. apply Nat.eqb_neq in Hin. contradiction.
  - intros H. destruct (find _ L) as [v|] eqn:E; [| reflexivity].
    apply find_view_some in E. destruct E as [Hin <-].
    exfalso. apply H. now apply in_map.
Qed.

Lemma find_view_in (L : list view) v :
  NoDup (map vid L) -> In v L ->
  find (fun w => Nat.eqb (vid w) (vid v)) L = Some v.
Proof.
  intros Hnd Hin.
  destruct (find _ L) as [w|] eqn:E.
  - apply find_view_some in E. destruct E as [Hw Heq].
    f_equal. now apply (view_unique L).
  - apply find_view_none in E. exfalso. apply E. now apply in_map.
Qed.

Lemma locate_in_some i f v :
  locate_in i f = Some v -> In v (locs f) /\ vid v = i.
Proof. apply find_view_some. Qed.

Lemma locate_in_found f v :
  wf_forest f -> In v (locs f) -> locate_in (vid v) f = Some v.
Proof. apply find_view_in. Qed.

Lemma locate_some i d v :
  locate i d = Some v -> In v (locs (allTrees d)) /\ vid v = i.
Proof. apply find_view_some. Qed.

Lemma locate_found d v :
  wf d -> In v (locs (allTrees d)) -> locate (vid v) d = Some v.
Proof. apply find_view_in. Qed.

Lemma locs_allTrees d :
  locs (allTrees d) = locs (document d) ++ locs (orphans d).
Proof. unfold allTrees, locs. apply locs_in_app. Qed.

Lemma wf_parts d :
  wf d ->
  wf_forest (document d) /\ wf_forest (orphans d)
  /\ forall i, In i (map vid (locs (document d))) ->
               In i (map vid (locs (orphans d))) -> False.
Proof.
  unfold wf, wf_forest. rewrite locs_allTrees, map_app. intros H.
  split; [eapply NoDup_app_remove_r; eassumption |].
  split; [eapply NoDup_app_remove_l; eassumption |].
  intros i H1 H2. revert H H1 H2.
  generalize (map vid (locs (document d))) as l1.
  generalize (map vid (locs (orphans d))) as l2.
  induction l1 as [|x l1 IH]; intros Hnd H1 H2; [contradiction |].
  simpl in Hnd. inversion Hnd as [|? ? Hx Hnd']; subst.
  destruct H1 as [-> | H1]; [| now apply IH].
  apply Hx. apply in_or_app. now right.
Qed.

Lemma NoDup_app_intro (A : Type) (l1 l2 : list A) :
  NoDup l1 -> NoDup l2 -> (forall x, In x l1 -> In x l2 -> False) ->
  NoDup (l1 ++ l2).
Proof.
  induction l1 as [|x l1 IH]; intros H1 H2 Hd; [assumption |].
  inversion H1 as [|? ? Hx H1']; subst. simpl. constructor.
  - intros Hin. apply in_app_or in Hin. destruct Hin as [Hin | Hin];
      [contradiction | apply (Hd x); [now left | assumption]].
  - apply IH; auto. intros y Hy. apply Hd. now right.
Qed.

Lemma find_app (A : Type) (p : A -> bool) (l1 l2 : list A) :
  find p (l1 ++ l2)
  = match find p l1 with Some x => Some x | None => find p l2 end.
Proof.
  induction l1 as [|x l1 IH]; [reflexivity |]. simpl.
  destruct (p x); [reflexivity | exact IH].
Qed.

Lemma locate_document i d v :
  locate_in i (document d) = Some v -> locate i d = Some v.
Proof.
  unfold locate, locate_in. rewrite locs_allTrees, find_app. now intros ->.
Qed.

Lemma locate_orphans i d :
  locate_in i (document d) = None ->
  locate i d = locate_in i (orphans d).
Proof.
  unfold locate, locate_in. rewrite locs_allTrees, find_app. now intros ->.
Qed.

(* --------------------------------------------------------------------- *)
(** *** Pruning *)

Lemma clear_app P l1 l2 : clear P (l1 ++ l2) = clear P l1 && clear P l2.
Proof. unfold clear. apply forallb_app. Qed.

Lemma filter_none (A : Type) (p : A -> bool) (l : list A) :
  (forall x, In x l -> p x = false) -> filter p l = [].
Proof.
  induction l as [|x l IH]; intros H; [reflexivity |]. simpl.
  rewrite (H x (or_introl eq_refl)). apply IH. intros y Hy. apply H. now right.
Qed.

Lemma filter_all (A : Type) (p : A -> bool) (l : list A) :
  (forall x, In x l -> p x = true) -> filter p l = l.
Proof.
  induction l as [|x l IH]; intros H; [reflexivity |]. simpl.
  rewrite (H x (or_introl eq_refl)). f_equal. apply IH.
  intros y Hy. apply H. now right.
Qed.

Lemma none_alive P anc f :
  clear P anc = false -> filter (alive P) (locs_in anc f) = [].
Proof.
  intros Hc. apply filter_none. intros v Hv.
  destruct (above_ends _ _ _ Hv) as [rel Hrel].
  unfold alive. rewrite Hrel, clear_app, Hc.
  now rewrite andb_false_r, andb_false_r.
Qed.

(** The views of a pruned forest are the surviving views, pruned. *)
Lemma locs_prune P f : forall anc,
  clear P anc = true ->
  locs_in anc (prune P f) = map (vprune P) (filter (alive P) (locs_in anc f)).
Proof.
  induction f as [|s f IH|e ks f IHk IHf] using forest_ind; intros anc Hc.
  - reflexivity.
  - rewrite prune_text, !locs_in_text. now apply IH.
  - rewrite prune_elem, locs_in_elem. simpl filter.
    unfold alive at 1, vid at 1. simpl self. simpl above. rewrite Hc, andb_true_r.
    destruct (P (eid e)) eqn:HP; simpl negb; cbv iota.
    + rewrite filter_app, none_alive, app_nil_l; [now apply IHf |].
      simpl. now rewrite HP.
    + rewrite locs_in_elem, filter_app, map_cons, map_app.
      rewrite IHk, IHf; [reflexivity | assumption |].
      simpl. now rewrite HP.
Qed.

Lemma prune_id P f : forall anc,
  (forall v, In v (locs_in anc f) -> P (vid v) = false) -> prune P f = f.
Proof.
  induction f as [|s f IH|e ks f IHk IHf] using forest_ind; intros anc H.
  - reflexivity.
  - rewrite prune_text. f_equal. apply (IH anc). exact H.
  - rewrite prune_elem. rewrite locs_in_elem in H.
    assert (He : P (eid e) = false) by (apply (H (mkView e ks anc)); now left).
    rewrite He, (IHk (e :: anc)), (IHf anc); [reflexivity | |].
    + intros v Hv. apply H. right. apply in_or_app. now right.
    + intros v Hv. apply H. right. apply in_or_app. now left.
Qed.

Lemma prune_id_ids P f :
  (forall i, In i (map vid (locs f)) -> P i = false) -> prune P f = f.
Proof.
  intros H. apply (prune_id P f []). intros v Hv. apply H. now apply in_map.
Qed.

Lemma keeps_prune_node P Q n : keeps P (prune_node Q n) = keeps P n.
Proof. destruct n; reflexivity. Qed.

(** Pruning twice is pruning by both predicates. *)
Lemma prune_prune P Q f :
  prune P (prune Q f) = prune (fun i => Q i || P i) f.
Proof.
  induction f as [|s f IH|e ks f IHk IHf] using forest_ind.
  - reflexivity.
  - rewrite !prune_text. now rewrite IH.
  - rewrite !(prune_elem _ e). destruct (Q (eid e)); simpl orb; cbv iota.
    + exact IHf.
    + rewrite prune_elem. destruct (P (eid e)); [exact IHf |].
      now rewrite IHk, IHf.
Qed.

Lemma prune_ext P Q f :
  (forall i, P i = Q i) -> prune P f = prune Q f.
Proof.
  intros H. induction f as [|s f IH|e ks f IHk IHf] using forest_ind.
  - reflexivity.
  - rewrite !prune_text. now rewrite IH.
  - rewrite !(prune_elem _ e), H, IHk, IHf. reflexivity.
Qed.

Lemma ids_prune P f :
  map vid (locs (prune P f)) = map vid (filter (alive P) (locs f)).
Proof.
  unfold locs. rewrite locs_prune by reflexivity.
  rewrite map_map. reflexivity.
Qed.

Lemma NoDup_map_filter (A B : Type) (g : A -> B) (p : A -> bool) l :
  NoDup (map g l) -> NoDup (map g (filter p l)).
Proof.
  induction l as [|x l IH]; intros H; [constructor |].
  simpl in *. inversion H as [|? ? Hx H']; subst.
  destruct (p x); [| now apply IH]. simpl. constructor; [| now apply IH].
  intros Hin. apply Hx. apply in_map_iff in Hin.
  destruct Hin as [y [Hy Hin]]. apply filter_In in Hin.
  rewrite <- Hy. apply in_map. tauto.
Qed.

Lemma wf_prune P f : wf_forest f -> wf_forest (prune P f).
Proof.
  unfold wf_forest. rewrite ids_prune. apply NoDup_map_filter.
Qed.

Lemma in_ids_prune P f i :
  In i (map vid (locs (prune P f))) -> In i (map vid (locs f)).
Proof.
  rewrite ids_prune. intros H. apply in_map_iff in H.
  destruct H as [v [<- Hv]]. apply filter_In in Hv. apply in_map. tauto.
Qed.

(* --------------------------------------------------------------------- *)
(** *** Removing a node *)

Lemma isElem_in_ids i f :
  existsb (isElem i) f = true -> In i (map vid (locs f)).
Proof.
  induction f as [|s f IH|e ks f _ IHf] using forest_ind; simpl.
  - discriminate.
  - exact IH.
  - intros H. apply orb_true_iff in H. destruct H as [H | H].
    + left. now apply Nat.eqb_eq in H.
    + right. unfold locs in *. rewrite map_app. apply in_or_app. right.
      now apply IHf.
Qed.

Lemma eqb_not_in (c : nat) (l : list nat) :
  ~ In c l -> forall i, In i l -> Nat.eqb c i = false.
Proof.
  intros H i Hi. apply Nat.eqb_neq. intros ->. contradiction.
Qed.

Lemma alive_eqb c v :
  alive (Nat.eqb c) v = true ->
  vid v <> c /\ ~ In c (map eid (above v)).
Proof.
  unfold alive, clear. intros H. apply andb_true_iff in H.
  destruct H as [H1 H2]. split.
  - apply negb_true_iff, Nat.eqb_neq in H1. congruence.
  - intros Hin. apply in_map_iff in Hin. destruct Hin as [a [Ha Hin]].
    rewrite forallb_forall in H2. specialize (H2 a Hin).
    apply negb_true_iff, Nat.eqb_neq in H2. congruence.
Qed.

(** Taking a subtree out of a forest and keeping it beside it leaves a
    well-formed forest. *)
Lemma wf_detach f c v :
  wf_forest f -> locate_in c f = Some v ->
  wf_forest (prune (Nat.eqb c) f ++ [viewNode v]).
Proof.
  intros Hwf Hloc. apply locate_in_some in Hloc. destruct Hloc as [Hv Hc].
  unfold wf_forest, locs. rewrite locs_in_app, map_app.
  apply NoDup_app_intro.
  - apply (wf_prune _ Hwf).
  - unfold viewNode. rewrite locs_in_elem, app_nil_r. simpl.
    rewrite (ids_anc (kids v) [self v] (self v :: above v)).
    destruct (locs_segment _ _ _ Hv) as [l1 [l2 Heq]].
    unfold wf_forest, locs in Hwf. rewrite Heq, map_app in Hwf.
    apply NoDup_app_remove_l in Hwf. simpl in Hwf. rewrite map_app in Hwf.
    change (vid v :: map vid (descendants v) ++ map vid l2)
      with ((vid v :: map vid (descendants v)) ++ map vid l2) in Hwf.
    apply NoDup_app_remove_r in Hwf. exact Hwf.
  - intros x H1 H2. fold (locs (prune (Nat.eqb c) f)) in H1.
    rewrite ids_prune in H1. apply in_map_iff in H1.
    destruct H1 as [w [Hx Hw]]. apply filter_In in Hw. destruct Hw as [Hw Hal].
    apply alive_eqb in Hal. destruct Hal as [Hne Hnin].
    unfold viewNode in H2. rewrite locs_in_elem, app_nil_r in H2. simpl in H2.
    destruct H2 as [H2 | H2]; [unfold vid in *; simpl in H2; congruence |].
    rewrite (ids_anc (kids v) [self v] (self v :: above v)) in H2.
    apply in_map_iff in H2. destruct H2 as [u [Hu Hin]].
    assert (Hu' : In u (locs f)) by exact (descendants_in _ _ v u Hv Hin).
    assert (w = u) by (apply (view_unique (locs f)); auto; congruence).
    subst w. destruct (descendant_above _ _ Hin) as [rel Hrel].
    apply Hnin. rewrite Hrel, map_app. apply in_or_app. right. left.
    exact Hc.
Qed.

Lemma remove_document c d :
  wf d -> document (remove c d) = prune (Nat.eqb c) (document d).
Proof.
  intros Hwf. destruct (wf_parts Hwf) as [_ [_ Hdis]].
  unfold remove. destruct (locate c d) as [v|] eqn:Hloc.
  - destruct (existsb (isElem c) (orphans d)) eqn:Htop; [| reflexivity].
    symmetry. apply prune_id_ids. apply eqb_not_in. intros Hin.
    apply (Hdis c Hin). now apply isElem_in_ids.
  - symmetry. apply prune_id_ids. apply eqb_not_in. intros Hin.
    apply find_view_none in Hloc. apply Hloc.
    rewrite locs_allTrees, map_app. apply in_or_app. now left.
Qed.

Lemma remove_wf c d : wf d -> wf (remove c d).
Proof.
  intros Hwf. unfold remove. destruct (locate c d) as [v|] eqn:Hloc; [| exact Hwf].
  destruct (existsb (isElem c) (orphans d)); [exact Hwf |].
  unfold wf, allTrees. simpl. rewrite app_assoc, <- prune_app.
  apply wf_detach; assumption.
Qed.

(** Removing a node that is not in the document leaves the document. *)
Lemma remove_outside c d :
  wf d -> ~ In c (map vid (locs (document d))) ->
  document (remove c d) = document d.
Proof.
  intros Hwf Hnin. rewrite remove_document by assumption.
  apply prune_id_ids. now apply eqb_not_in.
Qed.

(* --------------------------------------------------------------------- *)
(** *** The script's tests, read off views *)

Lemma hd_error_filter (A B : Type) (g : A -> B) (p : A -> bool) (l : list A) :
  match hd_error (map g (filter p l)) with Some _ => true | None => false end
  = existsb p l.
Proof.
  induction l as [|x l IH]; [reflexivity |]. simpl.
  destruct (p x); [reflexivity | exact IH].
Qed.

Section Tests.

Variable nfc : jsstring -> jsstring.
Variable blocked : list jsstring.

Lemma isTargetSpan_view d s v :
  locate s d = Some v -> isTargetSpan nfc blocked d s = targetView nfc blocked v.
Proof. unfold isTargetSpan. now intros ->. Qed.

Lemma chordContainerFor_view d s v :
  locate s d = Some v -> chordContainerFor d s = containerOf v.
Proof. unfold chordContainerFor, closest. now intros ->. Qed.

Lemma isChordBlock_view d c v :
  locate c d = Some v -> isChordBlock d c = guardView v.
Proof.
  unfold isChordBlock, querySelector, querySelectorAll, guardView.
  intros ->. apply hd_error_filter.
Qed.

Lemma isChordBlock_none d c : locate c d = None -> isChordBlock d c = false.
Proof.
  unfold isChordBlock, querySelector, querySelectorAll. now intros ->.
Qed.

End Tests.

Lemma closestFrom_position s : forall anc e c,
  closestFrom s e anc = Some c ->
  exists pre ec post, e :: anc = pre ++ ec :: post /\ eid ec = c
                      /\ matchesSel s ec post = true.
Proof.
  induction anc as [|a anc IH]; intros e c H; simpl in H.
  - destruct (matchesSel s e []) eqn:Hm; [| discriminate].
    injection H as <-. exists [], e, []. auto.
  - destruct (matchesSel s e (a :: anc)) eqn:Hm.
    + injection H as <-. exists [], e, (a :: anc). auto.
    + destruct (IH _ _ H) as [pre [ec [post [Heq [Hc Hmm]]]]].
      exists (e :: pre), ec, post. rewrite Heq. auto.
Qed.

Lemma containerOf_position v c :
  containerOf v = Some c ->
  exists pre ec post, self v :: above v = pre ++ ec :: post /\ eid ec = c.
Proof.
  unfold containerOf. intros H.
  destruct (closestFrom blockSel (self v) (above v)) as [c'|] eqn:E.
  - injection H as <-.
    destruct (closestFrom_position _ _ _ E) as [pre [ec [post [H1 [H2 _]]]]].
    eauto.
  - destruct (closestFrom_position _ _ _ H) as [pre [ec [post [H1 [H2 _]]]]].
    eauto.
Qed.

(** An element of the inclusive ancestor chain of a view has a view of its
    own; the view is that one or lies below it, together with the part of
    the chain before it. *)
Lemma chain_view f v pre ec post :
  In v (locs f) -> self v :: above v = pre ++ ec :: post ->
  exists kc,
    In (mkView ec kc post) (locs f)
    /\ ((pre = [] /\ mkView ec kc post = v)
        \/ (In v (descendants (mkView ec kc post))
            /\ Forall (fun a => In a (map self (descendants (mkView ec kc post))))
                      pre)).
Proof.
  intros Hv Hch. destruct pre as [|x pre]; simpl in Hch.
  - injection Hch as <- <-. exists (kids v). destruct v; simpl. auto.
  - injection Hch as <- Hab.
    destruct (ancestor_view f [] v pre ec post Hv) as [kc [Hc Hd]].
    { now rewrite app_nil_r. }
    rewrite app_nil_r in *. exists kc. split; [exact Hc |]. right.
    split; [exact Hd |]. constructor; [now apply in_map |].
    destruct (above_in_forest _ _ _ Hd) as [rel [Hrel Hall]].
    simpl in Hrel. rewrite Hab in Hrel.
    assert (rel = pre).
    { apply (app_inv_tail (ec :: post)). now symmetry. }
    subst rel. exact Hall.
Qed.

(* --------------------------------------------------------------------- *)
(** *** Document order *)

Lemma split_unique (A B : Type) (g : A -> B) (x : A) :
  forall l1 l2 l1' l2',
  NoDup (map g (l1 ++ x :: l2)) ->
  l1 ++ x :: l2 = l1' ++ x :: l2' -> l1 = l1' /\ l2 = l2'.
Proof.
  induction l1 as [|a l1 IH]; intros l2 l1' l2' Hnd Heq.
  - destruct l1' as [|b l1']; simpl in Heq.
    + injection Heq as ->. auto.
    + injection Heq as <- ->. simpl in Hnd. inversion Hnd as [|? ? Hx _]; subst.
      exfalso. apply Hx. rewrite map_app. apply in_or_app. right. now left.
  - destruct l1' as [|b l1']; simpl in Heq.
    + injection Heq as -> <-. simpl in Hnd. inversion Hnd as [|? ? Hx _]; subst.
      exfalso. apply Hx. rewrite map_app. apply in_or_app. right. now left.
    + injection Heq as <- Heq. simpl in Hnd. inversion Hnd as [|? ? _ Hnd']; subst.
      destruct (IH _ _ _ Hnd' Heq) as [-> ->]. auto.
Qed.

Lemma NoDup_map_app_disjoint (A B : Type) (g : A -> B) (l1 l2 : list A) u :
  NoDup (map g (l1 ++ l2)) -> In u l1 -> In u l2 -> False.
Proof.
  induction l1 as [|a l1 IH]; intros Hnd H1 H2; [contradiction |].
  simpl in Hnd. inversion Hnd as [|? ? Hx Hnd']; subst.
  destruct H1 as [-> | H1]; [| now apply IH].
  apply Hx. apply in_map. apply in_or_app. now right.
Qed.

(** A view that comes before [v] in document order is not below [v]. *)
Lemma before_not_below f pre v rest u :
  wf_forest f -> locs f = pre ++ v :: rest ->
  In u pre -> In u (descendants v) -> False.
Proof.
  intros Hwf Heq Hpre Hdesc. unfold wf_forest in Hwf.
  assert (Hv : In v (locs f)).
  { rewrite Heq. apply in_or_app. right. now left. }
  destruct (locs_segment _ _ _ Hv) as [l1 [l2 Hseg]].
  fold (locs f) in Hseg. rewrite Heq in Hwf, Hseg.
  destruct (split_unique vid v pre rest l1 _ Hwf Hseg) as [-> ->].
  apply (NoDup_map_app_disjoint vid l1 _ u Hwf Hpre).
  right. apply in_or_app. now left.
Qed.

(* --------------------------------------------------------------------- *)
(** *** Tests on a pruned document *)

Lemma alive_chain P v : alive P v = clear P (self v :: above v).
Proof. reflexivity. Qed.

Lemma clear_sub P pre ec post :
  clear P (pre ++ ec :: post) = true -> clear P (ec :: post) = true.
Proof. rewrite clear_app. intros H. apply andb_true_iff in H. tauto. Qed.

Lemma existsb_map (A B : Type) (p : B -> bool) (g : A -> B) (l : list A) :
  existsb p (map g l) = existsb (fun x => p (g x)) l.
Proof.
  induction l as [|x l IH]; [reflexivity |]. simpl. now rewrite IH.
Qed.

Lemma existsb_filter_le (A : Type) (p q : A -> bool) (l : list A) :
  existsb p (filter q l) = true -> existsb p l = true.
Proof.
  rewrite !existsb_exists. intros [x [Hin Hp]]. apply filter_In in Hin.
  exists x. tauto.
Qed.

(** A surviving view is found, pruned, in the pruned document. *)
Lemma located_alive P d doc0 v :
  wf d -> document d = prune P doc0 ->
  In v (locs doc0) -> alive P v = true ->
  locate (vid v) d = Some (vprune P v).
Proof.
  intros Hwf Hdoc Hv Hal.
  change (vid v) with (vid (vprune P v)). apply locate_found; [assumption |].
  rewrite locs_allTrees, Hdoc. apply in_or_app. left.
  unfold locs. rewrite locs_prune by reflexivity.
  apply in_map. apply filter_In. auto.
Qed.

Lemma dead_absent P doc0 v :
  wf_forest doc0 -> In v (locs doc0) -> alive P v = false ->
  ~ In (vid v) (map vid (locs (prune P doc0))).
Proof.
  intros Hwf Hv Hdead Hin. rewrite ids_prune in Hin.
  apply in_map_iff in Hin. destruct Hin as [w [Hid Hw]].
  apply filter_In in Hw. destruct Hw as [Hw Hal].
  assert (w = v) by (apply (view_unique (locs doc0)); auto).
  subst w. congruence.
Qed.

Lemma guard_pruned P v :
  alive P v = true ->
  guardView (vprune P v)
  = existsb (matchesView diagramSel) (filter (alive P) (descendants v)).
Proof.
  intros Hal. unfold guardView, descendants. simpl.
  rewrite locs_prune by exact Hal. now rewrite existsb_map.
Qed.

(** When nothing below a surviving view is pruned, its descendants all
    survive. *)
Lemma descendants_alive P v :
  alive P v = true ->
  (forall w, In w (descendants v) -> P (vid w) = false) ->
  filter (alive P) (descendants v) = descendants v.
Proof.
  intros Hal Hnone. apply filter_all. intros w Hw.
  destruct (above_in_forest _ _ _ Hw) as [rel [Hrel Hall]].
  unfold alive. rewrite (Hnone w Hw). simpl. rewrite Hrel, clear_app.
  apply andb_true_iff. split; [| exact Hal].
  unfold clear. apply forallb_forall. intros a Ha.
  rewrite Forall_forall in Hall. specialize (Hall a Ha).
  apply in_map_iff in Hall. destruct Hall as [w' [<- Hw']].
  apply negb_true_iff. exact (Hnone w' Hw').
Qed.

Lemma kids_unpruned P v :
  (forall w, In w (descendants v) -> P (vid w) = false) ->
  prune P (kids v) = kids v.
Proof. intros H. apply (prune_id P (kids v) (self v :: above v)). exact H. Qed.

Lemma inList_app l1 l2 i : inList (l1 ++ l2) i = inList l1 i || inList l2 i.
Proof. unfold inList. apply existsb_app. Qed.

Lemma prune_more R c f :
  prune (Nat.eqb c) (prune (inList R) f) = prune (inList (R ++ [c])) f.
Proof.
  rewrite prune_prune. apply prune_ext. intros i.
  rewrite inList_app. unfold inList at 3. simpl.
  now rewrite orb_false_r, (Nat.eqb_sym c i).
Qed.

(* --------------------------------------------------------------------- *)
(** *** One step of purge *)

Lemma flat_map_map_filter (A B C : Type) (f : B -> list C) (g : A -> B)
  (p : A -> bool) (l : list A) :
  flat_map f (map g (filter p l))
  = flat_map (fun x => if p x then f (g x) else []) l.
Proof.
  induction l as [|x l IH]; [reflexivity |]. simpl.
  destruct (p x); simpl; now rewrite IH.
Qed.

Lemma container_view f v c :
  In v (locs f) -> containerOf v = Some c ->
  exists pre ec post kc,
    self v :: above v = pre ++ ec :: post /\ eid ec = c
    /\ In (mkView ec kc post) (locs f)
    /\ ((pre = [] /\ mkView ec kc post = v)
        \/ (In v (descendants (mkView ec kc post))
            /\ Forall (fun a => In a (map self (descendants (mkView ec kc post))))
                      pre)).
Proof.
  intros Hv Hc. destruct (containerOf_position _ Hc) as [pre [ec [post [Hch He]]]].
  destruct (chain_view f v pre ec post Hv Hch) as [kc [H1 H2]].
  exists pre, ec, post, kc. auto.
Qed.

Section PurgeStep.

Variable nfc : jsstring -> jsstring.
Variable blocked : list jsstring.

Lemma purgeSpan_wf d s : wf d -> wf (purgeSpan nfc blocked d s).
Proof.
  intros Hwf. unfold purgeSpan.
  destruct (isTargetSpan nfc blocked d s); [| assumption].
  destruct (chordContainerFor d s); [| assumption].
  destruct (isChordBlock d n); [| assumption].
  now apply remove_wf.
Qed.

(** A span outside the document has its container outside the document:
    processing it leaves the document as it is. *)
Lemma purgeSpan_outside d s :
  wf d -> ~ In s (map vid (locs (document d))) ->
  document (purgeSpan nfc blocked d s) = document d.
Proof.
  intros Hwf Hout. unfold purgeSpan.
  destruct (isTargetSpan nfc blocked d s) eqn:Ht; [| reflexivity].
  destruct (chordContainerFor d s) as [c|] eqn:Hc; [| reflexivity].
  destruct (isChordBlock d c); [| reflexivity].
  apply remove_outside; [assumption |]. intros Hin.
  unfold isTargetSpan in Ht. destruct (locate s d) as [v|] eqn:Hloc; [| discriminate].
  rewrite (chordContainerFor_view _ _ Hloc) in Hc.
  apply locate_some in Hloc. destruct Hloc as [Hv Hs].
  rewrite locs_allTrees in Hv. apply in_app_or in Hv. destruct Hv as [Hv | Hv].
  - apply Hout. rewrite <- Hs. now apply in_map.
  - destruct (container_view _ _ Hv Hc)
      as [pre [ec [post [kc [_ [He [Hvc _]]]]]]].
    destruct (wf_parts Hwf) as [_ [_ Hdis]]. apply (Hdis c Hin).
    rewrite <- He. apply (in_map vid) in Hvc. exact Hvc.
Qed.

Lemma purge_wf l : forall d, wf d -> wf (fold_left (purgeSpan nfc blocked) l d).
Proof.
  induction l as [|s l IH]; intros d Hwf; [assumption |].
  simpl. apply IH. now apply purgeSpan_wf.
Qed.

Lemma candidate_spec d s c :
  In c (candidate nfc blocked d s) ->
  isTargetSpan nfc blocked d s = true
  /\ chordContainerFor d s = Some c /\ isChordBlock d c = true.
Proof.
  unfold candidate. destruct (isTargetSpan nfc blocked d s); [| contradiction].
  destruct (chordContainerFor d s) as [c'|]; [| contradiction].
  destruct (isChordBlock d c') eqn:Hg; [| contradiction].
  intros [-> | []]. auto.
Qed.

Lemma designated_in d L c :
  In c (designated nfc blocked d L) ->
  exists u, In u L /\ matchesView spanSel u = true
            /\ In c (candidate nfc blocked d (vid u)).
Proof.
  unfold designated. intros H. apply in_flat_map in H.
  destruct H as [u [Hu Hc]]. exists u.
  destruct (matchesView spanSel u); [auto | contradiction].
Qed.

Lemma removable_designated d :
  removable nfc blocked d = designated nfc blocked d (locs (document d)).
Proof. unfold removable, designated. simpl. apply flat_map_map_filter. Qed.

Lemma designated_cons d v L :
  designated nfc blocked d (v :: L)
  = (if matchesView spanSel v then candidate nfc blocked d (vid v) else [])
    ++ designated nfc blocked d L.
Proof. reflexivity. Qed.

Lemma designated_app d L1 L2 :
  designated nfc blocked d (L1 ++ L2)
  = designated nfc blocked d L1 ++ designated nfc blocked d L2.
Proof. unfold designated. apply flat_map_app. Qed.

End PurgeStep.

Lemma clear_false P l :
  clear P l = false -> exists a, In a l /\ P (eid a) = true.
Proof.
  induction l as [|x l IH]; simpl; [discriminate |].
  destruct (P (eid x)) eqn:Hx; simpl.
  - intros _. exists x. auto.
  - intros H. destruct (IH H) as [a [Ha HP]]. exists a. auto.
Qed.

Section PurgeRun.

Variable nfc : jsstring -> jsstring.
Variable blocked : list jsstring.
Variable d0 : dom.
Hypothesis Hwf0 : wf d0.
Hypothesis Hapart : containersApart nfc blocked d0.

Lemma doc_located v :
  In v (locs (document d0)) -> locate (vid v) d0 = Some v.
Proof.
  intros Hv. apply locate_found; [assumption |].
  rewrite locs_allTrees. apply in_or_app. now left.
Qed.

Lemma candidate_view v :
  In v (locs (document d0)) ->
  candidate nfc blocked d0 (vid v)
  = if targetView nfc blocked v then
      match containerOf v with
      | Some c => if isChordBlock d0 c then [c] else []
      | None => []
      end
    else [].
Proof.
  intros Hv. unfold candidate.
  now rewrite (isTargetSpan_view nfc blocked _ _ (doc_located _ Hv)),
              (chordContainerFor_view _ _ (doc_located _ Hv)).
Qed.

(** What the first [pre] views designated was removed; processing the
    next span removes what it designates. *)
Lemma purge_step pre v rest d :
  locs (document d0) = pre ++ v :: rest ->
  matchesView spanSel v = true ->
  wf d ->
  document d = prune (inList (designated nfc blocked d0 pre)) (document d0) ->
  document (purgeSpan nfc blocked d (vid v))
  = prune (inList (designated nfc blocked d0 pre
                   ++ candidate nfc blocked d0 (vid v))) (document d0).
Proof.
  intros Heq Hm Hwf Hdoc.
  set (R := designated nfc blocked d0 pre) in *.
  set (P := inList R) in *.
  assert (Hv : In v (locs (document d0))).
  { rewrite Heq. apply in_or_app. right. now left. }
  assert (Hwfd : wf_forest (document d0)) by apply (wf_parts Hwf0).
  assert (HR : forall c, In c R -> In c (removable nfc blocked d0)).
  { intros c Hc. rewrite removable_designated, Heq, designated_app.
    apply in_or_app. now left. }
  assert (Hpre : forall u, In u pre -> In u (locs (document d0))).
  { intros u Hu. rewrite Heq. apply in_or_app. now left. }
  rewrite (candidate_view _ Hv).
  destruct (alive P v) eqn:Hal.
  - (* the span is still in the document *)
    assert (Hlocd : locate (vid v) d = Some (vprune P v))
      by (eapply located_alive; eassumption).
    assert (Hkids : prune P (kids v) = kids v).
    { apply kids_unpruned. intros w Hw.
      destruct (P (vid w)) eqn:HPw; [exfalso | reflexivity].
      apply inList_In in HPw.
      destruct (designated_in _ _ _ _ _ HPw) as [u [Hu [_ Hcand]]].
      rewrite (candidate_view _ (Hpre u Hu)) in Hcand.
      destruct (targetView nfc blocked u); [| contradiction].
      destruct (containerOf u) as [c|] eqn:Hc; [| contradiction].
      destruct (isChordBlock d0 c); [| contradiction].
      destruct Hcand as [-> | []].
      destruct (container_view _ _ (Hpre u Hu) Hc)
        as [pre' [ec [post [kc [_ [He [Hvc Hcase]]]]]]].
      assert (Hw0 : In w (locs (document d0)))
        by exact (descendants_in _ _ v w Hv Hw).
      assert (Hsame : mkView ec kc post = w)
        by (apply (view_unique (locs (document d0))); auto).
      rewrite Hsame in Hcase.
      destruct Hcase as [[_ ->] | [Hd _]].
      - exact (before_not_below _ _ _ _ Hwfd Heq Hu Hw).
      - apply (before_not_below _ _ _ _ Hwfd Heq Hu).
        exact (descendants_trans _ _ _ Hw Hd). }
    unfold purgeSpan.
    rewrite (isTargetSpan_view nfc blocked _ _ Hlocd),
            (chordContainerFor_view _ _ Hlocd).
    replace (targetView nfc blocked (vprune P v))
      with (targetView nfc blocked v)
      by (unfold targetView; simpl; now rewrite Hkids).
    change (containerOf (vprune P v)) with (containerOf v).
    destruct (targetView nfc blocked v) eqn:Ht;
      [| now rewrite app_nil_r].
    destruct (containerOf v) as [c|] eqn:Hc; [| now rewrite app_nil_r].
    destruct (container_view _ _ Hv Hc)
      as [pre' [ec [post [kc [Hch [He [Hvc _]]]]]]].
    set (vc := mkView ec kc post) in *.
    assert (Halc : alive P vc = true).
    { rewrite alive_chain. simpl. rewrite alive_chain, Hch in Hal.
      exact (clear_sub _ _ _ _ Hal). }
    assert (Hidc : vid vc = c) by exact He.
    assert (Hlocc0 : locate c d0 = Some vc)
      by (rewrite <- Hidc; now apply doc_located).
    assert (Hloccd : locate c d = Some (vprune P vc))
      by (rewrite <- Hidc; eapply located_alive; eassumption).
    rewrite (isChordBlock_view _ _ Hloccd), (isChordBlock_view _ _ Hlocc0).
    rewrite (guard_pruned _ _ Halc).
    destruct (guardView vc) eqn:Hg.
    + assert (Hcrem : In c (removable nfc blocked d0)).
      { rewrite removable_designated, Heq, designated_app.
        apply in_or_app. right. rewrite designated_cons, Hm.
        apply in_or_app. left. rewrite (candidate_view _ Hv), Ht, Hc.
        rewrite (isChordBlock_view _ _ Hlocc0), Hg. now left. }
      rewrite descendants_alive; [| exact Halc |].
      * unfold guardView in Hg. rewrite Hg.
        rewrite remove_document by assumption. rewrite Hdoc.
        apply prune_more.
      * intros w Hw. destruct (P (vid w)) eqn:HPw; [exfalso | reflexivity].
        apply inList_In in HPw. apply HR in HPw.
        apply (Hapart vc w Hvc); [now rewrite Hidc | exact Hw | exact HPw].
    + destruct (existsb (matchesView diagramSel)
                  (filter (alive P) (descendants vc))) eqn:E.
      * apply existsb_filter_le in E. unfold guardView in Hg. congruence.
      * now rewrite app_nil_r.
  - (* the span left the document with an earlier container *)
    rewrite purgeSpan_outside; [| assumption |].
    2:{ rewrite Hdoc. now apply dead_absent. }
    rewrite Hdoc.
    destruct (targetView nfc blocked v) eqn:Ht; [| now rewrite app_nil_r].
    destruct (containerOf v) as [c|] eqn:Hc; [| now rewrite app_nil_r].
    destruct (isChordBlock d0 c) eqn:Hg; [| now rewrite app_nil_r].
    rewrite <- prune_more. symmetry. apply prune_id_ids. apply eqb_not_in.
    intros Hin. fold P in Hin. rewrite ids_prune in Hin.
    apply in_map_iff in Hin. destruct Hin as [w [Hid Hw]].
    apply filter_In in Hw. destruct Hw as [Hw Halw].
    destruct (container_view _ _ Hv Hc)
      as [pre' [ec [post [kc [Hch [He [Hvc Hcase]]]]]]].
    assert (Hsame : mkView ec kc post = w)
      by (apply (view_unique (locs (document d0))); auto;
          unfold vid in *; simpl; congruence).
    rewrite Hsame in *.
    assert (Hcrem : In c (removable nfc blocked d0)).
    { rewrite removable_designated, Heq, designated_app.
      apply in_or_app. right. rewrite designated_cons, Hm.
      apply in_or_app. left. rewrite (candidate_view _ Hv), Ht, Hc, Hg.
      now left. }
    rewrite alive_chain, Hch, clear_app in Hal.
    assert (Hpost : clear P (ec :: post) = true).
    { rewrite <- Hsame in Halw. exact Halw. }
    rewrite Hpost, andb_true_r in Hal.
    destruct (clear_false _ _ Hal) as [a [Ha HPa]].
    destruct Hcase as [[-> _] | [_ Hall]]; [contradiction |].
    rewrite Forall_forall in Hall. specialize (Hall a Ha).
    apply in_map_iff in Hall. destruct Hall as [w' [<- Hw']].
    apply inList_In in HPa. apply HR in HPa.
    apply (Hapart w w' Hw); [now rewrite Hid | exact Hw' | exact HPa].
Qed.

Lemma purge_run : forall rest pre d,
  locs (document d0) = pre ++ rest ->
  wf d ->
  document d = prune (inList (designated nfc blocked d0 pre)) (document d0) ->
  document (fold_left (purgeSpan nfc blocked)
              (map vid (filter (matchesView spanSel) rest)) d)
  = prune (inList (designated nfc blocked d0 (pre ++ rest))) (document d0).
Proof.
  induction rest as [|v rest IH]; intros pre d Heq Hwf Hdoc.
  - simpl. now rewrite app_nil_r.
  - assert (Heq' : locs (document d0) = (pre ++ [v]) ++ rest)
      by (rewrite Heq; now reassoc).
    replace (pre ++ v :: rest) with ((pre ++ [v]) ++ rest) by now reassoc.
    cbn [filter]. destruct (matchesView spanSel v) eqn:Hm.
    + cbn [map fold_left]. apply IH; [exact Heq' | now apply purgeSpan_wf |].
      rewrite (purge_step _ _ _ Heq Hm Hwf Hdoc).
      rewrite designated_app, designated_cons, Hm. unfold designated at 3.
      simpl. now rewrite app_nil_r.
    + apply IH; [exact Heq' | exact Hwf |].
      rewrite Hdoc, designated_app, designated_cons, Hm. unfold designated at 3.
      simpl. now rewrite app_nil_r.
Qed.

End PurgeRun.

(* ===================================================================== *)
(** ** purge removes the designated containers *)
(* ===================================================================== *)

Lemma nodupb_sound l : nodupb l = true -> NoDup l.
Proof.
  induction l as [|x l IH]; simpl; intros H; constructor.
  - apply andb_true_iff in H. destruct H as [H _].
    apply negb_true_iff in H. intros Hin. apply inList_In in Hin. congruence.
  - apply IH. apply andb_true_iff in H. tauto.
Qed.

Lemma wfb_sound d : wfb d = true -> wf d.
Proof. apply nodupb_sound. Qed.

Lemma containersApartb_sound nfc blocked d :
  containersApartb nfc blocked d = true -> containersApart nfc blocked d.
Proof.
  unfold containersApartb, containersApart. intros H v w Hv Hrem Hw Hw'.
  rewrite forallb_forall in H. specialize (H v Hv).
  apply inList_In in Hrem. rewrite Hrem in H. simpl in H.
  rewrite forallb_forall in H. specialize (H w Hw).
  apply inList_In in Hw'. rewrite Hw' in H. discriminate.
Qed.

Lemma matchesAbove_nil anc : matchesAbove [] anc = true.
Proof. destruct anc; reflexivity. Qed.

(** A selector that is one compound looks at the element alone. *)
Lemma matches_simple c v :
  matchesView [[c]] v = matchesCompound c (self v).
Proof.
  unfold matchesView, matchesSel. simpl.
  now rewrite matchesAbove_nil, andb_true_r, orb_false_r.
Qed.

Lemma spanSel_class v :
  matchesView spanSel v = true -> hasClass cbg1qdk (self v) = true.
Proof.
  unfold spanSel. rewrite matches_simple. unfold matchesCompound. simpl.
  rewrite !andb_true_r. intros H. apply andb_true_iff in H. tauto.
Qed.

Lemma removable_designates nfc blocked d c :
  wf d -> In c (removable nfc blocked d) <-> designates nfc blocked d c.
Proof.
  intros Hwf. rewrite removable_designated. split.
  - intros H. destruct (designated_in _ _ _ _ _ H) as [u [Hu [Hm Hcand]]].
    rewrite (candidate_view nfc blocked Hwf _ Hu) in Hcand.
    destruct (targetView nfc blocked u) eqn:Ht; [| contradiction].
    destruct (containerOf u) as [c'|] eqn:Hc; [| contradiction].
    destruct (isChordBlock d c') eqn:Hg; [| contradiction].
    destruct Hcand as [-> | []].
    destruct (container_view _ _ Hu Hc) as [pre [ec [post [kc [_ [He [Hvc _]]]]]]].
    exists u, (mkView ec kc post).
    unfold targetView in Ht. apply andb_true_iff in Ht. destruct Ht as [_ Ht].
    apply str_mem_In in Ht.
    repeat split; auto.
    rewrite <- He in Hg.
    change (eid ec) with (vid (mkView ec kc post)) in Hg.
    now rewrite (isChordBlock_view _ _ (doc_located Hwf _ Hvc)) in Hg.
  - intros [v [vc [Hv [Hm [Hin [Hc [Hvc [Hid Hg]]]]]]]].
    unfold designated. apply in_flat_map. exists v. split; [assumption |].
    rewrite Hm, (candidate_view nfc blocked Hwf _ Hv).
    unfold targetView. rewrite (spanSel_class _ Hm). simpl.
    apply str_mem_In in Hin. unfold normalize. rewrite Hin, Hc.
    rewrite <- Hid, (isChordBlock_view _ _ (doc_located Hwf _ Hvc)), Hg.
    now left.
Qed.

(** C1 (as amended): in a document where no designated container lies
    inside another one, purge removes exactly the containers designated
    by a blocked [span.cbg1qdk] (the nearest [div.deu1fhf], else the
    nearest [div], passing the chord-diagram guard) and leaves every other
    node of the document in place. *)
Theorem purge_removes_designated nfc blocked d :
  wf d -> containersApart nfc blocked d ->
  (forall c, In c (removable nfc blocked d) <-> designates nfc blocked d c)
  /\ document (purge nfc blocked Document d)
     = prune (inList (removable nfc blocked d)) (document d).
Proof.
  intros Hwf Hapart. split.
  - intros c. now apply removable_designates.
  - unfold purge. simpl querySelectorAll.
    rewrite removable_designated.
    apply (@purge_run nfc blocked d Hwf Hapart (locs (document d)) [] d);
      [reflexivity | assumption |].
    symmetry. now apply prune_id_ids.
Qed.

Lemma twoBlocks_wf : wf twoBlocks.
Proof. apply wfb_sound. vm_compute. reflexivity. Qed.

Lemma twoBlocks_apart : containersApart nfcOfNormal blockedChordsList twoBlocks.
Proof. apply containersApartb_sound. vm_compute. reflexivity. Qed.

Lemma purge_removes_designated_witness :
  wf twoBlocks /\ containersApart nfcOfNormal blockedChordsList twoBlocks
  /\ document (purge nfcOfNormal blockedChordsList Document twoBlocks)
     = prune (inList (removable nfcOfNormal blockedChordsList twoBlocks))
             (document twoBlocks).
Proof.
  split; [exact twoBlocks_wf |]. split; [exact twoBlocks_apart |].
  exact (proj2 (purge_removes_designated twoBlocks_wf twoBlocks_apart)).
Defined.

(** C1 as stated fails: with a chord block nested in another whose only
    diagram is the inner one, both containers are designated, but once the
    inner one is gone the outer one no longer passes the guard and stays. *)
Lemma purge_keeps_emptied_container :
  wf nestedContainers
  /\ removable nfcOfNormal blockedChordsList nestedContainers = [2; 1]
  /\ map vid (locs (document
                      (purge nfcOfNormal blockedChordsList Document
                             nestedContainers)))
     = [100; 101; 1; 6]
  /\ document (purge nfcOfNormal blockedChordsList Document nestedContainers)
     <> prune (inList (removable nfcOfNormal blockedChordsList nestedContainers))
              (document nestedContainers).
Proof.
  split; [apply wfb_sound; vm_compute; reflexivity |].
  split; [vm_compute; reflexivity |].
  split; [vm_compute; reflexivity |].
  vm_compute. discriminate.
Qed.

(* ===================================================================== *)
(** ** purge is idempotent when labels are not nested *)
(* ===================================================================== *)

Lemma alive_mono (P Q : nat -> bool) v :
  (forall i, P i = true -> Q i = true) ->
  alive Q v = true -> alive P v = true.
Proof.
  intros H. rewrite !alive_chain. unfold clear. rewrite !forallb_forall.
  intros HQ a Ha. specialize (HQ a Ha). apply negb_true_iff in HQ.
  apply negb_true_iff. destruct (P (eid a)) eqn:E; [| reflexivity].
  apply H in E. congruence.
Qed.

Lemma stillGuarded_mono (P Q : nat -> bool) doc0 c :
  (forall i, P i = true -> Q i = true) ->
  stillGuarded Q doc0 c = true -> stillGuarded P doc0 c = true.
Proof.
  intros H. unfold stillGuarded. destruct (locate_in c doc0) as [vc|]; [| auto].
  rewrite !existsb_exists. intros [w [Hw Hm]]. exists w. split; [| exact Hm].
  apply filter_In in Hw. apply filter_In. split; [tauto |].
  apply (alive_mono P Q); tauto.
Qed.

Lemma container_dead P v c :
  containerOf v = Some c -> P c = true -> alive P v = false.
Proof.
  intros Hc HP. destruct (containerOf_position _ Hc) as [pre [ec [post [Hch He]]]].
  rewrite alive_chain, Hch, clear_app. simpl. rewrite He, HP. simpl.
  apply andb_false_r.
Qed.

Lemma fold_inert (A B : Type) (step : A -> B -> A) (l : list B) (a : A) :
  (forall x, In x l -> step a x = a) -> fold_left step l a = a.
Proof.
  induction l as [|x l IH]; intros H; [reflexivity |]. simpl.
  rewrite (H x (or_introl eq_refl)). apply IH. intros y Hy. apply H. now right.
Qed.

Section Idempotence.

Variable nfc : jsstring -> jsstring.
Variable blocked : list jsstring.
Variable d0 : dom.
Hypothesis Hwf0 : wf d0.
Hypothesis Hspans : spansApart d0.

(** Nothing inside a label is the container of a label. *)
Lemma label_kids_unpruned R v :
  (forall c, In c R ->
     exists u, In u (locs (document d0)) /\ matchesView spanSel u = true
               /\ containerOf u = Some c) ->
  In v (locs (document d0)) -> matchesView spanSel v = true ->
  prune (inList R) (kids v) = kids v.
Proof.
  intros HR Hv Hm. apply kids_unpruned. intros w Hw.
  destruct (inList R (vid w)) eqn:HPw; [exfalso | reflexivity].
  apply inList_In in HPw. destruct (HR _ HPw) as [u [Hu [Hmu Hc]]].
  destruct (container_view _ _ Hu Hc) as [pre [ec [post [kc [_ [He [Hvc Hcase]]]]]]].
  assert (Hw0 : In w (locs (document d0)))
    by exact (descendants_in _ _ v w Hv Hw).
  assert (Hwfd : wf_forest (document d0)) by apply (wf_parts Hwf0).
  assert (Hsame : mkView ec kc post = w)
    by (apply (view_unique (locs (document d0))); auto).
  rewrite Hsame in Hcase.
  assert (Hbelow : In u (descendants v)).
  { destruct Hcase as [[_ ->] | [Hd _]]; [exact Hw |].
    exact (descendants_trans _ _ _ Hw Hd). }
  rewrite (Hspans v u Hv Hm Hbelow) in Hmu. discriminate.
Qed.

(** What purge does with a label that is still in the document. *)
Lemma purgeSpan_alive R d v :
  (forall c, In c R ->
     exists u, In u (locs (document d0)) /\ matchesView spanSel u = true
               /\ containerOf u = Some c) ->
  wf d -> document d = prune (inList R) (document d0) ->
  In v (locs (document d0)) -> matchesView spanSel v = true ->
  alive (inList R) v = true ->
  purgeSpan nfc blocked d (vid v)
  = if targetView nfc blocked v then
      match containerOf v with
      | Some c => if stillGuarded (inList R) (document d0) c
                  then remove c d else d
      | None => d
      end
    else d.
Proof.
  intros HR Hwf Hdoc Hv Hm Hal. set (P := inList R) in *.
  assert (Hwfd : wf_forest (document d0)) by apply (wf_parts Hwf0).
  assert (Hlocd : locate (vid v) d = Some (vprune P v))
    by (eapply located_alive; eassumption).
  unfold purgeSpan.
  rewrite (isTargetSpan_view nfc blocked _ _ Hlocd),
          (chordContainerFor_view _ _ Hlocd).
  replace (targetView nfc blocked (vprune P v)) with (targetView nfc blocked v)
    by (unfold targetView; simpl; unfold P;
        now rewrite (label_kids_unpruned R v HR Hv Hm)).
  change (containerOf (vprune P v)) with (containerOf v).
  destruct (targetView nfc blocked v); [| reflexivity].
  destruct (containerOf v) as [c|] eqn:Hc; [| reflexivity].
  destruct (container_view _ _ Hv Hc) as [pre [ec [post [kc [Hch [He [Hvc _]]]]]]].
  set (vc := mkView ec kc post) in *.
  assert (Halc : alive P vc = true).
  { rewrite alive_chain. simpl. rewrite alive_chain, Hch in Hal.
    exact (clear_sub _ _ _ _ Hal). }
  assert (Hidc : vid vc = c) by exact He.
  assert (Hloccd : locate c d = Some (vprune P vc))
    by (rewrite <- Hidc; eapply located_alive; eassumption).
  rewrite (isChordBlock_view _ _ Hloccd), (guard_pruned _ _ Halc).
  unfold stillGuarded. rewrite <- Hidc, (@locate_in_found _ _ Hwfd Hvc).
  reflexivity.
Qed.

Lemma purgedState_step pre v rest d :
  locs (document d0) = pre ++ v :: rest ->
  matchesView spanSel v = true ->
  purgedState nfc blocked d0 pre d ->
  purgedState nfc blocked d0 (pre ++ [v]) (purgeSpan nfc blocked d (vid v)).
Proof.
  intros Heq Hm [Hwf [R [Hdoc [HR Hin]]]].
  assert (Hv : In v (locs (document d0))).
  { rewrite Heq. apply in_or_app. right. now left. }
  assert (Hwfd : wf_forest (document d0)) by apply (wf_parts Hwf0).
  assert (Hsame : forall d',
            wf d' -> document d' = document d ->
            inert nfc blocked (inList R) (document d0) v = true
            \/ alive (inList R) v = false ->
            purgedState nfc blocked d0 (pre ++ [v]) d').
  { intros d' Hwf' Hdoc' Hv'. split; [assumption |]. exists R.
    split; [congruence |]. split; [assumption |].
    intros u Hu Hmu Halu. apply in_app_or in Hu.
    destruct Hu as [Hu | [<- | []]]; [now apply Hin |].
    destruct Hv' as [Hv' | Hv']; [assumption | congruence]. }
  destruct (alive (inList R) v) eqn:Hal.
  - rewrite (@purgeSpan_alive R d v HR Hwf Hdoc Hv Hm Hal).
    unfold inert in Hsame.
    destruct (targetView nfc blocked v) eqn:Ht;
      [| apply Hsame; auto].
    destruct (containerOf v) as [c|] eqn:Hc; [| apply Hsame; auto].
    destruct (stillGuarded (inList R) (document d0) c) eqn:Hg;
      [| apply Hsame; auto].
    split; [now apply remove_wf |]. exists (R ++ [c]).
    split; [| split].
    + rewrite remove_document by assumption. rewrite Hdoc. apply prune_more.
    + intros c' Hc'. apply in_app_or in Hc'.
      destruct Hc' as [Hc' | [<- | []]]; [now apply HR | eauto].
    + assert (Hsub : forall i, inList R i = true -> inList (R ++ [c]) i = true).
      { intros i Hi. rewrite inList_app, Hi. reflexivity. }
      intros u Hu Hmu Halu. apply in_app_or in Hu.
      destruct Hu as [Hu | [<- | []]].
      * specialize (Hin u Hu Hmu (alive_mono _ _ u Hsub Halu)).
        unfold inert in *. destruct (targetView nfc blocked u); [| reflexivity].
        simpl in *. destruct (containerOf u) as [cu|]; [| reflexivity].
        apply negb_true_iff. apply negb_true_iff in Hin.
        destruct (stillGuarded (inList (R ++ [c])) (document d0) cu) eqn:E;
          [| reflexivity].
        apply (stillGuarded_mono _ _ _ _ Hsub) in E. congruence.
      * rewrite (container_dead (inList (R ++ [c])) v Hc) in Halu;
          [discriminate |].
        apply inList_In. apply in_or_app. right. now left.
  - apply Hsame; [now apply purgeSpan_wf | | now right].
    apply purgeSpan_outside; [assumption |].
    rewrite Hdoc. now apply dead_absent.
Qed.

Lemma purgedState_skip pre v d :
  matchesView spanSel v = false ->
  purgedState nfc blocked d0 pre d ->
  purgedState nfc blocked d0 (pre ++ [v]) d.
Proof.
  intros Hm [Hwf [R [Hdoc [HR Hin]]]]. split; [assumption |]. exists R.
  split; [assumption |]. split; [assumption |].
  intros u Hu Hmu Halu. apply in_app_or in Hu.
  destruct Hu as [Hu | [<- | []]]; [now apply Hin | congruence].
Qed.

Lemma purgedState_run : forall rest pre d,
  locs (document d0) = pre ++ rest ->
  purgedState nfc blocked d0 pre d ->
  purgedState nfc blocked d0 (pre ++ rest)
    (fold_left (purgeSpan nfc blocked)
       (map vid (filter (matchesView spanSel) rest)) d).
Proof.
  induction rest as [|v rest IH]; intros pre d Heq Hst.
  - simpl. now rewrite app_nil_r.
  - assert (Heq' : locs (document d0) = (pre ++ [v]) ++ rest)
      by (rewrite Heq; now reassoc).
    replace (pre ++ v :: rest) with ((pre ++ [v]) ++ rest) by now reassoc.
    cbn [filter]. destruct (matchesView spanSel v) eqn:Hm.
    + cbn [map fold_left]. apply IH; [exact Heq' |].
      eapply purgedState_step; eassumption.
    + apply IH; [exact Heq' |]. now apply purgedState_skip.
Qed.

(** After purge, every label left in the document is inert. *)
Lemma purgedState_final d1 s :
  purgedState nfc blocked d0 (locs (document d0)) d1 ->
  In s (querySelectorAll Document spanSel d1) ->
  purgeSpan nfc blocked d1 s = d1.
Proof.
  intros [Hwf [R [Hdoc [HR Hin]]]] Hs. simpl in Hs.
  apply in_map_iff in Hs. destruct Hs as [w [<- Hw]].
  apply filter_In in Hw. destruct Hw as [Hw Hm].
  rewrite Hdoc in Hw. unfold locs in Hw.
  rewrite locs_prune in Hw by reflexivity.
  apply in_map_iff in Hw. destruct Hw as [u [<- Hu]].
  apply filter_In in Hu. destruct Hu as [Hu Hal].
  change (vid (vprune (inList R) u)) with (vid u).
  change (matchesView spanSel (vprune (inList R) u))
    with (matchesView spanSel u) in Hm.
  rewrite (@purgeSpan_alive R d1 u HR Hwf Hdoc Hu Hm Hal).
  specialize (Hin u Hu Hm Hal). unfold inert in Hin.
  destruct (targetView nfc blocked u); [| reflexivity].
  destruct (containerOf u) as [c|]; [| reflexivity].
  simpl in Hin. apply negb_true_iff in Hin. now rewrite Hin.
Qed.

End Idempotence.

Lemma spansApartb_sound d : spansApartb d = true -> spansApart d.
Proof.
  unfold spansApartb, spansApart. intros H v w Hv Hm Hw.
  rewrite forallb_forall in H. specialize (H v Hv).
  rewrite Hm in H. simpl in H.
  rewrite forallb_forall in H. specialize (H w Hw).
  now apply negb_true_iff in H.
Qed.

(** C9 (as amended): on a document where no [span.cbg1qdk] lies inside
    another one, applying purge twice yields the same DOM as applying it
    once. *)
Theorem purge_idempotent nfc blocked d :
  wf d -> spansApart d ->
  purge nfc blocked Document (purge nfc blocked Document d)
  = purge nfc blocked Document d.
Proof.
  intros Hwf Hspans.
  assert (Hst : purgedState nfc blocked d (locs (document d))
                  (purge nfc blocked Document d)).
  { unfold purge. simpl querySelectorAll.
    apply (@purgedState_run nfc blocked d Hwf Hspans (locs (document d)) [] d);
      [reflexivity |].
    split; [assumption |]. exists []. split; [| split].
    - symmetry. now apply prune_id_ids.
    - intros c [].
    - intros u []. }
  unfold purge at 1. apply fold_inert. intros s Hs.
  exact (@purgedState_final nfc blocked d Hwf Hspans _ s Hst Hs).
Qed.

Lemma twoBlocks_spansApart : spansApart twoBlocks.
Proof. apply spansApartb_sound. vm_compute. reflexivity. Qed.

Lemma purge_idempotent_witness :
  wf twoBlocks /\ spansApart twoBlocks
  /\ purge nfcOfNormal blockedChordsList Document
       (purge nfcOfNormal blockedChordsList Document twoBlocks)
     = purge nfcOfNormal blockedChordsList Document twoBlocks.
Proof.
  split; [exact twoBlocks_wf |]. split; [exact twoBlocks_spansApart |].
  exact (purge_idempotent nfcOfNormal blockedChordsList
           twoBlocks_wf twoBlocks_spansApart).
Defined.

(** C9 as stated fails: a label reading "AB" through a nested block is not
    blocked at first; once the nested block (label "B") is removed it
    reads "A", and a second purge removes its container. *)
Lemma purge_twice_removes_more :
  wf labelAroundBlock
  /\ map vid (locs (document
                      (purge nfcOfNormal blockedChordsList Document
                             labelAroundBlock)))
     = [100; 101; 1; 2; 3; 4]
  /\ map vid (locs (document
                      (purge nfcOfNormal blockedChordsList Document
                         (purge nfcOfNormal blockedChordsList Document
                                labelAroundBlock))))
     = [100; 101]
  /\ purge nfcOfNormal blockedChordsList Document
       (purge nfcOfNormal blockedChordsList Document labelAroundBlock)
     <> purge nfcOfNormal blockedChordsList Document labelAroundBlock.
Proof.
  split; [apply wfb_sound; vm_compute; reflexivity |].
  split; [vm_compute; reflexivity |].
  split; [vm_compute; reflexivity |].
  vm_compute. discriminate.
Qed.

(* ===================================================================== *)
(** ** How the calls end *)
(* ===================================================================== *)

Lemma stateOf_runClick nfc iface r st :
  stateOf (runClick nfc iface r st)
  = withClicks st
      (stateOf (clickSummaryIfPresent nfc iface r (page st) (clicked st))).
Proof.
  unfold runClick.
  now destruct (clickSummaryIfPresent nfc iface r (page st) (clicked st)).
Qed.

Lemma observeNode_element nfc iface st t node :
  stateOf (observeNode nfc iface (Normal (st, t)) (AddedElement node))
  = (stateOf (runClick nfc iface (Element node)
                (fst (observeAdded nfc st node))),
     t || snd (observeAdded nfc st node)).
Proof.
  simpl. destruct (observeAdded nfc st node) as [st' t']. simpl.
  now destruct (runClick nfc iface (Element node) st').
Qed.

(** The callback ends in the state its loops reach, or in that state with
    the sort queued; the latter only when the loops set [touched] and
    ended normally. *)
Lemma observerCallback_cases nfc iface ms st :
  let acc := stateOf (fold_left
                        (fun acc m => fold_left (observeNode nfc iface) m acc)
                        ms (Normal (st, false))) in
  stateOf (observerCallback nfc iface ms st) = fst acc
  \/ (snd acc = true
      /\ stateOf (observerCallback nfc iface ms st) = queueSort (fst acc)).
Proof.
  unfold observerCallback.
  destruct (fold_left _ ms (Normal (st, false))) as [[st' t] | [st' t]]; simpl.
  - destruct t; [right; now split | now left].
  - now left.
Qed.

(** A property of the state and [touched] that the loop body keeps for
    the nodes [ok] holds after the loops, however they end. *)
Section ObserverLoops.

Variable nfc : jsstring -> jsstring.
Variable iface : nat -> interface.
Variable Q : script * bool -> Prop.
Variable ok : nat -> Prop.

Hypothesis Hnode : forall st t node,
  ok node -> Q (st, t) ->
  Q (stateOf (observeNode nfc iface (Normal (st, t)) (AddedElement node))).

Lemma observeNode_inv acc n :
  (forall node, n = AddedElement node -> ok node) ->
  Q (stateOf acc) -> Q (stateOf (observeNode nfc iface acc n)).
Proof.
  intros Hn H. destruct acc as [[st t] | a]; [| exact H].
  destruct n as [|node]; [exact H |].
  apply Hnode; [now apply Hn | exact H].
Qed.

Lemma observeNodes_inv m : forall acc,
  (forall node, In (AddedElement node) m -> ok node) ->
  Q (stateOf acc) -> Q (stateOf (fold_left (observeNode nfc iface) m acc)).
Proof.
  induction m as [|n m IH]; intros acc Hm H; [exact H |].
  simpl. apply IH; [intros node Hin; apply Hm; now right |].
  apply observeNode_inv; [| exact H]. intros node ->. apply Hm. now left.
Qed.

Lemma observeAll_inv ms : forall acc,
  (forall m node, In m ms -> In (AddedElement node) m -> ok node) ->
  Q (stateOf acc) ->
  Q (stateOf (fold_left
                (fun acc m => fold_left (observeNode nfc iface) m acc)
                ms acc)).
Proof.
  induction ms as [|m ms IH]; intros acc Hms H; [exact H |].
  simpl. apply IH; [intros m' node Hin; apply Hms; now right |].
  apply observeNodes_inv; [| exact H].
  intros node Hin. apply (Hms m node); [now left | exact Hin].
Qed.

End ObserverLoops.

(* ===================================================================== *)
(** ** The exclusion set, missing selectors, debouncing *)
(* ===================================================================== *)

Section Running.

Variable nfc : jsstring -> jsstring.
Variable cmp : jsstring -> jsstring -> Z.
Variable iface : nat -> interface.

Lemma observeAdded_blocked st node :
  blockedChords (fst (observeAdded nfc st node)) = blockedChords st.
Proof.
  unfold observeAdded, runPurge, withPage.
  destruct (matchesSelAt spanSel (page st) node
            && isTargetSpan nfc (blockedChords st) (page st) node).
  - destruct (chordContainerFor (page st) node) as [c|];
      [destruct (isChordBlock (page st) c) |]; reflexivity.
  - now destruct (querySelectorAll (Element node) spanSel (page st)).
Qed.

Lemma runClick_blocked r st :
  blockedChords (stateOf (runClick nfc iface r st)) = blockedChords st.
Proof. now rewrite stateOf_runClick. Qed.

Lemma queueSort_blocked st : blockedChords (queueSort st) = blockedChords st.
Proof. unfold queueSort. now destruct (_sortPending st). Qed.

Lemma observerCallback_blocked ms st :
  blockedChords (stateOf (observerCallback nfc iface ms st))
  = blockedChords st.
Proof.
  assert (Hall : blockedChords
            (fst (stateOf (fold_left
                    (fun acc m => fold_left (observeNode nfc iface) m acc)
                    ms (Normal (st, false)))))
          = blockedChords st).
  { apply (observeAll_inv nfc iface
             (fun acc => blockedChords (fst acc) = blockedChords st)
             (fun _ => True)); [| intros; exact I | reflexivity].
    intros st1 t node _ H1. rewrite observeNode_element. simpl.
    now rewrite runClick_blocked, observeAdded_blocked. }
  destruct (observerCallback_cases nfc iface ms st) as [-> | [_ ->]];
    [exact Hall | now rewrite queueSort_blocked].
Qed.

Lemma tick_blocked now st :
  blockedChords (stateOf (tick nfc iface now st)) = blockedChords st.
Proof.
  unfold tick. destruct (now - lastTick st >? 1500)%Z; [| reflexivity].
  match goal with |- context [runClick nfc iface ?r ?s] =>
    pose proof (runClick_blocked r s) as H;
    destruct (runClick nfc iface r s) end; simpl in *;
    [now rewrite queueSort_blocked | exact H].
Qed.

Lemma step_blocked st ev :
  blockedChords (step nfc cmp iface st ev) = blockedChords st.
Proof.
  destruct ev; simpl.
  - unfold start. now rewrite runClick_blocked, queueSort_blocked.
  - apply observerCallback_blocked.
  - now destruct (timeouts st).
  - apply tick_blocked.
  - reflexivity.
Qed.

Lemma run_blocked evs : forall st,
  blockedChords (run nfc cmp iface evs st) = blockedChords st.
Proof.
  unfold run. induction evs as [|ev evs IH]; intros st; [reflexivity |].
  simpl. now rewrite IH, step_blocked.
Qed.

Lemma distinctb_sound l : distinctb l = true -> NoDup l.
Proof.
  induction l as [|x l IH]; simpl; intros H; constructor.
  - apply andb_true_iff in H. destruct H as [H _].
    apply negb_true_iff in H. intros Hin. apply str_mem_In in Hin. congruence.
  - apply IH. apply andb_true_iff in H. tauto.
Qed.

(** C5: the exclusion set holds the 28 listed chords, all distinct, and
    no operation of the script changes it: not purge, sortChordBlocks,
    clickSummaryIfPresent, the observer callback or the polling tick, nor
    any run of the script from its load on. *)
Theorem blockedChords_static :
  (newSet blockedChordsList [] = blockedChordsList
   /\ List.length blockedChordsList = 28
   /\ NoDup blockedChordsList)
  /\ (forall r st, blockedChords (runPurge nfc r st) = blockedChords st)
  /\ (forall st, blockedChords (runSort nfc cmp st) = blockedChords st)
  /\ (forall r st,
        blockedChords (stateOf (runClick nfc iface r st)) = blockedChords st)
  /\ (forall ms st,
        blockedChords (stateOf (observerCallback nfc iface ms st))
        = blockedChords st)
  /\ (forall now st,
        blockedChords (stateOf (tick nfc iface now st)) = blockedChords st)
  /\ (forall d evs,
        blockedChords (run nfc cmp iface evs (loaded d)) = blockedChordsList).
Proof.
  split; [| split; [| split; [| split; [| split; [| split]]]]].
  - split; [vm_compute; reflexivity |]. split; [reflexivity |].
    apply distinctb_sound. vm_compute. reflexivity.
  - reflexivity.
  - reflexivity.
  - apply runClick_blocked.
  - apply observerCallback_blocked.
  - apply tick_blocked.
  - intros d evs. rewrite run_blocked. vm_compute. reflexivity.
Qed.

(* --------------------------------------------------------------------- *)
(** *** Debouncing *)

Lemma runClick_debounce r st :
  _sortPending (stateOf (runClick nfc iface r st)) = _sortPending st
  /\ timeouts (stateOf (runClick nfc iface r st)) = timeouts st.
Proof. now rewrite stateOf_runClick. Qed.

Lemma queueSort_debounced st : debounced st -> debounced (queueSort st).
Proof.
  unfold debounced, queueSort. intros [[H1 H2] | [H1 H2]]; rewrite H1; simpl.
  - right. rewrite H2. auto.
  - right. auto.
Qed.

Lemma observeAdded_debounce st node :
  _sortPending (fst (observeAdded nfc st node)) = _sortPending st
  /\ timeouts (fst (observeAdded nfc st node)) = timeouts st.
Proof.
  unfold observeAdded, runPurge, withPage.
  destruct (matchesSelAt spanSel (page st) node
            && isTargetSpan nfc (blockedChords st) (page st) node).
  - destruct (chordContainerFor (page st) node) as [c|];
      [destruct (isChordBlock (page st) c) |]; auto.
  - destruct (querySelectorAll (Element node) spanSel (page st)); auto.
Qed.

Lemma runClick_debounced r st :
  debounced st -> debounced (stateOf (runClick nfc iface r st)).
Proof.
  intros H. unfold debounced.
  destruct (runClick_debounce r st) as [-> ->]. exact H.
Qed.

Lemma observerCallback_debounced ms st :
  debounced st -> debounced (stateOf (observerCallback nfc iface ms st)).
Proof.
  intros H.
  assert (Hall : debounced
            (fst (stateOf (fold_left
                    (fun acc m => fold_left (observeNode nfc iface) m acc)
                    ms (Normal (st, false)))))).
  { apply (observeAll_inv nfc iface (fun acc => debounced (fst acc))
             (fun _ => True)); [| intros; exact I | exact H].
    intros st1 t node _ H1. rewrite observeNode_element. simpl.
    apply runClick_debounced. unfold debounced.
    destruct (observeAdded_debounce st1 node) as [-> ->]. exact H1. }
  destruct (observerCallback_cases nfc iface ms st) as [-> | [_ ->]];
    [exact Hall | now apply queueSort_debounced].
Qed.

Lemma step_debounced st ev :
  debounced st -> debounced (step nfc cmp iface st ev).
Proof.
  intros H. destruct ev; simpl.
  - unfold start. apply runClick_debounced, queueSort_debounced. exact H.
  - now apply observerCallback_debounced.
  - destruct (timeouts st) eqn:Ht; [assumption |].
    unfold sortTimeout, runSort, withPage, debounced. simpl. rewrite Ht.
    destruct H as [[_ H] | [_ H]]; [congruence |].
    left. split; [reflexivity |]. rewrite Ht in H. now injection H as ->.
  - unfold tick. destruct (now - lastTick st >? 1500)%Z; [| assumption].
    match goal with |- context [runClick nfc iface ?r ?s] =>
      assert (Hc : debounced (stateOf (runClick nfc iface r s)))
        by (apply runClick_debounced; exact H);
      destruct (runClick nfc iface r s) end; simpl in *;
      [now apply queueSort_debounced | exact Hc].
  - exact H.
Qed.

Lemma run_debounced evs : forall st,
  debounced st -> debounced (run nfc cmp iface evs st).
Proof.
  unfold run. induction evs as [|ev evs IH]; intros st H; [assumption |].
  simpl. apply IH. now apply step_debounced.
Qed.

(** C7: in every state the script reaches after it is loaded, at most one
    sort callback is pending, exactly when the flag is set; while one is
    pending any number of queueSort calls change nothing; and when the
    callback fires, the flag is reset, no callback is left, and the page
    went through sortChordBlocks once. *)
Theorem sort_debounced d evs :
  let st := run nfc cmp iface evs (loaded d) in
  timeouts st <= 1
  /\ (_sortPending st = true <-> timeouts st = 1)
  /\ (_sortPending st = true ->
        forall n, Nat.iter n queueSort st = st)
  /\ (_sortPending st = true ->
        let st' := step nfc cmp iface st Timeout in
        _sortPending st' = false /\ timeouts st' = 0
        /\ page st' = domOf (sortChordBlocks nfc cmp Document (page st))).
Proof.
  intros st.
  assert (H : debounced st).
  { apply run_debounced. left. auto. }
  destruct H as [[H1 H2] | [H1 H2]]; rewrite H1, H2.
  - split; [lia |]. split; [split; discriminate |].
    split; discriminate.
  - split; [lia |]. split; [tauto |]. split.
    + intros _ n. induction n as [|n IH]; [reflexivity |].
      simpl. rewrite IH. unfold queueSort. now rewrite H1.
    + intros _. simpl. rewrite H2. simpl. rewrite H2. auto.
Qed.

(* --------------------------------------------------------------------- *)
(** *** Missing selectors *)

(** C6: an operation whose selector matches nothing leaves the DOM as it
    is and completes: purge without a [span.cbg1qdk], sortChordBlocks
    without a [div.deu1fhf] (it returns normally), clickSummaryIfPresent
    without a button, [role="button"] or anchor, or without a
    [.view-diagrams] element. *)
Theorem missing_selectors_noop blocked r d clicks :
  (querySelectorAll r spanSel d = [] -> purge nfc blocked r d = d)
  /\ (querySelectorAll r blockSel d = [] ->
        sortChordBlocks nfc cmp r d = Done d)
  /\ (querySelectorAll r buttonSel d = []
      \/ querySelectorAll Document viewDiagramsSel d = [] ->
        clickSummaryIfPresent nfc iface r d clicks = Normal (d, clicks)).
Proof.
  split; [| split].
  - intros H. unfold purge. now rewrite H.
  - intros H. unfold sortChordBlocks, chordBlocks. now rewrite H.
  - intros [H | H]; unfold clickSummaryIfPresent.
    + rewrite H. now destruct (onDiagramsPage d).
    + unfold onDiagramsPage, querySelector. now rewrite H.
Qed.

End Running.

Lemma missing_selectors_noop_witness :
  purge nfcOfNormal blockedChordsList Document plainPage = plainPage
  /\ sortChordBlocks nfcOfNormal compareBase Document plainPage = Done plainPage
  /\ clickSummaryIfPresent nfcOfNormal (parsedAs plainPage) Document plainPage []
     = Normal (plainPage, []).
Proof.
  destruct (missing_selectors_noop nfcOfNormal compareBase
              (parsedAs plainPage) blockedChordsList Document plainPage [])
    as [H1 [H2 H3]].
  split; [apply H1; reflexivity |].
  split; [apply H2; reflexivity | apply H3; left; reflexivity].
Defined.

(* ===================================================================== *)
(** ** Clicking "Summary" *)
(* ===================================================================== *)



Section Clicking.

Variable nfc : jsstring -> jsstring.
Variable iface : nat -> interface.

Lemma stopsAt_iff d el :
  stopsAt nfc iface d el = true
  <-> testSummary (nfc (trim (textContent d el))) = true
      /\ (hasDataset (iface el) = true -> clickedSummary d el = false).
Proof.
  unfold stopsAt. rewrite andb_true_iff, orb_true_iff, !negb_true_iff.
  destruct (hasDataset (iface el)), (clickedSummary d el);
    intuition discriminate.
Qed.

Lemma clickLoop_step el rest d clicks :
  clickLoop nfc iface (el :: rest) d clicks
  = if stopsAt nfc iface d el
    then match iface el with
         | HTMLElement =>
             Normal (setAttribute el clickedSummaryAttr (lit "1") d,
                     clicks ++ [el])
         | SVGElement =>
             Abrupt (setAttribute el clickedSummaryAttr (lit "1") d, clicks)
         | OtherElement => Abrupt (d, clicks)
         end
    else clickLoop nfc iface rest d clicks.
Proof.
  unfold stopsAt, normalize. cbn [clickLoop]. unfold normalize.
  destruct (nfc (trim (textContent d el))) as [|c t]; [reflexivity |].
  destruct (testSummary (c :: t)); [| reflexivity].
  destruct (iface el), (clickedSummary d el); reflexivity.
Qed.

Lemma clickLoop_spec d clicks : forall cands,
  (exists pre el post,
      cands = pre ++ el :: post /\ stopsAt nfc iface d el = true
      /\ (forall x, In x pre -> stopsAt nfc iface d x = false)
      /\ clickLoop nfc iface cands d clicks
         = match iface el with
           | HTMLElement =>
               Normal (setAttribute el clickedSummaryAttr (lit "1") d,
                       clicks ++ [el])
           | SVGElement =>
               Abrupt (setAttribute el clickedSummaryAttr (lit "1") d, clicks)
           | OtherElement => Abrupt (d, clicks)
           end)
  \/ ((forall x, In x cands -> stopsAt nfc iface d x = false)
      /\ clickLoop nfc iface cands d clicks = Normal (d, clicks)).
Proof.
  induction cands as [|el rest IH].
  - right. split; [intros x [] | reflexivity].
  - rewrite clickLoop_step. destruct (stopsAt nfc iface d el) eqn:E.
    + left. exists [], el, rest.
      split; [reflexivity |]. split; [exact E |].
      split; [intros x [] | reflexivity].
    + destruct IH as [[pre [x [post [Heq [Hx [Hpre Hrun]]]]]] | [Hall Hrun]].
      * left. exists (el :: pre), x, post.
        split; [now rewrite Heq |]. split; [exact Hx |].
        split; [| exact Hrun]. intros y [<- | Hy]; auto.
      * right. split; [| exact Hrun]. intros y [<- | Hy]; auto.
Qed.


(* --------------------------------------------------------------------- *)
(** *** The mark *)

Lemma locs_mapElement i g f : forall anc,
  locs_in (map (atElement i g) anc) (map (mapElement i g) f)
  = map (vmapElement i g) (locs_in anc f).
Proof.
  induction f as [|s f IH|e ks f IHk IHf] using forest_ind; intros anc.
  - reflexivity.
  - simpl map at 2. rewrite !locs_in_text. apply IH.
  - simpl map at 2. rewrite !locs_in_elem. rewrite map_cons, map_app.
    rewrite <- IHf, <- (IHk (e :: anc)). reflexivity.
Qed.

Lemma find_map_view (h : view -> view) i L :
  (forall v, vid (h v) = vid v) ->
  find (fun v => Nat.eqb (vid v) i) (map h L)
  = option_map h (find (fun v => Nat.eqb (vid v) i) L).
Proof.
  intros Hh. induction L as [|v L IH]; [reflexivity |].
  simpl. rewrite Hh. destruct (Nat.eqb (vid v) i); [reflexivity | exact IH].
Qed.

Lemma vid_withAttr i name value v :
  vid (vmapElement i (withAttr name value) v) = vid v.
Proof.
  unfold vid, vmapElement, atElement. simpl.
  now destruct (Nat.eqb (eid (self v)) i).
Qed.

Lemma locs_setAttribute i name value d :
  locs (allTrees (setAttribute i name value d))
  = map (vmapElement i (withAttr name value)) (locs (allTrees d)).
Proof.
  unfold setAttribute, allTrees. simpl. rewrite <- map_app.
  apply (locs_mapElement i (withAttr name value) _ []).
Qed.

Lemma locate_setAttribute x i name value d :
  locate x (setAttribute i name value d)
  = option_map (vmapElement i (withAttr name value)) (locate x d).
Proof.
  unfold locate, locate_in. rewrite locs_setAttribute.
  apply find_map_view. intros v. apply vid_withAttr.
Qed.

Lemma setAttribute_wf i name value d :
  wf d -> wf (setAttribute i name value d).
Proof.
  unfold wf, wf_forest. rewrite locs_setAttribute, map_map.
  erewrite map_ext; [intros H; exact H |]. intros v. simpl.
  symmetry. apply vid_withAttr.
Qed.

Lemma getAttribute_setAttr name value attrs :
  getAttribute name (setAttr name value attrs) = Some value.
Proof.
  induction attrs as [|[k v] attrs IH]; simpl.
  - now rewrite str_eqb_refl.
  - destruct (str_eqb k name) eqn:E; simpl; rewrite E; [reflexivity | exact IH].
Qed.

Lemma clickedSummary_marked el d v :
  locate el d = Some v ->
  clickedSummary (setAttribute el clickedSummaryAttr (lit "1") d) el = true.
Proof.
  intros Hloc. unfold clickedSummary. rewrite locate_setAttribute, Hloc.
  apply locate_some in Hloc. destruct Hloc as [_ Hid]. simpl.
  unfold atElement. unfold vid in Hid. rewrite Hid, Nat.eqb_refl. simpl.
  now rewrite getAttribute_setAttr.
Qed.

Lemma clickedSummary_kept el d x :
  clickedSummary d x = true ->
  clickedSummary (setAttribute el clickedSummaryAttr (lit "1") d) x = true.
Proof.
  unfold clickedSummary. rewrite locate_setAttribute.
  destruct (locate x d) as [v|]; [| discriminate]. simpl.
  unfold atElement. destruct (Nat.eqb (eid (self v)) el); [| auto].
  intros _. simpl. now rewrite getAttribute_setAttr.
Qed.

Lemma queried_located r sel d el :
  wf d -> In el (querySelectorAll r sel d) -> exists v, locate el d = Some v.
Proof.
  intros Hwf Hin. destruct r as [|i]; simpl in Hin.
  - apply in_map_iff in Hin. destruct Hin as [v [<- Hv]].
    apply filter_In in Hv. destruct Hv as [Hv _]. exists v.
    apply locate_found; [assumption |].
    rewrite locs_allTrees. apply in_or_app. now left.
  - destruct (locate i d) as [vi|] eqn:Hi; [| contradiction].
    apply in_map_iff in Hin. destruct Hin as [v [<- Hv]].
    apply filter_In in Hv. destruct Hv as [Hv _]. exists v.
    apply locate_found; [assumption |].
    apply locate_some in Hi. destruct Hi as [Hi _].
    exact (descendants_in _ _ vi v Hi Hv).
Qed.

Lemma click_clickedMarked r s :
  clickedMarked s ->
  clickedMarked (stateOf (clickSummaryIfPresent nfc iface r (fst s) (snd s))).
Proof.
  destruct s as [d clicks]. simpl. intros [Hwf [Hnd Hmarked]].
  unfold clickSummaryIfPresent. destruct (onDiagramsPage d); [| now split].
  destruct (clickLoop_spec d clicks (querySelectorAll r buttonSel d))
    as [[pre [el [post [Heq [Hel [_ ->]]]]]] | [_ ->]]; [| now split].
  apply stopsAt_iff in Hel. destruct Hel as [_ Hel].
  destruct (iface el); simpl in *.
  - specialize (Hel eq_refl).
    split; [now apply setAttribute_wf |]. split.
    + apply NoDup_app_intro; [assumption | repeat constructor; intros [] |].
      intros x Hx [E | []]. subst x. rewrite (Hmarked el Hx) in Hel.
      discriminate.
    + intros x Hx. apply in_app_or in Hx. destruct Hx as [Hx | [<- | []]].
      * apply clickedSummary_kept. now apply Hmarked.
      * destruct (@queried_located r buttonSel d el Hwf) as [v Hv].
        { rewrite Heq. apply in_or_app. right. now left. }
        exact (clickedSummary_marked _ _ Hv).
  - split; [now apply setAttribute_wf |]. split; [exact Hnd |].
    intros x Hx. apply clickedSummary_kept. now apply Hmarked.
  - now split.
Qed.

Lemma clickRuns_clickedMarked rs : forall s,
  clickedMarked s -> clickedMarked (clickRuns nfc iface rs s).
Proof.
  unfold clickRuns. induction rs as [|r rs IH]; intros s H; [assumption |].
  simpl. apply IH. now apply click_clickedMarked.
Qed.

(** C10: over any sequence of calls of clickSummaryIfPresent, with any
    roots, the clicks go to pairwise distinct elements, and every clicked
    element carries the mark from then on. *)
Theorem clicked_at_most_once rs d :
  wf d ->
  NoDup (snd (clickRuns nfc iface rs (d, [])))
  /\ forall el, In el (snd (clickRuns nfc iface rs (d, []))) ->
       clickedSummary (fst (clickRuns nfc iface rs (d, []))) el = true.
Proof.
  intros Hwf.
  assert (H : clickedMarked (clickRuns nfc iface rs (d, []))).
  { apply clickRuns_clickedMarked. split; [assumption |].
    split; [constructor | intros el []]. }
  destruct H as [_ H]. exact H.
Qed.

End Clicking.

Lemma togglePage_wf : wf togglePage.
Proof. apply wfb_sound. vm_compute. reflexivity. Qed.

Lemma clicked_at_most_once_witness :
  wf togglePage
  /\ snd (clickRuns nfcOfNormal (parsedAs togglePage)
            [Document; Document; Element 1; Document] (togglePage, []))
     = [3; 4]
  /\ NoDup (snd (clickRuns nfcOfNormal (parsedAs togglePage)
                   [Document; Document; Element 1; Document]
                   (togglePage, []))).
Proof.
  split; [exact togglePage_wf |]. split; [vm_compute; reflexivity |].
  exact (proj1 (clicked_at_most_once nfcOfNormal (parsedAs togglePage)
                  [Document; Document; Element 1; Document] togglePage_wf)).
Defined.

Lemma iconPage_wf : wf iconPage.
Proof. apply wfb_sound. vm_compute. reflexivity. Qed.


(* ===================================================================== *)
(** ** The observer applies the filter of purge *)
(* ===================================================================== *)

Section Observer.

Variable nfc : jsstring -> jsstring.

Lemma fold_outside blocked spans : forall d,
  wf d ->
  (forall s, In s spans -> ~ In s (map vid (locs (document d)))) ->
  document (fold_left (purgeSpan nfc blocked) spans d) = document d.
Proof.
  induction spans as [|s spans IH]; intros d Hwf Hout; [reflexivity |].
  simpl.
  assert (Hs : document (purgeSpan nfc blocked d s) = document d).
  { apply purgeSpan_outside; [assumption |]. apply Hout. now left. }
  rewrite IH; [exact Hs | now apply purgeSpan_wf |].
  intros x Hx. rewrite Hs. apply Hout. now right.
Qed.

(** Once the container of a node is removed, nothing below the node is in
    the document. *)
Lemma below_removed d node v c s :
  wf d -> locate node d = Some v -> containerOf v = Some c ->
  In s (map vid (descendants v)) ->
  ~ In s (map vid (locs (document (remove c d)))).
Proof.
  intros Hwf Hloc Hc Hs Hin.
  rewrite remove_document, ids_prune in Hin by assumption.
  apply in_map_iff in Hin. destruct Hin as [w [Hid Hw]].
  apply filter_In in Hw. destruct Hw as [Hw Hal].
  apply in_map_iff in Hs. destruct Hs as [u [Hu Hdesc]].
  apply locate_some in Hloc. destruct Hloc as [Hv _].
  assert (Hu' : In u (locs (allTrees d)))
    by exact (descendants_in _ _ v u Hv Hdesc).
  assert (Hw' : In w (locs (allTrees d))).
  { rewrite locs_allTrees. apply in_or_app. now left. }
  assert (w = u) by (apply (view_unique (locs (allTrees d))); auto; congruence).
  subst w. apply alive_eqb in Hal. destruct Hal as [_ Hnot]. apply Hnot.
  destruct (descendant_above _ _ Hdesc) as [rel Hrel].
  destruct (containerOf_position _ Hc) as [pre [ec [post [Hch He]]]].
  rewrite Hrel, map_app. apply in_or_app. right.
  change (self v :: above v) with ([self v] ++ above v) in Hch.
  simpl in Hch. rewrite Hch, map_app. apply in_or_app. right. now left.
Qed.

(** C8 (as amended): for an added element, the observer's filter leaves
    the document as purge over the node and its subtree would, unless the
    node is itself a blocked [span.cbg1qdk] for which no container is
    removed while it holds further [span.cbg1qdk] elements. *)
Theorem observer_applies_purge st node :
  wf (page st) ->
  (matchesSelAt spanSel (page st) node = true ->
   isTargetSpan nfc (blockedChords st) (page st) node = true ->
   candidate nfc (blockedChords st) (page st) node = [] ->
   querySelectorAll (Element node) spanSel (page st) = []) ->
  document (page (fst (observeAdded nfc st node)))
  = document (purgeWithin nfc (blockedChords st) node (page st)).
Proof.
  intros Hwf Hyp. unfold observeAdded, purgeWithin.
  set (d := page st) in *. set (b := blockedChords st) in *.
  remember (querySelectorAll (Element node) spanSel d) as spans eqn:Hspans.
  destruct (matchesSelAt spanSel d node) eqn:Hm; simpl andb.
  - destruct (isTargetSpan nfc b d node) eqn:Ht.
    + specialize (Hyp eq_refl eq_refl). unfold candidate in Hyp.
      rewrite Ht in Hyp. cbn [app fold_left].
      unfold purgeSpan at 2. rewrite Ht.
      destruct (chordContainerFor d node) as [c|] eqn:Hc.
      * destruct (isChordBlock d c) eqn:Hg.
        -- cbn [fst page withPage]. symmetry.
           apply fold_outside; [now apply remove_wf |].
           intros s Hs. unfold isTargetSpan in Ht.
           destruct (locate node d) as [v|] eqn:Hloc; [| discriminate].
           rewrite (chordContainerFor_view _ _ Hloc) in Hc.
           apply (@below_removed d node v c s Hwf Hloc Hc).
           rewrite Hspans in Hs. simpl in Hs. rewrite Hloc in Hs.
           apply in_map_iff in Hs. destruct Hs as [u [<- Hu]].
           apply in_map. apply filter_In in Hu. tauto.
        -- rewrite (Hyp eq_refl). reflexivity.
      * rewrite (Hyp eq_refl). reflexivity.
    + cbn [app fold_left]. unfold purgeSpan at 2. rewrite Ht.
      destruct spans; [reflexivity |].
      unfold runPurge, purge. cbn [fst page withPage]. fold d b.
      now rewrite <- Hspans.
  - cbn [app]. destruct spans; [reflexivity |].
    unfold runPurge, purge. cbn [fst page withPage]. fold d b.
    now rewrite <- Hspans.
Qed.

End Observer.

Lemma observer_applies_purge_witness :
  wf (page (loaded twoBlocks))
  /\ document (page (fst (observeAdded nfcOfNormal
                            (loaded twoBlocks) 1)))
     = document (purgeWithin nfcOfNormal blockedChordsList 1 twoBlocks).
Proof.
  split; [exact twoBlocks_wf |].
  apply (observer_applies_purge nfcOfNormal
           (loaded twoBlocks) 1 twoBlocks_wf).
  vm_compute. discriminate.
Defined.

(** C8 as stated fails: a blocked label added directly under the body
    wraps a chord block; it has no container, so the observer's direct
    branch removes nothing and never looks inside, whereas purge over the
    node and its subtree removes the inner block. *)
Lemma observer_skips_nested_label :
  wf labelWrapsBlock
  /\ document (page (fst (observeAdded nfcOfNormal
                            (loaded labelWrapsBlock) 1)))
     = document labelWrapsBlock
  /\ map vid (locs (document (purgeWithin nfcOfNormal blockedChordsList 1
                                          labelWrapsBlock)))
     = [100; 101; 1]
  /\ document (page (fst (observeAdded nfcOfNormal
                            (loaded labelWrapsBlock) 1)))
     <> document (purgeWithin nfcOfNormal blockedChordsList 1 labelWrapsBlock).
Proof.
  split; [apply wfb_sound; vm_compute; reflexivity |].
  split; [vm_compute; reflexivity |].
  split; [vm_compute; reflexivity |].
  vm_compute. discriminate.
Qed.

(* ===================================================================== *)
(** ** Reordering children *)
(* ===================================================================== *)

Lemma mapKids_absent p g f : forall anc,
  ~ In p (map vid (locs_in anc f)) -> map (mapKids p g) f = f.
Proof.
  induction f as [|s f IH|e ks f IHk IHf] using forest_ind; intros anc Hp.
  - reflexivity.
  - simpl. f_equal. apply (IH anc). exact Hp.
  - rewrite locs_in_elem in Hp. simpl in Hp. rewrite map_app in Hp.
    simpl. destruct (Nat.eqb (eid e) p) eqn:E.
    + apply Nat.eqb_eq in E. exfalso. apply Hp. now left.
    + rewrite (IHk (e :: anc)), (IHf anc); [reflexivity | |];
        intros H; apply Hp; right; apply in_or_app; auto.
Qed.

Lemma Permutation_flat_map_pointwise (A B : Type) (f h : A -> list B) l :
  Forall (fun x => Permutation (f x) (h x)) l ->
  Permutation (flat_map f l) (flat_map h l).
Proof.
  induction 1 as [|x l Hx _ IH]; [constructor |].
  simpl. now apply Permutation_app.
Qed.

(** The views of a forest whose child lists were permuted are the views
    of the forest, up to their order. *)
Lemma locs_mapKids p g :
  (forall ks, Permutation (g ks) ks) ->
  forall f anc,
    Permutation (locs_in anc (map (mapKids p g) f))
                (map (vmapKids p g) (locs_in anc f)).
Proof.
  intros Hg f.
  induction f as [|s f IH|e ks f IHk IHf] using forest_ind; intros anc.
  - constructor.
  - simpl map at 1. rewrite !locs_in_text. apply IH.
  - simpl map at 1. rewrite !locs_in_elem. rewrite map_cons, map_app.
    unfold vmapKids at 1, kidsAfter, vid. simpl self. simpl kids. simpl above.
    constructor. apply Permutation_app; [| apply IHf].
    transitivity (locs_in (e :: anc) (map (mapKids p g) ks)); [| apply IHk].
    unfold locs_in. apply Permutation_flat_map.
    destruct (Nat.eqb (eid e) p); [apply Hg | reflexivity].
Qed.

Lemma vid_vmapKids p g v : vid (vmapKids p g v) = vid v.
Proof. reflexivity. Qed.

Lemma existsb_Permutation (A : Type) (f : A -> bool) l l' :
  Permutation l l' -> existsb f l = existsb f l'.
Proof.
  induction 1 as [| x l l' _ IH | x y l | l l' l'' _ IH1 _ IH2]; simpl.
  - reflexivity.
  - now rewrite IH.
  - destruct (f x), (f y); reflexivity.
  - congruence.
Qed.

Section Reorder.

Variable p : nat.
Variable g : list node -> list node.
Hypothesis Hg : forall ks, Permutation (g ks) ks.

Lemma locs_reorder d :
  Permutation (locs (allTrees (reorder p g d)))
              (map (vmapKids p g) (locs (allTrees d))).
Proof.
  unfold reorder, allTrees. simpl. rewrite <- map_app.
  apply (@locs_mapKids p g Hg).
Qed.

Lemma reorder_wf d : wf d -> wf (reorder p g d).
Proof.
  unfold wf, wf_forest. intros H.
  apply (Permutation_NoDup (l := map vid (locs (allTrees d)))); [| exact H].
  symmetry. rewrite (Permutation_map vid (locs_reorder d)).
  rewrite map_map. reflexivity.
Qed.

Lemma locate_reorder d i :
  wf d -> locate i (reorder p g d) = option_map (vmapKids p g) (locate i d).
Proof.
  intros Hwf. destruct (locate i d) as [v|] eqn:Hloc; simpl.
  - apply locate_some in Hloc. destruct Hloc as [Hv <-].
    change (vid v) with (vid (vmapKids p g v)).
    apply locate_found; [now apply reorder_wf |].
    apply (Permutation_in _ (Permutation_sym (locs_reorder d))).
    now apply in_map.
  - apply find_view_none. apply find_view_none in Hloc. intros Hin.
    apply Hloc.
    apply (Permutation_in _ (Permutation_map vid (locs_reorder d))) in Hin.
    now rewrite map_map in Hin.
Qed.

Lemma shape_reorder d i : wf d -> shape (reorder p g d) i = shape d i.
Proof.
  intros Hwf. unfold shape. rewrite locate_reorder by assumption.
  now destruct (locate i d).
Qed.

Lemma selves_reorder d :
  Permutation (map self (locs (document (reorder p g d))))
              (map self (locs (document d))).
Proof.
  simpl. unfold locs.
  rewrite (Permutation_map self (@locs_mapKids p g Hg (document d) [])).
  rewrite map_map. reflexivity.
Qed.

(** The chord-diagram guard does not depend on the order of children. *)
Lemma guardView_vmapKids v : guardView (vmapKids p g v) = guardView v.
Proof.
  unfold guardView, descendants. simpl.
  assert (H : Permutation (locs_in (self v :: above v) (kidsAfter p g v))
                (map (vmapKids p g) (locs_in (self v :: above v) (kids v)))).
  { transitivity (locs_in (self v :: above v) (map (mapKids p g) (kids v)));
      [| apply (@locs_mapKids p g Hg)].
    unfold locs_in, kidsAfter. apply Permutation_flat_map.
    destruct (Nat.eqb (vid v) p); [apply Hg | reflexivity]. }
  rewrite (existsb_Permutation _ H). now rewrite existsb_map.
Qed.

Lemma isChordBlock_reorder d i :
  wf d -> isChordBlock (reorder p g d) i = isChordBlock d i.
Proof.
  intros Hwf. destruct (locate i d) as [v|] eqn:Hloc.
  - rewrite (isChordBlock_view _ _ Hloc).
    assert (H : locate i (reorder p g d) = Some (vmapKids p g v))
      by (rewrite locate_reorder, Hloc; auto).
    rewrite (isChordBlock_view _ _ H). apply guardView_vmapKids.
  - rewrite (isChordBlock_none _ _ Hloc). apply isChordBlock_none.
    rewrite locate_reorder, Hloc; auto.
Qed.

(** A view without [p] in it is left as it is. *)
Lemma vmapKids_outside v :
  vid v <> p -> ~ In p (map vid (descendants v)) -> vmapKids p g v = v.
Proof.
  intros Hne Hout. unfold vmapKids, kidsAfter.
  apply Nat.eqb_neq in Hne. rewrite Hne.
  rewrite (mapKids_absent p g (kids v) (self v :: above v) Hout).
  now destruct v.
Qed.

Lemma elementKids_mapKids ks :
  elementKids (map (mapKids p g) ks) = elementKids ks.
Proof.
  induction ks as [|k ks IH]; [reflexivity |].
  unfold elementKids in *. simpl. rewrite IH. now destruct k.
Qed.

End Reorder.

(* --------------------------------------------------------------------- *)
(** *** Appending a child to its own parent *)

Lemma self_not_above f v :
  wf_forest f -> In v (locs f) -> ~ In (vid v) (map eid (above v)).
Proof.
  intros Hwf Hv Hin. apply in_map_iff in Hin. destruct Hin as [a [Ha Hin]].
  apply in_split in Hin. destruct Hin as [pre [post Hab]].
  destruct (ancestor_view f [] v pre a post Hv) as [kc [Hc Hd]].
  { now rewrite app_nil_r. }
  rewrite app_nil_r in *.
  assert (Hsame : mkView a kc post = v)
    by (apply (view_unique (locs f)); auto).
  rewrite Hsame in Hd.
  destruct (locs_segment _ _ _ Hv) as [l1 [l2 Hseg]]. fold (locs f) in Hseg.
  unfold wf_forest in Hwf. rewrite Hseg in Hwf.
  apply (NoDup_map_app_disjoint vid (l1 ++ [v]) (descendants v ++ l2) v).
  - now rewrite <- app_assoc.
  - apply in_or_app. right. now left.
  - apply in_or_app. now left.
Qed.

(** A view whose ancestors are those of the forest is one of its
    top-level nodes. *)
Lemma top_level_kid ks : forall anc v,
  In v (locs_in anc ks) -> above v = anc -> In (viewNode v) ks.
Proof.
  induction ks as [|s ks IH|e ks' ks _ IHf] using forest_ind; intros anc v Hv Hab.
  - contradiction.
  - right. rewrite locs_in_text in Hv. now apply (IH anc).
  - rewrite locs_in_elem in Hv. destruct Hv as [<- | Hv]; [now left |].
    apply in_app_or in Hv. destruct Hv as [Hv | Hv].
    + destruct (above_ends _ _ _ Hv) as [rel Hrel]. rewrite Hab in Hrel.
      apply (f_equal (@List.length element)) in Hrel.
      rewrite length_app in Hrel. simpl in Hrel. lia.
    + right. now apply (IHf anc).
Qed.

Lemma keeps_isElem b k : keeps (Nat.eqb b) k = negb (isElem b k).
Proof. destruct k as [|e ks]; simpl; [reflexivity |]. now rewrite Nat.eqb_sym. Qed.

Lemma only_kid b t ks : forall anc,
  NoDup (map vid (locs_in anc ks)) -> In t ks -> isElem b t = true ->
  filter (isElem b) ks = [t].
Proof.
  induction ks as [|s ks IH|e ks' ks _ IHf] using forest_ind;
    intros anc Hnd Ht Hb.
  - contradiction.
  - simpl. destruct Ht as [<- | Ht]; [discriminate |]. now apply (IH anc).
  - rewrite locs_in_elem in Hnd. simpl in Hnd.
    inversion Hnd as [|? ? Hhead Hrest]; subst.
    rewrite map_app in Hhead, Hrest. simpl.
    assert (Hids : forall k, In k ks -> isElem b k = true ->
                     In b (map vid (locs_in [] ks))).
    { intros k Hk Hkb. apply isElem_in_ids.
      apply existsb_exists. exists k. auto. }
    rewrite (ids_anc ks anc []) in Hhead, Hrest.
    destruct (Nat.eqb (eid e) b) eqn:E.
    + apply Nat.eqb_eq in E. destruct Ht as [<- | Ht].
      * f_equal. apply filter_none. intros k Hk.
        destruct (isElem b k) eqn:Hkb; [exfalso | reflexivity].
        apply Hhead. apply in_or_app. right. unfold vid. simpl.
        rewrite E. now apply (Hids k).
      * exfalso. apply Hhead. apply in_or_app. right. unfold vid. simpl.
        rewrite E. now apply (Hids t).
    + destruct Ht as [<- | Ht]; [simpl in Hb; congruence |].
      apply (IHf anc); auto. rewrite (ids_anc ks anc []).
      now apply NoDup_app_remove_l in Hrest.
Qed.

Section MoveChild.

Variables p b : nat.
Variable t : node.
Hypothesis Ht : isElem b t = true.

(** Cutting [b] out and putting it back as the last child of its parent
    [p] moves it behind its siblings. *)
Lemma move_forest f : forall anc,
  NoDup (map vid (locs_in anc f)) ->
  existsb (isElem b) f = false ->
  (forall v, In v (locs_in anc f) -> vid v = b ->
     viewNode v = t /\ exists a rest, above v = a :: rest /\ eid a = p) ->
  (forall v, In v (locs_in anc f) -> vid v = p -> In t (kids v)) ->
  map (mapKids p (fun ks => ks ++ [t])) (prune (Nat.eqb b) f)
  = map (mapKids p (moveLast b)) f.
Proof.
  induction f as [|s f IH|e ks f IHk IHf] using forest_ind;
    intros anc Hnd Htop Hb Hp.
  - reflexivity.
  - rewrite prune_text. simpl. f_equal. apply (IH anc); auto.
  - rewrite locs_in_elem in Hnd, Hb, Hp. simpl in Htop.
    apply orb_false_iff in Htop. destruct Htop as [He Htop].
    rewrite prune_elem. rewrite Nat.eqb_sym, He.
    simpl in Hnd. inversion Hnd as [|? ? Hhead Hrest]; subst.
    rewrite map_app in Hhead, Hrest.
    simpl map. f_equal.
    2:{ apply (IHf anc); auto.
        - now apply NoDup_app_remove_l in Hrest.
        - intros v Hv. apply Hb. right. apply in_or_app. now right.
        - intros v Hv. apply Hp. right. apply in_or_app. now right. }
    f_equal.
    assert (Hndk : NoDup (map vid (locs_in (e :: anc) ks)))
      by now apply NoDup_app_remove_r in Hrest.
    assert (Hbk : forall v, In v (locs_in (e :: anc) ks) -> vid v = b ->
              viewNode v = t /\ exists a rest, above v = a :: rest /\ eid a = p).
    { intros v Hv. apply Hb. right. apply in_or_app. now left. }
    destruct (Nat.eqb (eid e) p) eqn:E.
    + apply Nat.eqb_eq in E.
      assert (Hpk : ~ In p (map vid (locs_in (e :: anc) ks))).
      { intros Hin. apply Hhead. apply in_or_app. left.
        unfold vid at 1. simpl. now rewrite E. }
      assert (Hdeep : forall k, In k ks -> prune_node (Nat.eqb b) k = k).
      { intros [s|e' ks'] Hk; [reflexivity |]. simpl. f_equal.
        change (filter (keeps (Nat.eqb b)) (map (prune_node (Nat.eqb b)) ks'))
          with (prune (Nat.eqb b) ks').
        apply (prune_id _ ks' (e' :: e :: anc)). intros v Hv.
        apply Nat.eqb_neq. intros Hvb.
        assert (Hv' : In v (locs_in (e :: anc) ks)).
        { unfold locs_in. apply in_flat_map. exists (Elem e' ks').
          split; [assumption |]. simpl. right. exact Hv. }
        destruct (Hbk v Hv' (eq_sym Hvb)) as [_ [a [rest [Hab Ha]]]].
        destruct (above_ends _ _ _ Hv) as [rel Hrel].
        apply Hpk. destruct rel as [|x rel]; simpl in Hrel.
        - rewrite Hrel in Hab. injection Hab as <- _.
          apply in_map_iff. exists (mkView e' ks' (e :: anc)).
          split; [exact Ha |]. unfold locs_in. apply in_flat_map.
          exists (Elem e' ks'). split; [assumption | now left].
        - destruct (above_in_forest _ _ _ Hv) as [rel' [Hrel' Hall]].
          rewrite Hab in Hrel'. destruct rel' as [|y rel']; simpl in Hrel'.
          + injection Hrel' as -> _.
            apply in_map_iff. exists (mkView e' ks' (e :: anc)).
            split; [exact Ha |]. unfold locs_in. apply in_flat_map.
            exists (Elem e' ks'). split; [assumption | now left].
          + injection Hrel' as <- _. inversion Hall as [|? ? Hy _]; subst.
            apply in_map_iff in Hy. destruct Hy as [w [Hw Hw']].
            apply in_map_iff. exists w. split.
            * unfold vid. now rewrite Hw.
            * unfold locs_in. apply in_flat_map. exists (Elem e' ks').
              split; [assumption |]. simpl. now right. }
      assert (Hpr : prune (Nat.eqb b) ks = filter (fun k => negb (isElem b k)) ks).
      { unfold prune. rewrite (map_ext_in _ (fun k => k) ks Hdeep), map_id.
        apply filter_ext. intros k. apply keeps_isElem. }
      rewrite Hpr.
      rewrite (mapKids_absent p _ ks (e :: anc) Hpk).
      rewrite (mapKids_absent p _ (filter (fun k => negb (isElem b k)) ks)
                 (e :: anc)).
      * unfold moveLast. f_equal. symmetry.
        apply (only_kid b t ks (e :: anc) Hndk); [| exact Ht].
        apply (Hp (mkView e ks anc)); [now left | exact E].
      * intros Hin. apply Hpk. apply in_map_iff in Hin.
        destruct Hin as [w [Hw Hin]]. apply in_map_iff. exists w.
        split; [assumption |]. unfold locs_in in *.
        apply in_flat_map in Hin. destruct Hin as [k [Hk Hin]].
        apply in_flat_map. exists k. apply filter_In in Hk. tauto.
    + apply (IHk (e :: anc)); auto.
      * destruct (existsb (isElem b) ks) eqn:Hex; [exfalso | reflexivity].
        apply existsb_exists in Hex. destruct Hex as [k [Hk Hkb]].
        destruct k as [s|e' ks']; [discriminate |]. simpl in Hkb.
        apply Nat.eqb_eq in Hkb.
        destruct (Hbk (mkView e' ks' (e :: anc))) as [_ [a [rest [Hab Ha]]]].
        { unfold locs_in. apply in_flat_map. exists (Elem e' ks').
          split; [assumption | now left]. }
        { exact Hkb. }
        simpl in Hab. injection Hab as <- _. apply Nat.eqb_neq in E. auto.
      * intros v Hv. apply Hp. right. apply in_or_app. now left.
Qed.

End MoveChild.

Lemma moveLast_perm b ks : Permutation (moveLast b ks) ks.
Proof.
  unfold moveLast. induction ks as [|k ks IH]; [constructor |].
  simpl. destruct (isElem b k); simpl.
  - apply Permutation_sym. apply Permutation_cons_app.
    now apply Permutation_sym.
  - now constructor.
Qed.

Lemma parentElement_view d b p :
  parentElement d b = Some p ->
  exists vb a rest,
    locate b d = Some vb /\ above vb = a :: rest /\ eid a = p.
Proof.
  unfold parentElement. destruct (locate b d) as [vb|]; [| discriminate].
  destruct (above vb) as [|a rest] eqn:Hab; [discriminate |].
  intros H. injection H as <-. exists vb, a, rest. auto.
Qed.

(** The parent of a view has a view of its own, with the view among its
    child nodes. *)
Lemma parent_view f vb a rest :
  In vb (locs f) -> above vb = a :: rest ->
  exists kc, In (mkView a kc rest) (locs f) /\ In (viewNode vb) kc.
Proof.
  intros Hvb Hab.
  destruct (ancestor_view f [] vb [] a rest Hvb) as [kc [Hc Hd]].
  { now rewrite app_nil_r. }
  rewrite app_nil_r in *. exists kc. split; [exact Hc |].
  apply (@top_level_kid kc (a :: rest) vb Hd Hab).
Qed.

(** Appending a child to its own parent does not throw and moves the
    child behind its siblings. *)
Lemma appendChild_child d p b :
  wf d -> parentElement d b = Some p ->
  appendChild p b d = Done (reorder p (moveLast b) d).
Proof.
  intros Hwf Hpar.
  destruct (parentElement_view _ _ Hpar) as [vb [a [rest [Hlocb [Hab Ha]]]]].
  pose proof (locate_some _ _ Hlocb) as [Hvb Hidb].
  destruct (parent_view _ _ Hvb Hab) as [kc [Hvp Hkid]].
  set (vp := mkView a kc rest) in *.
  assert (Hlocp : locate p d = Some vp).
  { rewrite <- Ha. change (eid a) with (vid vp). now apply locate_found. }
  unfold appendChild. rewrite Hlocp, Hlocb. simpl self. simpl above.
  assert (Hnot : existsb (Nat.eqb b) (map eid (a :: rest)) = false).
  { destruct (existsb (Nat.eqb b) (map eid (a :: rest))) eqn:E; [| reflexivity].
    exfalso. apply existsb_exists in E. destruct E as [x [Hx Hbx]].
    apply Nat.eqb_eq in Hbx. subst x.
    apply (@self_not_above (allTrees d) vb Hwf Hvb).
    rewrite Hidb, Hab. exact Hx. }
  rewrite Hnot. f_equal. unfold reorder.
  assert (Hall : forall v, In v (locs (allTrees d)) ->
            (vid v = b -> v = vb) /\ (vid v = p -> v = vp)).
  { intros v Hv. split; intros Hid;
      apply (view_unique (locs (allTrees d))); auto.
    - now rewrite Hid, Hidb.
    - rewrite Hid. symmetry. exact Ha. }
  assert (Hforest : forall f,
            (forall v, In v (locs f) -> In v (locs (allTrees d))) ->
            wf_forest f ->
            map (mapKids p (fun ks => ks ++ [viewNode vb]))
                (prune (Nat.eqb b) f)
            = map (mapKids p (moveLast b)) f).
  { intros f Hsub Hwff.
    apply (@move_forest p b (viewNode vb)) with (anc := []).
    - simpl. unfold vid in Hidb. rewrite Hidb. apply Nat.eqb_refl.
    - exact Hwff.
    - destruct (existsb (isElem b) f) eqn:E; [exfalso | reflexivity].
      apply existsb_exists in E. destruct E as [k [Hk Hkb]].
      destruct k as [s|e' ks']; [discriminate |]. simpl in Hkb.
      apply Nat.eqb_eq in Hkb.
      assert (Hk' : In (mkView e' ks' []) (locs f)).
      { unfold locs, locs_in. apply in_flat_map. exists (Elem e' ks').
        split; [assumption | now left]. }
      destruct (Hall _ (Hsub _ Hk')) as [H1 _].
      specialize (H1 Hkb). rewrite <- H1 in Hab. discriminate.
    - intros v Hv Hid. destruct (Hall _ (Hsub _ Hv)) as [H1 _].
      rewrite (H1 Hid). split; [reflexivity |]. eauto.
    - intros v Hv Hid. destruct (Hall _ (Hsub _ Hv)) as [_ H2].
      rewrite (H2 Hid). exact Hkid. }
  destruct (wf_parts Hwf) as [Hd [Ho _]].
  f_equal; apply Hforest; auto; intros v Hv; rewrite locs_allTrees;
    apply in_or_app; auto.
Qed.

(* ===================================================================== *)
(** ** sortChordBlocks only reorders *)
(* ===================================================================== *)

Lemma parentElement_shape d i :
  parentElement d i
  = match shape d i with
    | Some (_, a :: _) => Some (eid a)
    | _ => None
    end.
Proof.
  unfold parentElement, shape. now destruct (locate i d).
Qed.

Lemma rearranged_refl d : wf d -> rearranged d d.
Proof. intros H. split; [assumption |]. split; [reflexivity | reflexivity]. Qed.

Lemma rearranged_trans d1 d2 d3 :
  rearranged d1 d2 -> rearranged d2 d3 -> rearranged d1 d3.
Proof.
  intros [_ [H1 H2]] [Hwf [H3 H4]]. split; [assumption |]. split.
  - intros i. now rewrite H3, H1.
  - now rewrite H4.
Qed.

Lemma rearranged_parent d d' i :
  rearranged d d' -> parentElement d' i = parentElement d i.
Proof.
  intros [_ [H _]]. now rewrite !parentElement_shape, H.
Qed.

Lemma reorder_rearranged p b d :
  wf d -> rearranged d (reorder p (moveLast b) d).
Proof.
  intros Hwf. split; [apply reorder_wf; [apply moveLast_perm | assumption] |].
  split.
  - intros i. apply shape_reorder; [apply moveLast_perm | assumption].
  - apply selves_reorder. apply moveLast_perm.
Qed.

Section SortingReorders.

Variable nfc : jsstring -> jsstring.
Variable cmp : jsstring -> jsstring -> Z.

Lemma appendAll_rearranged p els : forall d,
  wf d -> (forall b, In b els -> parentElement d b = Some p) ->
  exists d', appendAll p els d = Done d' /\ rearranged d d'.
Proof.
  induction els as [|b els IH]; intros d Hwf Hpar.
  - exists d. split; [reflexivity | now apply rearranged_refl].
  - simpl. rewrite (@appendChild_child d p b Hwf (Hpar b (or_introl eq_refl))).
    pose proof (@reorder_rearranged p b d Hwf) as Hre.
    destruct (IH (reorder p (moveLast b) d)) as [d' [Hrun Hre']].
    + apply Hre.
    + intros x Hx. rewrite (@rearranged_parent _ _ x Hre). apply Hpar. now right.
    + exists d'. split; [exact Hrun |]. eapply rearranged_trans; eassumption.
Qed.

Lemma insertSorted_perm c x l : Permutation (insertSorted c x l) (x :: l).
Proof.
  induction l as [|y l IH]; simpl; [reflexivity |].
  destruct (c x y <=? 0)%Z; [reflexivity |].
  rewrite IH. apply perm_swap.
Qed.

Lemma sortBy_perm c l : Permutation (sortBy c l) l.
Proof.
  induction l as [|x l IH]; simpl; [constructor |].
  rewrite insertSorted_perm. now constructor.
Qed.

Lemma sortGroups_rearranged groups : forall d,
  wf d -> groupsOf d groups ->
  exists d', sortGroups nfc cmp groups d = Done d' /\ rearranged d d'.
Proof.
  induction groups as [|[p l] groups IH]; intros d Hwf Hg.
  - exists d. split; [reflexivity | now apply rearranged_refl].
  - simpl.
    destruct (@appendAll_rearranged p (sortBy (compareBlocks nfc cmp d) l) d Hwf)
      as [d1 [Hrun Hre]].
    { intros b Hb. apply (Hg p l); [now left |].
      apply (Permutation_in _ (sortBy_perm _ l) Hb). }
    rewrite Hrun. destruct (IH d1) as [d' [Hrun' Hre']].
    + apply Hre.
    + intros q l' b Hq Hb. rewrite (@rearranged_parent _ _ b Hre).
      apply (Hg q l'); [now right | assumption].
    + exists d'. split; [exact Hrun' |]. eapply rearranged_trans; eassumption.
Qed.

Lemma pushTo_in p b m q l x :
  In (q, l) (pushTo p b m) -> In x l ->
  (q = p /\ x = b) \/ exists l', In (q, l') m /\ In x l'.
Proof.
  induction m as [|[q' l'] m IH]; simpl.
  - intros [H | []] Hx. injection H as <- <-. destruct Hx as [<- | []]. auto.
  - destruct (Nat.eqb q' p) eqn:E.
    + apply Nat.eqb_eq in E. subst q'.
      intros [H | H] Hx.
      * injection H as <- <-. apply in_app_or in Hx.
        destruct Hx as [Hx | [<- | []]]; [right; eauto | auto].
      * right. eauto.
    + intros [H | H] Hx.
      * injection H as <- <-. right. eauto.
      * destruct (IH H Hx) as [? | [l'' [H1 H2]]]; [auto | right; eauto].
Qed.

Lemma groupByParent_groupsOf d blocks : groupsOf d (groupByParent d blocks).
Proof.
  unfold groupByParent.
  assert (H : forall m, groupsOf d m ->
            groupsOf d (fold_left
              (fun m b => match parentElement d b with
                          | Some p => pushTo p b m
                          | None => m
                          end) blocks m)).
  { induction blocks as [|b blocks IH]; intros m Hm; [assumption |].
    simpl. apply IH. destruct (parentElement d b) as [p|] eqn:Hp; [| assumption].
    intros q l x Hq Hx.
    destruct (pushTo_in _ _ _ _ _ _ Hq Hx) as [[-> ->] | [l' [H1 H2]]];
      [assumption | eapply Hm; eassumption]. }
  apply H. intros p l b [].
Qed.

(** C3: sortChordBlocks returns normally, and the document it leaves
    holds the same elements as before (none removed, none created), each
    of them, chord blocks included, with the same parent element. *)
Theorem sortChordBlocks_reorders r d :
  wf d ->
  exists d',
    sortChordBlocks nfc cmp r d = Done d'
    /\ Permutation (map self (locs (document d')))
                   (map self (locs (document d)))
    /\ forall i, parentElement d' i = parentElement d i.
Proof.
  intros Hwf. unfold sortChordBlocks.
  destruct (List.length (chordBlocks r d) <? 2).
  - exists d. repeat split; reflexivity.
  - destruct (@sortGroups_rearranged
                (groupByParent d (chordBlocks r d)) d Hwf
                (groupByParent_groupsOf d (chordBlocks r d)))
      as [d' [Hrun Hre]].
    exists d'. split; [exact Hrun |]. split; [apply Hre |].
    intros i. now apply rearranged_parent.
Qed.

End SortingReorders.

Lemma sortChordBlocks_reorders_witness :
  wf twoBlocks
  /\ exists d',
       sortChordBlocks nfcOfNormal compareBase Document twoBlocks = Done d'
       /\ Permutation (map self (locs (document d')))
                      (map self (locs (document twoBlocks)))
       /\ forall i, parentElement d' i = parentElement twoBlocks i.
Proof.
  split; [exact twoBlocks_wf |].
  exact (@sortChordBlocks_reorders nfcOfNormal compareBase Document twoBlocks
           twoBlocks_wf).
Defined.

(* ===================================================================== *)
(** ** sortChordBlocks sorts the blocks of each parent *)
(* ===================================================================== *)

(* --------------------------------------------------------------------- *)
(** *** Sorting a list *)

Section SortBy.

Variable c : nat -> nat -> Z.
Hypothesis c_total : forall a b, (c a b <= 0)%Z \/ (c b a <= 0)%Z.
Hypothesis c_trans :
  forall a b x, (c a b <= 0)%Z -> (c b x <= 0)%Z -> (c a x <= 0)%Z.

Lemma insertSorted_sorted x l :
  StronglySorted (fun a b => (c a b <= 0)%Z) l ->
  StronglySorted (fun a b => (c a b <= 0)%Z) (insertSorted c x l).
Proof.
  induction 1 as [|y l Hs IH Hy]; simpl.
  - repeat constructor.
  - destruct (c x y <=? 0)%Z eqn:E.
    + apply Z.leb_le in E. constructor; [now constructor |].
      constructor; [assumption |].
      eapply Forall_impl; [| exact Hy]. intros z Hz. simpl in Hz.
      eapply c_trans; eassumption.
    + apply Z.leb_gt in E. constructor; [assumption |].
      apply (Permutation_Forall (Permutation_sym (insertSorted_perm c x l))).
      constructor; [| assumption].
      destruct (c_total y x); [assumption | lia].
Qed.

Lemma sortBy_sorted l :
  StronglySorted (fun a b => (c a b <= 0)%Z) (sortBy c l).
Proof.
  induction l as [|x l IH]; simpl; [constructor |].
  now apply insertSorted_sorted.
Qed.

End SortBy.

Lemma insertSorted_ext c1 c2 x l :
  (forall y, In y l -> c1 x y = c2 x y) ->
  insertSorted c1 x l = insertSorted c2 x l.
Proof.
  induction l as [|y l IH]; intros H; [reflexivity |]. simpl.
  rewrite (H y (or_introl eq_refl)), IH; [reflexivity |].
  intros z Hz. apply H. now right.
Qed.

Lemma sortBy_ext c1 c2 l :
  (forall a b, In a l -> In b l -> c1 a b = c2 a b) ->
  sortBy c1 l = sortBy c2 l.
Proof.
  induction l as [|x l IH]; intros H; [reflexivity |]. simpl.
  rewrite IH by (intros a b Ha Hb; apply H; now right).
  apply insertSorted_ext. intros y Hy. apply H; [now left | right].
  exact (Permutation_in _ (sortBy_perm c2 l) Hy).
Qed.

(* --------------------------------------------------------------------- *)
(** *** Moving children to the end, one by one *)

Lemma inList_perm l l' i : Permutation l l' -> inList l i = inList l' i.
Proof. unfold inList. apply existsb_Permutation. Qed.

Lemma filter_eq_single (b : nat) ids :
  NoDup ids -> In b ids -> filter (fun i => Nat.eqb i b) ids = [b].
Proof.
  induction ids as [|x ids IH]; intros Hnd Hin; [contradiction |].
  inversion Hnd as [|? ? Hx Hnd']; subst. simpl.
  destruct (Nat.eqb x b) eqn:E.
  - apply Nat.eqb_eq in E. subst x. f_equal. apply filter_none.
    intros y Hy. apply Nat.eqb_neq. intros ->. contradiction.
  - apply Nat.eqb_neq in E. destruct Hin as [-> | Hin]; [contradiction |].
    now apply IH.
Qed.

Lemma moveLastId_perm b ids : Permutation (moveLastId b ids) ids.
Proof.
  unfold moveLastId. induction ids as [|k ids IH]; [constructor |].
  simpl. destruct (Nat.eqb k b); simpl.
  - apply Permutation_sym. apply Permutation_cons_app.
    now apply Permutation_sym.
  - now constructor.
Qed.

Lemma filter_filter (A : Type) (f h : A -> bool) l :
  filter f (filter h l) = filter (fun x => h x && f x) l.
Proof.
  induction l as [|x l IH]; [reflexivity |]. simpl.
  destruct (h x); simpl; [destruct (f x) |]; now rewrite IH.
Qed.

(** Moving the distinct children [S] to the end one after the other
    leaves the others first, in their order, then [S] in its order. *)
Lemma fold_moveLastId S : forall ids,
  NoDup ids -> NoDup S -> incl S ids ->
  fold_left (fun acc b => moveLastId b acc) S ids
  = filter (fun i => negb (inList S i)) ids ++ S.
Proof.
  induction S as [|s S IH]; intros ids Hnd HS Hincl.
  - simpl. rewrite app_nil_r. symmetry. now apply filter_all.
  - inversion HS as [|? ? Hs HS']; subst. simpl.
    rewrite IH.
    + unfold moveLastId. rewrite filter_app, filter_filter.
      rewrite (@filter_eq_single s ids Hnd (Hincl s (or_introl eq_refl))).
      simpl. assert (Hns : inList S s = false).
      { destruct (inList S s) eqn:E; [| reflexivity].
        apply inList_In in E. contradiction. }
      rewrite Hns. simpl. rewrite <- app_assoc. simpl. f_equal.
      apply filter_ext. intros i. unfold inList. simpl.
      now rewrite negb_orb, andb_comm.
    + apply (Permutation_NoDup (Permutation_sym (moveLastId_perm s ids)) Hnd).
    + exact HS'.
    + intros x Hx.
      apply (Permutation_in _ (Permutation_sym (moveLastId_perm s ids))).
      apply Hincl. now right.
Qed.

Lemma elementKids_app ks1 ks2 :
  elementKids (ks1 ++ ks2) = elementKids ks1 ++ elementKids ks2.
Proof. unfold elementKids. apply flat_map_app. Qed.

Lemma elementKids_filter (h : nat -> bool) (h' : node -> bool) ks :
  (forall e ks', h' (Elem e ks') = h (eid e)) ->
  elementKids (filter h' ks) = filter h (elementKids ks).
Proof.
  intros H. induction ks as [|k ks IH]; [reflexivity |].
  simpl. destruct k as [s|e ks'].
  - destruct (h' (Text s)); simpl; exact IH.
  - rewrite H. unfold elementKids in *. simpl.
    destruct (h (eid e)); simpl; now rewrite IH.
Qed.

Lemma elementKids_moveLast b ks :
  elementKids (moveLast b ks) = moveLastId b (elementKids ks).
Proof.
  unfold moveLast, moveLastId. rewrite elementKids_app. f_equal.
  - apply elementKids_filter. reflexivity.
  - apply elementKids_filter. reflexivity.
Qed.

Lemma kidIds_reorder p b d q :
  wf d ->
  kidIds (reorder p (moveLast b) d) q
  = if Nat.eqb q p then option_map (moveLastId b) (kidIds d q)
    else kidIds d q.
Proof.
  intros Hwf. unfold kidIds.
  rewrite (@locate_reorder p (moveLast b) (moveLast_perm b) d q Hwf).
  destruct (locate q d) as [v|] eqn:Hloc; simpl;
    [| now destruct (Nat.eqb q p)].
  apply locate_some in Hloc. destruct Hloc as [_ Hid].
  unfold kidsAfter. rewrite Hid. destruct (Nat.eqb q p); simpl; f_equal.
  - rewrite elementKids_moveLast. f_equal.
    apply (elementKids_mapKids p (moveLast b)).
  - apply (elementKids_mapKids p (moveLast b)).
Qed.

(* --------------------------------------------------------------------- *)
(** *** Chord blocks and their parents *)

Unset Implicit Arguments.

Lemma chordBlocks_view d b :
  In b (chordBlocks Document d) ->
  exists v, In v (locs (document d)) /\ vid v = b
            /\ matchesView blockSel v = true /\ isChordBlock d b = true.
Proof.
  unfold chordBlocks. simpl. intros H. apply filter_In in H.
  destruct H as [H Hg]. apply in_map_iff in H. destruct H as [v [Hid Hv]].
  apply filter_In in Hv. exists v. tauto.
Qed.

Lemma chordBlocks_NoDup d : wf d -> NoDup (chordBlocks Document d).
Proof.
  intros Hwf. unfold chordBlocks. simpl. apply NoDup_filter.
  apply NoDup_map_filter. apply (wf_parts Hwf).
Qed.

Lemma isBlock_view d v :
  wf d -> In v (locs (document d)) ->
  isBlock d (vid v) = matchesView blockSel v && isChordBlock d (vid v).
Proof.
  intros Hwf Hv. unfold isBlock, matchesSelAt.
  now rewrite (doc_located Hwf v Hv).
Qed.

Lemma chordBlocks_isBlock d b :
  wf d -> In b (chordBlocks Document d) -> isBlock d b = true.
Proof.
  intros Hwf Hb. destruct (chordBlocks_view _ _ Hb) as [v [Hv [<- [Hm Hg]]]].
  rewrite (isBlock_view d v Hwf Hv), Hm, Hg. reflexivity.
Qed.

Lemma isBlock_chordBlocks d v :
  wf d -> In v (locs (document d)) -> isBlock d (vid v) = true ->
  In (vid v) (chordBlocks Document d).
Proof.
  intros Hwf Hv Hb. rewrite (isBlock_view d v Hwf Hv) in Hb.
  apply andb_true_iff in Hb. destruct Hb as [Hm Hg].
  unfold chordBlocks. simpl. apply filter_In. split; [| exact Hg].
  apply in_map. apply filter_In. auto.
Qed.

Lemma in_elementKids i ks :
  In i (elementKids ks) <-> exists e ks', In (Elem e ks') ks /\ eid e = i.
Proof.
  unfold elementKids. rewrite in_flat_map. split.
  - intros [[s|e ks'] [Hk Hi]]; [contradiction |].
    destruct Hi as [<- | []]. eauto.
  - intros [e [ks' [Hk <-]]]. exists (Elem e ks'). split; [assumption | now left].
Qed.

Lemma kid_view anc ks e ks' :
  In (Elem e ks') ks -> In (mkView e ks' anc) (locs_in anc ks).
Proof.
  intros H. unfold locs_in. apply in_flat_map. exists (Elem e ks').
  split; [assumption | now left].
Qed.

Lemma elementKids_in_ids anc ks i :
  In i (elementKids ks) -> In i (map vid (locs_in anc ks)).
Proof.
  intros H. apply in_elementKids in H. destruct H as [e [ks' [Hk <-]]].
  apply (in_map vid _ (mkView e ks' anc)). now apply kid_view.
Qed.

Lemma elementKids_NoDup ks : forall anc,
  NoDup (map vid (locs_in anc ks)) -> NoDup (elementKids ks).
Proof.
  induction ks as [|s ks IH|e ks' ks _ IHf] using forest_ind; intros anc Hnd.
  - constructor.
  - exact (IH anc Hnd).
  - rewrite locs_in_elem in Hnd. simpl in Hnd.
    inversion Hnd as [|? ? Hhead Hrest]; subst. rewrite map_app in Hhead, Hrest.
    change (elementKids (Elem e ks' :: ks)) with (eid e :: elementKids ks).
    constructor.
    + intros Hin. apply Hhead. apply in_or_app. right.
      now apply elementKids_in_ids.
    + apply (IHf anc). now apply NoDup_app_remove_l in Hrest.
Qed.

Lemma kidIds_NoDup d p ids : wf d -> kidIds d p = Some ids -> NoDup ids.
Proof.
  intros Hwf. unfold kidIds.
  destruct (locate p d) as [v|] eqn:Hloc; [| discriminate].
  intros H. injection H as <-. apply locate_some in Hloc.
  destruct Hloc as [Hv _]. destruct (locs_segment _ _ _ Hv) as [l1 [l2 Hseg]].
  fold (locs (allTrees d)) in Hseg. unfold wf, wf_forest in Hwf.
  rewrite Hseg, map_app in Hwf. apply NoDup_app_remove_l in Hwf.
  simpl in Hwf. inversion Hwf as [|? ? _ Hrest]; subst.
  rewrite map_app in Hrest. apply NoDup_app_remove_r in Hrest.
  apply (elementKids_NoDup (kids v) (self v :: above v) Hrest).
Qed.

(** A block is among the element children of its parent. *)
Lemma parent_kid d b p ids :
  wf d -> parentElement d b = Some p -> kidIds d p = Some ids -> In b ids.
Proof.
  intros Hwf Hpar Hk.
  destruct (parentElement_view _ _ Hpar) as [vb [a [rest [Hlocb [Hab Ha]]]]].
  pose proof (locate_some _ _ Hlocb) as [Hvb Hidb].
  destruct (parent_view _ _ Hvb Hab) as [kc [Hvp Hkid]].
  assert (Hlocp : locate p d = Some (mkView a kc rest)).
  { rewrite <- Ha. apply (@locate_found d (mkView a kc rest) Hwf Hvp). }
  unfold kidIds in Hk. rewrite Hlocp in Hk. simpl in Hk. injection Hk as <-.
  apply in_elementKids. exists (self vb), (kids vb). auto.
Qed.

(** An element child of a located element has it as parent. *)
Lemma kid_parent d p vp i :
  wf d -> locate p d = Some vp -> In i (elementKids (kids vp)) ->
  exists vi, In vi (descendants vp) /\ vid vi = i
             /\ parentElement d i = Some p.
Proof.
  intros Hwf Hloc Hi. apply in_elementKids in Hi.
  destruct Hi as [e [ks' [Hk He]]].
  pose proof (locate_some _ _ Hloc) as [Hvp Hidp].
  set (vi := mkView e ks' (self vp :: above vp)).
  assert (Hvi : In vi (descendants vp)) by now apply kid_view.
  exists vi. split; [exact Hvi |]. split; [exact He |].
  assert (Hvi' : In vi (locs (allTrees d)))
    by exact (descendants_in _ _ vp vi Hvp Hvi).
  unfold parentElement. rewrite <- He.
  change (eid e) with (vid vi). rewrite (@locate_found d vi Hwf Hvi').
  simpl. now rewrite <- Hidp.
Qed.

Lemma matchesSelAt_shape sel d d' i :
  shape d' i = shape d i -> matchesSelAt sel d' i = matchesSelAt sel d i.
Proof.
  unfold shape, matchesSelAt, matchesView.
  destruct (locate i d') as [v'|], (locate i d) as [v|]; simpl;
    try discriminate; [| reflexivity].
  intros H. injection H as -> ->. reflexivity.
Qed.

Lemma StronglySorted_ext_in (R R' : nat -> nat -> Prop) l :
  (forall a b, In a l -> In b l -> R a b -> R' a b) ->
  StronglySorted R l -> StronglySorted R' l.
Proof.
  intros H Hs. induction Hs as [|x l Hs IH Hx]; constructor.
  - apply IH. intros a b Ha Hb. apply H; now right.
  - rewrite Forall_forall in *. intros y Hy.
    apply H; [now left | now right | now apply Hx].
Qed.

(* --------------------------------------------------------------------- *)
(** *** What a sort keeps *)

Section Sorting.

Variable nfc : jsstring -> jsstring.
Variable cmp : jsstring -> jsstring -> Z.
Variable d0 : dom.
Hypothesis Hwf0 : wf d0.
Hypothesis Hapart : blocksApart d0.

(** No ancestor of a chord block is a chord block. *)
Lemma block_above_free s vs e :
  In vs (locs (document d0)) -> vid vs = s ->
  In s (chordBlocks Document d0) ->
  In e (above vs) -> ~ In (eid e) (chordBlocks Document d0).
Proof.
  intros Hvs Hid Hs He Hb. apply in_split in He.
  destruct He as [pre [post Hab]].
  destruct (ancestor_view (document d0) [] vs pre e post Hvs) as [kc [Hc Hd]].
  { now rewrite app_nil_r. }
  rewrite app_nil_r in *.
  apply (Hapart (mkView e kc post) vs Hc Hb Hd). now rewrite Hid.
Qed.

(** The parent of a chord block is neither a protected view nor below
    one. *)
Lemma not_under_protected s p v :
  In s (chordBlocks Document d0) -> parentElement d0 s = Some p ->
  In v (locs (allTrees d0)) -> protected d0 v ->
  vid v <> p /\ ~ In p (map vid (descendants v)).
Proof.
  intros Hs Hpar Hv [e [He Hb]].
  destruct (chordBlocks_view _ _ Hs) as [vs [Hvs [Hid _]]].
  destruct (@parentElement_view d0 s p Hpar) as [vs' [a [rest [Hloc [Hab Ha]]]]].
  assert (vs' = vs).
  { pose proof (doc_located Hwf0 vs Hvs) as H. rewrite Hid, Hloc in H.
    now injection H. }
  subst vs'.
  assert (Hvs' : In vs (locs (allTrees d0))).
  { rewrite locs_allTrees. apply in_or_app. now left. }
  destruct (@parent_view (allTrees d0) vs a rest Hvs' Hab) as [kc [Hvp _]].
  set (vp := mkView a kc rest) in *.
  assert (Hfree : forall x, In x (a :: rest) ->
                    ~ In (eid x) (chordBlocks Document d0)).
  { intros x Hx. rewrite <- Hab in Hx.
    exact (block_above_free s vs x Hvs Hid Hs Hx). }
  split.
  - intros Hp. assert (v = vp).
    { apply (view_unique (locs (allTrees d0))); auto. now rewrite Hp. }
    subst v. exact (Hfree e He Hb).
  - intros Hin. apply in_map_iff in Hin. destruct Hin as [w [Hw Hd]].
    assert (w = vp).
    { apply (view_unique (locs (allTrees d0))); auto.
      - exact (descendants_in _ _ v w Hv Hd).
      - now rewrite Hw. }
    subst w. destruct (descendant_above _ _ Hd) as [rel Hrel].
    simpl in Hrel. apply (Hfree e); [| exact Hb].
    right. rewrite Hrel. apply in_or_app. now right.
Qed.

Lemma settled_refl : settled d0 d0.
Proof.
  split; [assumption |]. split; [reflexivity |]. split; [reflexivity |].
  split; [| reflexivity]. intros v Hv _. now apply locate_found.
Qed.

Lemma settled_parent d i :
  settled d0 d -> parentElement d i = parentElement d0 i.
Proof.
  intros [_ [H _]]. now rewrite !parentElement_shape, H.
Qed.

Lemma settled_move d p s :
  In s (chordBlocks Document d0) -> parentElement d0 s = Some p ->
  settled d0 d -> settled d0 (reorder p (moveLast s) d).
Proof.
  intros Hs Hpar [Hwf [Hshape [Hguard [Hprot Hperm]]]].
  pose proof (moveLast_perm s) as Hg.
  split; [exact (@reorder_wf p (moveLast s) Hg d Hwf) |].
  split; [| split; [| split]].
  - intros i. now rewrite (@shape_reorder p (moveLast s) Hg d i Hwf).
  - intros i. now rewrite (@isChordBlock_reorder p (moveLast s) Hg d i Hwf).
  - intros v Hv Hpr.
    rewrite (@locate_reorder p (moveLast s) Hg d (vid v) Hwf).
    rewrite (Hprot v Hv Hpr). simpl. f_equal.
    destruct (not_under_protected s p v Hs Hpar Hv Hpr) as [H1 H2].
    exact (@vmapKids_outside p (moveLast s) v H1 H2).
  - now rewrite (@selves_reorder p (moveLast s) Hg d).
Qed.

(** The chord key of a chord block does not change during the sort. *)
Lemma chordKey_settled d b :
  settled d0 d -> In b (chordBlocks Document d0) ->
  chordKey nfc d b = chordKey nfc d0 b.
Proof.
  intros [_ [_ [_ [Hprot _]]]] Hb.
  destruct (chordBlocks_view _ _ Hb) as [vb [Hvb [Hid _]]].
  assert (Hvb' : In vb (locs (allTrees d0))).
  { rewrite locs_allTrees. apply in_or_app. now left. }
  assert (Hpb : protected d0 vb).
  { exists (self vb). split; [now left |]. unfold vid in Hid. now rewrite Hid. }
  assert (Hlocd : locate b d = Some vb) by (rewrite <- Hid; now apply Hprot).
  assert (Hloc0 : locate b d0 = Some vb)
    by (rewrite <- Hid; now apply locate_found).
  unfold chordKey, querySelector, querySelectorAll. rewrite Hlocd, Hloc0.
  destruct (map vid (filter (matchesView spanSel) (descendants vb)))
    as [|s rest] eqn:Hq; [reflexivity |].
  simpl hd_error.
  assert (Hs : In s (map vid (filter (matchesView spanSel) (descendants vb))))
    by (rewrite Hq; now left).
  apply in_map_iff in Hs. destruct Hs as [ws [Hws Hin]].
  apply filter_In in Hin. destruct Hin as [Hin _].
  assert (Hws' : In ws (locs (allTrees d0)))
    by exact (descendants_in _ _ vb ws Hvb' Hin).
  assert (Hps : protected d0 ws).
  { exists (self vb). split; [| unfold vid in Hid; now rewrite Hid].
    right. destruct (descendant_above _ _ Hin) as [rel ->].
    apply in_or_app. right. now left. }
  unfold textContent. rewrite <- Hws.
  rewrite (Hprot ws Hws' Hps), (@locate_found d0 ws Hwf0 Hws').
  reflexivity.
Qed.

(** The blocks [S] of parent [p] appended one after the other. *)
Lemma appendAll_sorting p S : forall d,
  settled d0 d ->
  (forall s, In s S ->
     In s (chordBlocks Document d0) /\ parentElement d0 s = Some p) ->
  exists d',
    appendAll p S d = Done d' /\ settled d0 d'
    /\ kidIds d' p
       = option_map (fold_left (fun acc s => moveLastId s acc) S) (kidIds d p)
    /\ forall q, q <> p -> kidIds d' q = kidIds d q.
Proof.
  induction S as [|s S IH]; intros d Hst HS.
  - exists d. split; [reflexivity |]. split; [assumption |]. split.
    + simpl. now destruct (kidIds d p).
    + reflexivity.
  - destruct (HS s (or_introl eq_refl)) as [Hs Hpar].
    assert (Hwf : wf d) by apply Hst.
    simpl appendAll.
    rewrite (@appendChild_child d p s Hwf) by (now rewrite settled_parent).
    destruct (IH (reorder p (moveLast s) d)) as [d' [Hrun [Hst' [Hp Hq]]]].
    + now apply settled_move.
    + intros x Hx. apply HS. now right.
    + exists d'. split; [exact Hrun |]. split; [exact Hst' |]. split.
      * rewrite Hp, (@kidIds_reorder p s d p Hwf), Nat.eqb_refl.
        simpl fold_left. now destruct (kidIds d p).
      * intros q Hne. rewrite (Hq q Hne), (@kidIds_reorder p s d q Hwf).
        apply Nat.eqb_neq in Hne. now rewrite Hne.
Qed.

End Sorting.

(* --------------------------------------------------------------------- *)
(** *** The byParent map *)

Lemma pushTo_keys p b m k :
  In k (map fst (pushTo p b m)) -> k = p \/ In k (map fst m).
Proof.
  induction m as [|[q l] m IH]; simpl.
  - intros [<- | []]. now left.
  - destruct (Nat.eqb q p); simpl.
    + intros [<- | H]; auto.
    + intros [<- | H]; [auto |]. destruct (IH H); auto.
Qed.

Lemma pushTo_keys_NoDup p b m :
  NoDup (map fst m) -> NoDup (map fst (pushTo p b m)).
Proof.
  induction m as [|[q l] m IH]; simpl; intros Hnd.
  - repeat constructor. intros [].
  - inversion Hnd as [|? ? Hq Hnd']; subst.
    destruct (Nat.eqb q p) eqn:E; simpl; [now constructor |].
    constructor; [| now apply IH]. intros Hin.
    apply pushTo_keys in Hin. apply Nat.eqb_neq in E.
    destruct Hin; [congruence | contradiction].
Qed.

Lemma pushTo_cases p b m q l :
  NoDup (map fst m) -> In (q, l) (pushTo p b m) ->
  (q <> p /\ In (q, l) m)
  \/ (q = p /\ ((exists l', In (p, l') m /\ l = l' ++ [b])
               \/ (~ In p (map fst m) /\ l = [b]))).
Proof.
  induction m as [|[q' l'] m IH]; simpl; intros Hnd Hin.
  - destruct Hin as [H | []]. injection H as <- <-. right. auto.
  - inversion Hnd as [|? ? Hq Hnd']; subst.
    destruct (Nat.eqb q' p) eqn:E.
    + apply Nat.eqb_eq in E. subst q'. destruct Hin as [H | H].
      * injection H as <- <-. right. split; [reflexivity |]. left. eauto.
      * left. split; [| now right]. intros ->. apply Hq.
        now apply (in_map fst _ (p, l)).
    + apply Nat.eqb_neq in E. destruct Hin as [H | H].
      * injection H as <- <-. left. auto.
      * destruct (IH Hnd' H) as [[H1 H2] | [H1 [[l0 [H2 H3]] | [H2 H3]]]].
        -- left. auto.
        -- right. split; [assumption |]. left. eauto.
        -- right. split; [assumption |]. right. split; [| assumption].
           intros [H4 | H4]; [congruence | contradiction].
Qed.

Lemma pushTo_has p b m : exists l, In (p, l) (pushTo p b m) /\ In b l.
Proof.
  induction m as [|[q l] m IH]; simpl.
  - exists [b]. split; now left.
  - destruct (Nat.eqb q p) eqn:E.
    + apply Nat.eqb_eq in E. subst q. exists (l ++ [b]).
      split; [now left |]. apply in_or_app. right. now left.
    + destruct IH as [l' [H1 H2]]. exists l'. split; [now right | assumption].
Qed.

Lemma pushTo_keeps p b m q l x :
  In (q, l) m -> In x l -> exists l', In (q, l') (pushTo p b m) /\ In x l'.
Proof.
  induction m as [|[q' l'] m IH]; simpl; [contradiction |].
  intros [H | H] Hx.
  - injection H as -> ->. destruct (Nat.eqb q p) eqn:E.
    + exists (l ++ [b]). split; [now left |]. apply in_or_app. now left.
    + exists l. split; [now left | assumption].
  - destruct (Nat.eqb q' p).
    + exists l. split; [now right | assumption].
    + destruct (IH H Hx) as [l0 [H1 H2]]. exists l0.
      split; [now right | assumption].
Qed.

Lemma grouped_push d seen m b :
  grouped d seen m -> ~ In b seen ->
  grouped d (seen ++ [b])
    match parentElement d b with
    | Some p => pushTo p b m
    | None => m
    end.
Proof.
  intros [Hkeys [Hmem [Hall Hnd]]] Hb.
  destruct (parentElement d b) as [p|] eqn:Hp.
  - split; [now apply pushTo_keys_NoDup |]. split; [| split].
    + intros q l x Hq Hx.
      destruct (pushTo_in _ _ _ _ _ _ Hq Hx) as [[-> ->] | [l' [H1 H2]]].
      * split; [apply in_or_app; right; now left | assumption].
      * destruct (Hmem q l' x H1 H2) as [H3 H4].
        split; [apply in_or_app; now left | assumption].
    + intros x q Hx Hq. apply in_app_or in Hx.
      destruct Hx as [Hx | [<- | []]].
      * destruct (Hall x q Hx Hq) as [l [H1 H2]].
        exact (pushTo_keeps p b m q l x H1 H2).
      * rewrite Hp in Hq. injection Hq as <-. apply pushTo_has.
    + intros q l Hq.
      destruct (pushTo_cases p b m q l Hkeys Hq)
        as [[_ H] | [-> [[l' [H1 ->]] | [_ ->]]]].
      * exact (Hnd q l H).
      * apply NoDup_app_intro; [exact (Hnd p l' H1) | |].
        -- repeat constructor. intros [].
        -- intros x Hx [E | []]. subst x. apply Hb.
           now apply (Hmem p l' b H1).
      * repeat constructor. intros [].
  - split; [assumption |]. split; [| split; [| assumption]].
    + intros q l x Hq Hx. destruct (Hmem q l x Hq Hx) as [H1 H2].
      split; [apply in_or_app; now left | assumption].
    + intros x q Hx Hq. apply in_app_or in Hx.
      destruct Hx as [Hx | [<- | []]]; [now apply Hall | congruence].
Qed.

Lemma groupByParent_grouped d blocks :
  NoDup blocks -> grouped d blocks (groupByParent d blocks).
Proof.
  unfold groupByParent.
  assert (H : forall rest seen m,
            NoDup (seen ++ rest) -> grouped d seen m ->
            grouped d (seen ++ rest)
              (fold_left
                 (fun m b => match parentElement d b with
                             | Some p => pushTo p b m
                             | None => m
                             end) rest m)).
  { induction rest as [|b rest IH]; intros seen m Hnd Hg.
    - simpl. now rewrite app_nil_r.
    - simpl. replace (seen ++ b :: rest) with ((seen ++ [b]) ++ rest)
        by (now rewrite <- app_assoc).
      apply IH; [now rewrite <- app_assoc |].
      apply grouped_push; [assumption |].
      intros Hin. eapply NoDup_remove_2; [exact Hnd |].
      apply in_or_app. now left. }
  intros Hnd. apply (H blocks [] []); [assumption |].
  split; [constructor |]. split; [intros p l b [] |].
  split; [intros b p [] | intros p l []].
Qed.

Lemma keyed_unique (m : list (nat * list nat)) p l l' :
  NoDup (map fst m) -> In (p, l) m -> In (p, l') m -> l = l'.
Proof.
  induction m as [|[q l0] m IH]; simpl; intros Hnd H1 H2; [contradiction |].
  inversion Hnd as [|? ? Hq Hnd']; subst.
  destruct H1 as [H1 | H1], H2 as [H2 | H2].
  - congruence.
  - injection H1 as -> ->. exfalso. apply Hq.
    now apply (in_map fst _ (p, l')).
  - injection H2 as -> ->. exfalso. apply Hq.
    now apply (in_map fst _ (p, l)).
  - now apply IH.
Qed.

(* --------------------------------------------------------------------- *)
(** *** Group after group *)

Section SortingGroups.

Variable nfc : jsstring -> jsstring.
Variable cmp : jsstring -> jsstring -> Z.
Variable d0 : dom.
Hypothesis Hwf0 : wf d0.
Hypothesis Hapart : blocksApart d0.

Lemma sortGroups_sorting groups : forall done d,
  NoDup (map fst (done ++ groups)) ->
  (forall p l, In (p, l) groups ->
     NoDup l /\ forall b, In b l ->
       In b (chordBlocks Document d0) /\ parentElement d0 b = Some p) ->
  sortingState nfc cmp d0 done d ->
  exists d',
    sortGroups nfc cmp groups d = Done d'
    /\ sortingState nfc cmp d0 (done ++ groups) d'.
Proof.
  induction groups as [|[p l] groups IH];
    intros done d Hkeys Hgr [Hst [Hother Hdone]].
  - exists d. rewrite app_nil_r. split; [reflexivity |]. now split.
  - destruct (Hgr p l (or_introl eq_refl)) as [Hndl Hl].
    assert (HS : sortBy (compareBlocks nfc cmp d) l
                 = sortBy (compareBlocks nfc cmp d0) l).
    { apply sortBy_ext. intros a b Ha Hb. unfold compareBlocks.
      rewrite (chordKey_settled nfc d0 Hwf0 d a Hst (proj1 (Hl a Ha))).
      rewrite (chordKey_settled nfc d0 Hwf0 d b Hst (proj1 (Hl b Hb))).
      reflexivity. }
    simpl sortGroups. rewrite HS.
    set (S := sortBy (compareBlocks nfc cmp d0) l) in *.
    assert (HSl : Permutation S l) by apply sortBy_perm.
    destruct (appendAll_sorting d0 Hwf0 Hapart p S d Hst)
      as [d1 [Hrun [Hst1 [Hp Hq]]]].
    { intros s Hs. apply Hl. exact (Permutation_in _ HSl Hs). }
    rewrite Hrun.
    assert (Hpnot : ~ In p (map fst done)).
    { rewrite map_app in Hkeys. simpl in Hkeys.
      apply NoDup_remove_2 in Hkeys. intros Hin. apply Hkeys.
      apply in_or_app. now left. }
    destruct (IH (done ++ [(p, l)]) d1) as [d' [Hrun' Hfin]].
    + now rewrite <- app_assoc.
    + intros q l' Hin. apply Hgr. now right.
    + split; [exact Hst1 |]. split.
      * intros q Hq'. rewrite map_app in Hq'. simpl in Hq'.
        assert (q <> p).
        { intros ->. apply Hq'. apply in_or_app. right. now left. }
        rewrite (Hq q H). apply Hother. intros Hin. apply Hq'.
        apply in_or_app. now left.
      * intros p' l' Hin. apply in_app_or in Hin.
        destruct Hin as [Hin | [Heq | []]].
        -- assert (p' <> p).
           { intros ->. apply Hpnot. now apply (in_map fst _ (p, l')). }
           rewrite (Hq p' H). now apply Hdone.
        -- injection Heq as <- <-. rewrite Hp, (Hother p Hpnot).
           destruct (kidIds d0 p) as [ids0|] eqn:Hk; [| reflexivity].
           simpl. f_equal. rewrite fold_moveLastId.
           ++ f_equal. apply filter_ext. intros i. f_equal.
              now apply inList_perm.
           ++ exact (kidIds_NoDup d0 p ids0 Hwf0 Hk).
           ++ exact (Permutation_NoDup (Permutation_sym HSl) Hndl).
           ++ intros s Hs. apply (@parent_kid d0 s p ids0 Hwf0); [| exact Hk].
              apply Hl. exact (Permutation_in _ HSl Hs).
    + exists d'. split; [exact Hrun' |]. now rewrite <- app_assoc in Hfin.
Qed.

End SortingGroups.

Lemma blocksApartb_sound d : blocksApartb d = true -> blocksApart d.
Proof.
  unfold blocksApartb, blocksApart. intros H v w Hv Hb Hw Hw'.
  rewrite forallb_forall in H. specialize (H v Hv).
  apply inList_In in Hb. rewrite Hb in H. simpl in H.
  rewrite forallb_forall in H. specialize (H w Hw).
  apply inList_In in Hw'. rewrite Hw' in H. discriminate.
Qed.

(** C2 (as amended): for a document with at least two chord blocks, none
    of them inside another one, and a comparator that orders the chord
    keys consistently, sortChordBlocks returns normally and leaves, under
    every parent element, the chord blocks among its children in
    nondecreasing order of their chord key. *)
Theorem sortChordBlocks_sorts nfc cmp d :
  wf d -> consistentComparator cmp -> blocksApart d ->
  2 <= List.length (chordBlocks Document d) ->
  exists d',
    sortChordBlocks nfc cmp Document d = Done d'
    /\ forall vp, In vp (locs (document d')) ->
         StronglySorted (keyLe nfc cmp d') (blockKids d' vp).
Proof.
  intros Hwf [Htot Htrans] Hapart Hlen. unfold sortChordBlocks.
  assert (E : (List.length (chordBlocks Document d) <? 2) = false)
    by (apply Nat.ltb_ge; lia).
  rewrite E.
  pose proof (groupByParent_grouped d _ (chordBlocks_NoDup d Hwf))
    as [Gkeys [Gmem [Gall Gnd]]].
  set (G := groupByParent d (chordBlocks Document d)) in *.
  destruct (sortGroups_sorting nfc cmp d Hwf Hapart G [] d) as [d' [Hrun Hfin]].
  { exact Gkeys. }
  { intros p l Hin. split; [exact (Gnd p l Hin) |].
    intros b Hb. exact (Gmem p l b Hin Hb). }
  { split; [now apply settled_refl |]. split; [reflexivity | intros p l []]. }
  exists d'. split; [exact Hrun |]. simpl app in Hfin.
  destruct Hfin as [Hst [Hother Hdone]].
  pose proof Hst as [Hwf' [Hshape [Hguard [Hprot Hperm]]]].
  intros vp Hvp. set (p := vid vp).
  assert (Hkp' : kidIds d' p = Some (elementKids (kids vp))).
  { unfold kidIds, p. now rewrite (@doc_located d' Hwf' vp Hvp). }
  assert (H0 : exists v0, In v0 (locs (document d)) /\ vid v0 = p).
  { pose proof (in_map self _ _ Hvp) as Hs.
    apply (Permutation_in _ Hperm) in Hs. apply in_map_iff in Hs.
    destruct Hs as [v0 [Hs Hv0]]. exists v0. split; [assumption |].
    unfold p, vid. now rewrite Hs. }
  destruct H0 as [v0 [Hv0 Hid0]].
  assert (Hlocp0 : locate p d = Some v0)
    by (rewrite <- Hid0; now apply (@doc_located d Hwf)).
  assert (Hk0 : kidIds d p = Some (elementKids (kids v0))).
  { unfold kidIds. now rewrite Hlocp0. }
  assert (HisBlock : forall i, isBlock d' i = isBlock d i).
  { intros i. unfold isBlock.
    now rewrite (matchesSelAt_shape blockSel d d' i (Hshape i)), Hguard. }
  assert (Hkid : forall i, In i (elementKids (kids v0)) -> isBlock d i = true ->
            In i (chordBlocks Document d) /\ parentElement d i = Some p).
  { intros i Hi Hb.
    destruct (kid_parent d p v0 i Hwf Hlocp0 Hi) as [vi [Hvi [Hidi Hpar]]].
    split; [| exact Hpar]. rewrite <- Hidi.
    apply isBlock_chordBlocks; [assumption | | now rewrite Hidi].
    exact (descendants_in _ _ v0 vi Hv0 Hvi). }
  unfold blockKids. rewrite (filter_ext _ _ HisBlock).
  destruct (in_dec Nat.eq_dec p (map fst G)) as [Hin | Hnin].
  - apply in_map_iff in Hin. destruct Hin as [[p' l] [Hfst Hin]].
    simpl in Hfst. subst p'.
    specialize (Hdone p l Hin). rewrite Hk0, Hkp' in Hdone. simpl in Hdone.
    injection Hdone as Hkids. rewrite Hkids, filter_app.
    rewrite (@filter_none nat (isBlock d)), (@filter_all nat (isBlock d)).
    + simpl.
      apply StronglySorted_ext_in
        with (R := fun a b => (compareBlocks nfc cmp d a b <= 0)%Z).
      * intros a b Ha Hb Hab. unfold keyLe, compareBlocks.
        assert (Hblocks : forall x,
                  In x (sortBy (compareBlocks nfc cmp d) l) ->
                  In x (chordBlocks Document d)).
        { intros x Hx. apply (Gmem p l x Hin).
          exact (Permutation_in _ (sortBy_perm _ l) Hx). }
        rewrite (chordKey_settled nfc d Hwf d' a Hst (Hblocks a Ha)).
        rewrite (chordKey_settled nfc d Hwf d' b Hst (Hblocks b Hb)).
        exact Hab.
      * apply sortBy_sorted.
        -- intros a b. apply Htot.
        -- intros a b x. apply Htrans.
    + intros x Hx. apply chordBlocks_isBlock; [assumption |].
      apply (Gmem p l x Hin). exact (Permutation_in _ (sortBy_perm _ l) Hx).
    + intros i Hi. apply filter_In in Hi. destruct Hi as [Hi Hnl].
      destruct (isBlock d i) eqn:Hb; [exfalso | reflexivity].
      destruct (Hkid i Hi Hb) as [Hblock Hpar].
      destruct (Gall i p Hblock Hpar) as [l' [Hin' Hil']].
      rewrite (keyed_unique G p l l' Gkeys Hin Hin') in Hnl.
      apply inList_In in Hil'. rewrite Hil' in Hnl. discriminate.
  - rewrite (Hother p Hnin), Hk0 in Hkp'. injection Hkp' as Hkids.
    rewrite <- Hkids, (@filter_none nat (isBlock d)); [constructor |].
    intros i Hi. destruct (isBlock d i) eqn:Hb; [exfalso | reflexivity].
    destruct (Hkid i Hi Hb) as [Hblock Hpar].
    destruct (Gall i p Hblock Hpar) as [l' [Hin' _]].
    apply Hnin. now apply (in_map fst _ (p, l')).
Qed.

(* --------------------------------------------------------------------- *)
(** *** A concrete comparator, and documents *)

Lemma compareBase_total a : forall b,
  (compareBase a b <= 0)%Z \/ (compareBase b a <= 0)%Z.
Proof.
  induction a as [|x a IH]; intros [|y b]; simpl; try (left; lia); try (right; lia).
  rewrite (N.compare_antisym (asciiLower x) (asciiLower y)).
  destruct (asciiLower x ?= asciiLower y)%N; simpl.
  - apply IH.
  - left. lia.
  - right. lia.
Qed.

Lemma compareBase_trans a : forall b c,
  (compareBase a b <= 0)%Z -> (compareBase b c <= 0)%Z ->
  (compareBase a c <= 0)%Z.
Proof.
  induction a as [|x a IH]; intros [|y b] [|z c]; simpl; try lia.
  destruct (N.compare_spec (asciiLower x) (asciiLower y)) as [Hxy | Hxy | Hxy];
    destruct (N.compare_spec (asciiLower y) (asciiLower z)) as [Hyz | Hyz | Hyz];
    destruct (N.compare_spec (asciiLower x) (asciiLower z)) as [Hxz | Hxz | Hxz];
    try lia; try (intros; lia).
  apply IH.
Qed.

Lemma compareBase_consistent : consistentComparator compareBase.
Proof.
  split; [intros a b; apply compareBase_total |].
  intros a b c. apply compareBase_trans.
Qed.

Lemma threeBlocks_wf : wf threeBlocks.
Proof. apply wfb_sound. vm_compute. reflexivity. Qed.

Lemma threeBlocks_apart : blocksApart threeBlocks.
Proof. apply blocksApartb_sound. vm_compute. reflexivity. Qed.

Lemma threeBlocks_count : 2 <= List.length (chordBlocks Document threeBlocks).
Proof. vm_compute. repeat constructor. Qed.

Lemma sortChordBlocks_sorts_witness :
  wf threeBlocks /\ consistentComparator compareBase
  /\ blocksApart threeBlocks
  /\ 2 <= List.length (chordBlocks Document threeBlocks)
  /\ exists d',
       sortChordBlocks nfcOfNormal compareBase Document threeBlocks = Done d'
       /\ forall vp, In vp (locs (document d')) ->
            StronglySorted (keyLe nfcOfNormal compareBase d') (blockKids d' vp).
Proof.
  split; [exact threeBlocks_wf |]. split; [exact compareBase_consistent |].
  split; [exact threeBlocks_apart |]. split; [exact threeBlocks_count |].
  exact (sortChordBlocks_sorts nfcOfNormal compareBase threeBlocks
           threeBlocks_wf compareBase_consistent threeBlocks_apart
           threeBlocks_count).
Defined.

(** C2 as stated fails: the outer block is placed by the key "Z" of its
    first label; sorting its own children afterwards brings the label "A"
    first, so in the end it stands after the block "M" with the key "A". *)
Lemma sort_leaves_nested_unsorted :
  wf nestedBlocks
  /\ 2 <= List.length (chordBlocks Document nestedBlocks)
  /\ consistentComparator compareBase
  /\ sortChordBlocks nfcOfNormal compareBase Document nestedBlocks
     = Done sortedNested
  /\ locate_in 1 (document sortedNested) = Some (viewAt sortedNested 1)
  /\ blockKids sortedNested (viewAt sortedNested 1) = [11; 2]
  /\ chordKey nfcOfNormal sortedNested 11 = lit "M"
  /\ chordKey nfcOfNormal sortedNested 2 = lit "A"
  /\ ~ StronglySorted (keyLe nfcOfNormal compareBase sortedNested)
         (blockKids sortedNested (viewAt sortedNested 1)).
Proof.
  split; [apply wfb_sound; vm_compute; reflexivity |].
  split; [vm_compute; repeat constructor |].
  split; [exact compareBase_consistent |].
  split; [vm_compute; reflexivity |].
  split; [vm_compute; reflexivity |].
  assert (Hkids : blockKids sortedNested (viewAt sortedNested 1) = [11; 2])
    by (vm_compute; reflexivity).
  split; [exact Hkids |].
  split; [vm_compute; reflexivity |].
  split; [vm_compute; reflexivity |].
  rewrite Hkids. intros H. inversion H as [|? ? _ Hall]; subst.
  inversion Hall as [|? ? Hle _]; subst. unfold keyLe in Hle.
  assert (E : compareBlocks nfcOfNormal compareBase sortedNested 11 2 = 1%Z)
    by (vm_compute; reflexivity).
  rewrite E in Hle. lia.
Qed.

(* ===================================================================== *)
(** ** normalize and chordKey *)
(* ===================================================================== *)

Lemma trimStart_app s t :
  trimStart (s ++ t)
  = if forallb isWhiteSpace s then trimStart t else trimStart s ++ t.
Proof.
  induction s as [|c s IH]; simpl; [reflexivity |].
  destruct (isWhiteSpace c); simpl; [exact IH | reflexivity].
Qed.

Lemma trimStart_blank s : forallb isWhiteSpace s = true -> trimStart s = [].
Proof.
  induction s as [|c s IH]; simpl; [reflexivity |].
  destruct (isWhiteSpace c); simpl; [exact IH | discriminate].
Qed.

Lemma forallb_rev (A : Type) (p : A -> bool) (l : list A) :
  forallb p (rev l) = forallb p l.
Proof.
  induction l as [|x l IH]; simpl; [reflexivity |].
  rewrite forallb_app, IH. simpl. rewrite andb_true_r. apply andb_comm.
Qed.

Lemma trimEnd_app s t :
  forallb isWhiteSpace t = true -> trimEnd (s ++ t) = trimEnd s.
Proof.
  intros Ht. unfold trimEnd. rewrite rev_app_distr, trimStart_app.
  now rewrite forallb_rev, Ht.
Qed.

Lemma trimEnd_blank s : forallb isWhiteSpace s = true -> trimEnd s = [].
Proof.
  intros Hs. unfold trimEnd. rewrite trimStart_blank; [reflexivity |].
  now rewrite forallb_rev.
Qed.

Lemma trim_outer ws1 s ws2 :
  forallb isWhiteSpace ws1 = true -> forallb isWhiteSpace ws2 = true ->
  trim (ws1 ++ s ++ ws2) = trim s.
Proof.
  intros H1 H2. unfold trim. rewrite trimStart_app, H1, trimStart_app.
  destruct (forallb isWhiteSpace s) eqn:Hs.
  - rewrite (trimStart_blank ws2 H2), (trimStart_blank s Hs). reflexivity.
  - now apply trimEnd_app.
Qed.

(** normalize does not see the white space around a text: a label reads
    the same with blanks, tabs or line breaks before and after it. *)
Theorem normalize_outer_whitespace nfc ws1 s ws2 :
  forallb isWhiteSpace ws1 = true -> forallb isWhiteSpace ws2 = true ->
  normalize nfc (ws1 ++ s ++ ws2) = normalize nfc s.
Proof.
  intros H1 H2. unfold normalize. now rewrite trim_outer.
Qed.

Lemma normalize_outer_whitespace_witness :
  forallb isWhiteSpace [10; 32; 32]%N = true
  /\ forallb isWhiteSpace [160; 9]%N = true
  /\ normalize nfcOfNormal ([10; 32; 32]%N ++ lit "Summary" ++ [160; 9]%N)
     = normalize nfcOfNormal (lit "Summary").
Proof.
  split; [reflexivity |]. split; [reflexivity |].
  apply (normalize_outer_whitespace nfcOfNormal [10; 32; 32]%N
           (lit "Summary") [160; 9]%N); reflexivity.
Defined.

(** A chord key holds no white space and none of the glyphs for minor,
    flat and sharp: whatever the label, the key compared by the sort is
    written with their ASCII stand-ins. *)
Theorem chordKey_plain nfc d el :
  Forall (fun c => isWhiteSpace c = false
                   /\ c <> SUBSCRIPT_M /\ c <> FLAT /\ c <> SHARP)
         (chordKey nfc d el).
Proof.
  unfold chordKey.
  generalize (normalize nfc
                match querySelector (Element el) spanSel d with
                | Some s => textContent d s
                | None => []
                end).
  intros t. induction t as [|c t IH]; simpl; [constructor |].
  destruct (isWhiteSpace c) eqn:Hws; simpl; [exact IH |].
  constructor; [| exact IH].
  destruct (N.eqb_spec c SUBSCRIPT_M) as [-> | Hm]; [vm_compute; repeat split; discriminate |].
  destruct (N.eqb_spec c FLAT) as [-> | Hf]; [vm_compute; repeat split; discriminate |].
  destruct (N.eqb_spec c SHARP) as [-> | Hs]; [vm_compute; repeat split; discriminate |].
  repeat split; assumption.
Qed.

(* ===================================================================== *)
(** ** The container of a label and the chord-diagram guard *)
(* ===================================================================== *)

Lemma matchesSel_simple c e anc : matchesSel [[c]] e anc = matchesCompound c e.
Proof. exact (@matches_simple c (mkView e [] anc)). Qed.

Lemma closestFrom_simple c : forall anc e,
  match closestFrom [[c]] e anc with
  | Some k =>
      exists pre ec post,
        e :: anc = pre ++ ec :: post /\ eid ec = k
        /\ matchesCompound c ec = true
        /\ forall x, In x pre -> matchesCompound c x = false
  | None => forall x, In x (e :: anc) -> matchesCompound c x = false
  end.
Proof.
  induction anc as [|a anc IH]; intros e; cbn [closestFrom];
    rewrite matchesSel_simple; destruct (matchesCompound c e) eqn:He.
  - exists [], e, []. repeat split; auto. intros x [].
  - intros x [<- | []]. exact He.
  - exists [], e, (a :: anc). repeat split; auto. intros x [].
  - specialize (IH a). destruct (closestFrom [[c]] a anc) as [k|].
    + destruct IH as [pre [ec [post [Heq [Hid [Hm Hpre]]]]]].
      exists (e :: pre), ec, post. rewrite Heq. repeat split; auto.
      intros x [<- | Hx]; [exact He | now apply Hpre].
    + intros x [<- | Hx]; [exact He | now apply IH].
Qed.

Lemma blockSel_wrapper e :
  matchesCompound (mkCompound (Some (lit "div")) [deu1fhf] []) e = isWrapper e.
Proof.
  unfold matchesCompound, isWrapper, isDiv. simpl.
  now rewrite !andb_true_r.
Qed.

Lemma divSel_div e :
  matchesCompound (mkCompound (Some (lit "div")) [] []) e = isDiv e.
Proof.
  unfold matchesCompound, isDiv. simpl. now rewrite !andb_true_r.
Qed.

(** chordContainerFor answers with the nearest [div.deu1fhf] at or above
    the label, even when a plain [div] stands nearer; without any
    [div.deu1fhf] it answers with the nearest [div]; it has no answer
    exactly when the label is in no [div] at all. *)
Theorem chordContainerFor_spec d span v :
  locate span d = Some v ->
  match chordContainerFor d span with
  | Some c =>
      exists pre ec post,
        self v :: above v = pre ++ ec :: post /\ eid ec = c
        /\ ((isWrapper ec = true /\ forall x, In x pre -> isWrapper x = false)
            \/ (isDiv ec = true
                /\ (forall x, In x pre -> isDiv x = false)
                /\ forall x, In x (self v :: above v) -> isWrapper x = false))
  | None => forall x, In x (self v :: above v) -> isDiv x = false
  end.
Proof.
  intros Hloc. rewrite (@chordContainerFor_view d span v Hloc).
  unfold containerOf, blockSel, divSel.
  pose proof (closestFrom_simple (mkCompound (Some (lit "div")) [deu1fhf] [])
                (above v) (self v)) as Hb.
  pose proof (closestFrom_simple (mkCompound (Some (lit "div")) [] [])
                (above v) (self v)) as Hd.
  destruct (closestFrom [[mkCompound (Some (lit "div")) [deu1fhf] []]]
              (self v) (above v)) as [c|].
  - destruct Hb as [pre [ec [post [Heq [Hid [Hm Hpre]]]]]].
    exists pre, ec, post. split; [exact Heq |]. split; [exact Hid |]. left.
    rewrite blockSel_wrapper in Hm. split; [exact Hm |].
    intros x Hx. rewrite <- blockSel_wrapper. now apply Hpre.
  - destruct (closestFrom [[mkCompound (Some (lit "div")) [] []]]
                (self v) (above v)) as [c|].
    + destruct Hd as [pre [ec [post [Heq [Hid [Hm Hpre]]]]]].
      exists pre, ec, post. split; [exact Heq |]. split; [exact Hid |]. right.
      rewrite divSel_div in Hm. split; [exact Hm |]. split.
      * intros x Hx. rewrite <- divSel_div. now apply Hpre.
      * intros x Hx. rewrite <- blockSel_wrapper. now apply Hb.
    + intros x Hx. rewrite <- divSel_div. now apply Hd.
Qed.

Lemma chordContainerFor_spec_witness :
  locate 3 twoBlocks = Some (viewAt twoBlocks 3)
  /\ match chordContainerFor twoBlocks 3 with
     | Some c =>
         exists pre ec post,
           self (viewAt twoBlocks 3) :: above (viewAt twoBlocks 3)
           = pre ++ ec :: post /\ eid ec = c
           /\ ((isWrapper ec = true
                /\ forall x, In x pre -> isWrapper x = false)
               \/ (isDiv ec = true
                   /\ (forall x, In x pre -> isDiv x = false)
                   /\ forall x,
                        In x (self (viewAt twoBlocks 3)
                              :: above (viewAt twoBlocks 3)) ->
                        isWrapper x = false))
     | None =>
         forall x,
           In x (self (viewAt twoBlocks 3) :: above (viewAt twoBlocks 3)) ->
           isDiv x = false
     end.
Proof.
  split; [reflexivity |].
  apply (chordContainerFor_spec twoBlocks 3 (viewAt twoBlocks 3)).
  reflexivity.
Defined.

Lemma matchesAbove_one c anc :
  matchesAbove [c] anc = existsb (matchesCompound c) anc.
Proof.
  induction anc as [|a anc IH]; [reflexivity |].
  simpl. rewrite IH, matchesAbove_nil, andb_true_r. reflexivity.
Qed.

Lemma diagramSel_view w :
  matchesView diagramSel w
  = isDiagramUse (self w) && existsb isSvg (above w).
Proof.
  unfold matchesView, matchesSel, diagramSel, matchesComplex. simpl existsb.
  rewrite orb_false_r, matchesAbove_one. f_equal.
  - unfold matchesCompound, isDiagramUse. simpl.
    now rewrite !andb_true_r.
  - induction (above w) as [|a anc IH]; [reflexivity |].
    simpl existsb. rewrite IH. f_equal.
    unfold matchesCompound, isSvg. simpl. now rewrite !andb_true_r.
Qed.

Lemma guardView_shows v : guardView v = true <-> showsDiagram v.
Proof.
  unfold guardView, showsDiagram. rewrite existsb_exists. split.
  - intros [w [Hw Hm]]. rewrite diagramSel_view in Hm.
    apply andb_true_iff in Hm. destruct Hm as [Hu Hs].
    apply existsb_exists in Hs. exists w. auto.
  - intros [w [Hw [Hu Hs]]]. exists w. split; [exact Hw |].
    rewrite diagramSel_view, Hu. simpl. now apply existsb_exists.
Qed.

(** The chord-diagram guard holds of the elements of the DOM below which
    there is a [use] with the diagram path in its [href] and with an [svg]
    among its ancestors; the [svg] itself need not be below the
    element. *)
Theorem isChordBlock_spec d el :
  isChordBlock d el = true
  <-> exists v, locate el d = Some v /\ showsDiagram v.
Proof.
  destruct (locate el d) as [v|] eqn:Hloc.
  - rewrite (@isChordBlock_view d el v Hloc), guardView_shows. split.
    + intros H. now exists v.
    + intros [v' [E H]]. injection E as <-. exact H.
  - rewrite (@isChordBlock_none d el Hloc). split; [discriminate |].
    intros [v [E _]]. discriminate.
Qed.

(** The guard is inherited upwards: an element that holds an element
    passing the guard passes it as well. *)
Theorem isChordBlock_inherited d inner w el :
  wf d -> locate inner d = Some w -> In el (map eid (above w)) ->
  isChordBlock d inner = true -> isChordBlock d el = true.
Proof.
  intros Hwf Hloc Hel Hg.
  destruct (@locate_some inner d w Hloc) as [Hw _].
  apply in_map_iff in Hel. destruct Hel as [a [Ha Hin]].
  apply in_split in Hin. destruct Hin as [pre [post Hab]].
  destruct (@ancestor_view (allTrees d) [] w pre a post Hw) as [kc [Hc Hd]].
  { now rewrite app_nil_r. }
  rewrite app_nil_r in *.
  assert (Hlc : locate el d = Some (mkView a kc post)).
  { rewrite <- Ha. exact (@locate_found d (mkView a kc post) Hwf Hc). }
  rewrite (@isChordBlock_view d inner w Hloc) in Hg.
  rewrite (@isChordBlock_view d el _ Hlc).
  unfold guardView in *. apply existsb_exists in Hg.
  destruct Hg as [x [Hx Hm]]. apply existsb_exists. exists x.
  split; [| exact Hm]. exact (@descendants_trans _ w x Hd Hx).
Qed.

Lemma isChordBlock_inherited_witness :
  wf nestedContainers
  /\ locate 2 nestedContainers = Some (viewAt nestedContainers 2)
  /\ In 1 (map eid (above (viewAt nestedContainers 2)))
  /\ isChordBlock nestedContainers 2 = true
  /\ isChordBlock nestedContainers 1 = true.
Proof.
  assert (Hwf : wf nestedContainers)
    by (apply wfb_sound; vm_compute; reflexivity).
  assert (Hin : In 1 (map eid (above (viewAt nestedContainers 2))))
    by (vm_compute; auto).
  split; [exact Hwf |]. split; [reflexivity |]. split; [exact Hin |].
  split; [reflexivity |].
  exact (isChordBlock_inherited nestedContainers 2
           (viewAt nestedContainers 2) 1 Hwf eq_refl Hin eq_refl).
Defined.

(* ===================================================================== *)
(** ** What purge removes, whatever the document *)
(* ===================================================================== *)

(** purge leaves the DOM as it is when no label under the root is both in
    the exclusion list and in a container that passes the guard. *)
Theorem purge_spares_undesignated nfc blocked r d :
  (forall s, In s (querySelectorAll r spanSel d) ->
     isTargetSpan nfc blocked d s = false
     \/ forall c, chordContainerFor d s = Some c -> isChordBlock d c = false) ->
  purge nfc blocked r d = d.
Proof.
  intros H. unfold purge. apply fold_inert. intros s Hs. unfold purgeSpan.
  destruct (H s Hs) as [Ht | Hc].
  - now rewrite Ht.
  - destruct (isTargetSpan nfc blocked d s); [| reflexivity].
    destruct (chordContainerFor d s) as [c|]; [| reflexivity].
    now rewrite (Hc c eq_refl).
Qed.

Lemma purge_spares_undesignated_witness :
  (forall s, In s (querySelectorAll Document spanSel unknownChords) ->
     isTargetSpan nfcOfNormal blockedChordsList unknownChords s = false
     \/ forall c, chordContainerFor unknownChords s = Some c ->
                  isChordBlock unknownChords c = false)
  /\ purge nfcOfNormal blockedChordsList Document unknownChords
     = unknownChords.
Proof.
  assert (H : forall s,
            In s (querySelectorAll Document spanSel unknownChords) ->
            isTargetSpan nfcOfNormal blockedChordsList unknownChords s = false
            \/ forall c, chordContainerFor unknownChords s = Some c ->
                         isChordBlock unknownChords c = false).
  { intros s Hs. left. vm_compute in Hs.
    destruct Hs as [<- | [<- | []]]; reflexivity. }
  split; [exact H |].
  exact (purge_spares_undesignated nfcOfNormal blockedChordsList Document
           unknownChords H).
Defined.

Lemma queried_view r sel d s :
  In s (querySelectorAll r sel d) ->
  exists u, In u (locs (allTrees d)) /\ vid u = s /\ matchesView sel u = true.
Proof.
  destruct r as [|i]; simpl.
  - intros Hs. apply in_map_iff in Hs. destruct Hs as [u [Hid Hu]].
    apply filter_In in Hu. destruct Hu as [Hu Hm]. exists u.
    split; [| now split]. rewrite locs_allTrees. apply in_or_app. now left.
  - destruct (locate i d) as [vi|] eqn:Hloc; [| intros []].
    intros Hs. apply in_map_iff in Hs. destruct Hs as [u [Hid Hu]].
    apply filter_In in Hu. destruct Hu as [Hu Hm]. exists u.
    split; [| now split].
    destruct (@locate_some i d vi Hloc) as [Hvi _].
    exact (@descendants_in [] (allTrees d) vi u Hvi Hu).
Qed.

Lemma in_document_allTrees d v :
  In v (locs (document d)) -> In v (locs (allTrees d)).
Proof. intros H. rewrite locs_allTrees. apply in_or_app. now left. Qed.

Lemma document_view d v :
  wf d -> In v (locs (allTrees d)) -> In (vid v) (map vid (locs (document d))) ->
  In v (locs (document d)).
Proof.
  intros Hwf Hv Hin. apply in_map_iff in Hin. destruct Hin as [v' [Hid Hv']].
  assert (v' = v); [| now subst].
  apply (@view_unique (locs (allTrees d)) v' v Hwf);
    [now apply in_document_allTrees | assumption | assumption].
Qed.

Lemma descendants_vprune P v :
  alive P v = true ->
  descendants (vprune P v) = map (vprune P) (filter (alive P) (descendants v)).
Proof.
  intros Hal. unfold descendants. simpl.
  apply locs_prune. exact Hal.
Qed.

Lemma span_not_div v :
  matchesView spanSel v = true -> isDiv (self v) = true -> False.
Proof.
  unfold spanSel. rewrite matches_simple. unfold matchesCompound, isDiv.
  simpl. intros Hs Hd. apply andb_true_iff in Hs. destruct Hs as [Hs _].
  apply andb_true_iff in Hs. destruct Hs as [Hs _].
  apply str_eqb_eq in Hs. apply str_eqb_eq in Hd. rewrite Hs in Hd.
  discriminate.
Qed.

Lemma containerOf_div v c :
  containerOf v = Some c ->
  exists pre ec post,
    self v :: above v = pre ++ ec :: post /\ eid ec = c /\ isDiv ec = true.
Proof.
  unfold containerOf, blockSel, divSel. intros H.
  pose proof (closestFrom_simple (mkCompound (Some (lit "div")) [deu1fhf] [])
                (above v) (self v)) as Hb.
  pose proof (closestFrom_simple (mkCompound (Some (lit "div")) [] [])
                (above v) (self v)) as Hd.
  destruct (closestFrom [[mkCompound (Some (lit "div")) [deu1fhf] []]]
              (self v) (above v)) as [k|].
  - injection H as ->.
    destruct Hb as [pre [ec [post [Heq [Hid [Hm _]]]]]].
    exists pre, ec, post. split; [exact Heq |]. split; [exact Hid |].
    rewrite blockSel_wrapper in Hm. unfold isWrapper in Hm.
    apply andb_true_iff in Hm. tauto.
  - rewrite H in Hd.
    destruct Hd as [pre [ec [post [Heq [Hid [Hm _]]]]]].
    exists pre, ec, post. split; [exact Heq |]. split; [exact Hid |].
    now rewrite divSel_div in Hm.
Qed.

Section PurgeAnywhere.

Variable nfc : jsstring -> jsstring.
Variable blocked : list jsstring.
Variable d0 : dom.

(** The labels purge walks over. *)
Variable spans0 : list nat.
Hypothesis Hspans0 :
  forall s v, In s spans0 -> In v (locs (document d0)) -> vid v = s ->
    matchesView spanSel v = true.

Lemma purgeSpan_prunes R d s :
  In s spans0 -> wf d ->
  document d = prune (inList R) (document d0) ->
  (forall c, In c R -> holdsLabelIn (document d0) c) ->
  exists R',
    document (purgeSpan nfc blocked d s) = prune (inList R') (document d0)
    /\ forall c, In c R' -> holdsLabelIn (document d0) c.
Proof.
  intros Hs Hwf Hdoc HR. unfold purgeSpan.
  destruct (isTargetSpan nfc blocked d s) eqn:Ht; [| now exists R].
  destruct (chordContainerFor d s) as [c|] eqn:Hc; [| now exists R].
  destruct (isChordBlock d c) eqn:Hg; [| now exists R].
  destruct (in_dec Nat.eq_dec c (map vid (locs (document d)))) as [Hin | Hout].
  - exists (R ++ [c]). split.
    + rewrite (@remove_document c d Hwf), Hdoc. apply prune_more.
    + intros c' Hc'. apply in_app_or in Hc'.
      destruct Hc' as [Hc' | [<- | []]]; [now apply HR |].
      unfold isTargetSpan in Ht.
      destruct (locate s d) as [v|] eqn:Hloc; [| discriminate].
      rewrite (@chordContainerFor_view d s v Hloc) in Hc.
      destruct (@locate_some s d v Hloc) as [Hv Hvid].
      destruct (containerOf_div v c Hc) as [pre [ec [post [Hch [Hid Hdiv]]]]].
      destruct (@chain_view (allTrees d) v pre ec post Hv Hch) as [kc [Hvc Hrel]].
      set (vc := mkView ec kc post) in *.
      assert (Hvcd : In vc (locs (document d))).
      { apply document_view; [assumption | assumption |]. unfold vid, vc.
        simpl. now rewrite Hid. }
      assert (Hlc : locate c d = Some vc).
      { rewrite <- Hid. exact (@locate_found d vc Hwf Hvc). }
      rewrite (@isChordBlock_view d c vc Hlc) in Hg.
      rewrite Hdoc in Hvcd. unfold locs in Hvcd.
      rewrite locs_prune in Hvcd by reflexivity.
      apply in_map_iff in Hvcd. destruct Hvcd as [vc0 [Hvc0 Hin0]].
      apply filter_In in Hin0. destruct Hin0 as [Hin0 Hal0].
      rewrite <- Hvc0 in Hg. rewrite (@guard_pruned (inList R) vc0 Hal0) in Hg.
      apply existsb_filter_le in Hg.
      assert (Hv0 : exists v0, (v0 = vc0 \/ In v0 (descendants vc0))
                               /\ self v0 = self v /\ vid v0 = s).
      { destruct Hrel as [[_ Heq] | [Hd _]].
        - exists vc0. split; [now left |]. rewrite <- Heq, <- Hvc0.
          split; [reflexivity |]. rewrite <- Hvid, <- Heq, <- Hvc0.
          reflexivity.
        - rewrite <- Hvc0, (descendants_vprune (inList R) vc0 Hal0) in Hd.
          apply in_map_iff in Hd. destruct Hd as [v0 [Hv0 Hd]].
          apply filter_In in Hd. destruct Hd as [Hd _].
          exists v0. split; [now right |]. rewrite <- Hv0.
          split; [reflexivity |]. rewrite <- Hvid, <- Hv0. reflexivity. }
      destruct Hv0 as [v0 [Hpos [Hself Hid0]]].
      assert (Hself0 : self vc0 = ec).
      { change (self vc0) with (self (vprune (inList R) vc0)).
        now rewrite Hvc0. }
      assert (Hdiv0 : isDiv (self vc0) = true) by now rewrite Hself0.
      assert (Hidc : vid vc0 = c) by (unfold vid; now rewrite Hself0).
      destruct Hpos as [-> | Hd0].
      * exfalso. apply (span_not_div vc0); [| exact Hdiv0].
        exact (Hspans0 s vc0 Hs Hin0 Hid0).
      * exists vc0, v0. repeat split; try assumption.
        apply (Hspans0 s v0 Hs); [| exact Hid0].
        exact (@descendants_in [] (document d0) vc0 v0 Hin0 Hd0).
  - exists R. split; [| exact HR].
    now rewrite (@remove_outside c d Hwf Hout).
Qed.

Lemma purge_fold_prunes l : forall R d,
  incl l spans0 -> wf d ->
  document d = prune (inList R) (document d0) ->
  (forall c, In c R -> holdsLabelIn (document d0) c) ->
  exists R',
    document (fold_left (purgeSpan nfc blocked) l d)
    = prune (inList R') (document d0)
    /\ forall c, In c R' -> holdsLabelIn (document d0) c.
Proof.
  induction l as [|s l IH]; intros R d Hl Hwf Hdoc HR.
  - now exists R.
  - simpl fold_left.
    destruct (purgeSpan_prunes R d s (Hl s (or_introl eq_refl)) Hwf Hdoc HR)
      as [R1 [Hdoc1 HR1]].
    apply (IH R1); try assumption.
    + intros x Hx. apply Hl. now right.
    + now apply purgeSpan_wf.
Qed.

End PurgeAnywhere.

(** Whatever the document and the root, all purge does to the document is
    to take subtrees out, and each subtree taken out is a [div] of the
    document that passes the chord-diagram guard and holds a
    [span.cbg1qdk]. *)
Theorem purge_only_removes nfc blocked r d :
  wf d ->
  exists R,
    document (purge nfc blocked r d) = prune (inList R) (document d)
    /\ forall c, In c R ->
         isChordBlock d c = true
         /\ exists vc w,
              In vc (locs (document d)) /\ vid vc = c
              /\ isDiv (self vc) = true
              /\ In w (descendants vc) /\ matchesView spanSel w = true.
Proof.
  intros Hwf. unfold purge.
  assert (Hsp : forall s v, In s (querySelectorAll r spanSel d) ->
            In v (locs (document d)) -> vid v = s ->
            matchesView spanSel v = true).
  { intros s v Hs Hv Hid.
    destruct (queried_view r spanSel d s Hs) as [u [Hu [Hidu Hm]]].
    assert (u = v); [| now subst].
    apply (@view_unique (locs (allTrees d)) u v Hwf Hu);
      [now apply in_document_allTrees | congruence]. }
  destruct (purge_fold_prunes nfc blocked d (querySelectorAll r spanSel d) Hsp
              (querySelectorAll r spanSel d) [] d)
    as [R [Hdoc HR]].
  - intros x Hx. exact Hx.
  - exact Hwf.
  - symmetry. now apply prune_id_ids.
  - intros c [].
  - exists R. split; [exact Hdoc |]. intros c Hc.
    destruct (HR c Hc) as [vc [w [Hvc [Hid [Hdiv [Hg [Hw Hm]]]]]]].
    split.
    + rewrite <- Hid.
      rewrite (@isChordBlock_view d (vid vc) vc (@doc_located d Hwf vc Hvc)).
      exact Hg.
    + exists vc, w. repeat split; assumption.
Qed.

Lemma purge_only_removes_witness :
  wf twoBlocks
  /\ exists R,
       document (purge nfcOfNormal blockedChordsList (Element 2) twoBlocks)
       = prune (inList R) (document twoBlocks)
       /\ forall c, In c R ->
            isChordBlock twoBlocks c = true
            /\ exists vc w,
                 In vc (locs (document twoBlocks)) /\ vid vc = c
                 /\ isDiv (self vc) = true
                 /\ In w (descendants vc) /\ matchesView spanSel w = true.
Proof.
  split; [exact twoBlocks_wf |].
  exact (purge_only_removes nfcOfNormal blockedChordsList (Element 2)
           twoBlocks twoBlocks_wf).
Defined.

(* --------------------------------------------------------------------- *)
(** *** After purge *)

Lemma remove_changes c d :
  wf d -> In c (map vid (locs (document d))) ->
  document (remove c d) <> document d.
Proof.
  intros Hwf Hin Heq. rewrite (@remove_document c d Hwf) in Heq.
  apply in_map_iff in Hin. destruct Hin as [vc [Hid Hvc]].
  destruct (@wf_parts d Hwf) as [Hdoc _].
  apply (@dead_absent (Nat.eqb c) (document d) vc Hdoc Hvc).
  - unfold alive. now rewrite Hid, Nat.eqb_refl.
  - rewrite Heq. now apply in_map.
Qed.

(** A label that purge's step leaves alone is not both blocked and in a
    container that passes the guard. *)
Lemma fixed_none_designated nfc blocked d1 s c :
  wf d1 -> In s (querySelectorAll Document spanSel d1) ->
  purgeSpan nfc blocked d1 s = d1 ->
  isTargetSpan nfc blocked d1 s = true ->
  chordContainerFor d1 s = Some c ->
  isChordBlock d1 c = false.
Proof.
  intros Hwf1 Hs Hfix Ht Hc.
  destruct (isChordBlock d1 c) eqn:Hg; [exfalso | reflexivity].
  unfold purgeSpan in Hfix. rewrite Ht, Hc, Hg in Hfix.
  simpl in Hs. apply in_map_iff in Hs. destruct Hs as [v [Hid Hv]].
  apply filter_In in Hv. destruct Hv as [Hv _].
  assert (Hloc : locate s d1 = Some v)
    by (rewrite <- Hid; exact (@doc_located d1 Hwf1 v Hv)).
  rewrite (@chordContainerFor_view d1 s v Hloc) in Hc.
  destruct (@container_view (document d1) v c Hv Hc)
    as [pre [ec [post [kc [_ [Hidc [Hvc _]]]]]]].
  apply (@remove_changes c d1 Hwf1); [| now rewrite Hfix].
  rewrite <- Hidc. exact (in_map vid _ _ Hvc).
Qed.

Lemma purge_fixed nfc blocked d :
  wf d -> spansApart d ->
  wf (purge nfc blocked Document d)
  /\ forall s,
       In s (querySelectorAll Document spanSel (purge nfc blocked Document d)) ->
       purgeSpan nfc blocked (purge nfc blocked Document d) s
       = purge nfc blocked Document d.
Proof.
  intros Hwf Hspans.
  assert (Hst : purgedState nfc blocked d (locs (document d))
                  (purge nfc blocked Document d)).
  { unfold purge. simpl querySelectorAll.
    apply (@purgedState_run nfc blocked d Hwf Hspans (locs (document d)) [] d);
      [reflexivity |].
    split; [assumption |]. exists []. split; [| split].
    - symmetry. now apply prune_id_ids.
    - intros x [].
    - intros u []. }
  split; [apply Hst |]. intros s Hs.
  exact (@purgedState_final nfc blocked d Hwf Hspans _ s Hst Hs).
Qed.

(** On a document where no [span.cbg1qdk] lies inside another one, purge
    is complete: of the labels it leaves in the document, none is in the
    exclusion list and in a container that passes the chord-diagram
    guard. *)
Theorem purge_leaves_none_designated nfc blocked d s c :
  wf d -> spansApart d ->
  In s (querySelectorAll Document spanSel (purge nfc blocked Document d)) ->
  isTargetSpan nfc blocked (purge nfc blocked Document d) s = true ->
  chordContainerFor (purge nfc blocked Document d) s = Some c ->
  isChordBlock (purge nfc blocked Document d) c = false.
Proof.
  intros Hwf Hspans Hs Ht Hc.
  destruct (purge_fixed nfc blocked d Hwf Hspans) as [Hwf1 Hfix].
  exact (fixed_none_designated nfc blocked _ s c Hwf1 Hs (Hfix s Hs) Ht Hc).
Qed.

Lemma purge_leaves_none_designated_witness :
  wf strayLabel /\ spansApart strayLabel
  /\ In 2 (querySelectorAll Document spanSel
             (purge nfcOfNormal blockedChordsList Document strayLabel))
  /\ isTargetSpan nfcOfNormal blockedChordsList
       (purge nfcOfNormal blockedChordsList Document strayLabel) 2 = true
  /\ chordContainerFor
       (purge nfcOfNormal blockedChordsList Document strayLabel) 2 = Some 1
  /\ isChordBlock
       (purge nfcOfNormal blockedChordsList Document strayLabel) 1 = false.
Proof.
  assert (Hwf : wf strayLabel) by (apply wfb_sound; vm_compute; reflexivity).
  assert (Hsp : spansApart strayLabel)
    by (apply spansApartb_sound; vm_compute; reflexivity).
  assert (Hin : In 2 (querySelectorAll Document spanSel
                        (purge nfcOfNormal blockedChordsList Document
                               strayLabel)))
    by (vm_compute; auto).
  split; [exact Hwf |]. split; [exact Hsp |]. split; [exact Hin |].
  split; [vm_compute; reflexivity |]. split; [vm_compute; reflexivity |].
  apply (purge_leaves_none_designated nfcOfNormal blockedChordsList
           strayLabel 2 1 Hwf Hsp Hin); vm_compute; reflexivity.
Defined.

(* ===================================================================== *)
(** ** Where sortChordBlocks puts the blocks *)
(* ===================================================================== *)

Lemma sortChordBlocks_state nfc cmp d :
  wf d -> blocksApart d ->
  2 <= List.length (chordBlocks Document d) ->
  exists d',
    sortChordBlocks nfc cmp Document d = Done d'
    /\ sortingState nfc cmp d (groupByParent d (chordBlocks Document d)) d'.
Proof.
  intros Hwf Hapart Hlen. unfold sortChordBlocks.
  assert (E : (List.length (chordBlocks Document d) <? 2) = false)
    by (apply Nat.ltb_ge; lia).
  rewrite E.
  pose proof (groupByParent_grouped d _ (chordBlocks_NoDup d Hwf))
    as [Gkeys [Gmem [Gall Gnd]]].
  destruct (sortGroups_sorting nfc cmp d Hwf Hapart
              (groupByParent d (chordBlocks Document d)) [] d)
    as [d' [Hrun Hfin]].
  - exact Gkeys.
  - intros p l Hin. split; [exact (Gnd p l Hin) |].
    intros b Hb. exact (Gmem p l b Hin Hb).
  - split; [now apply settled_refl |]. split; [reflexivity | intros p l []].
  - exists d'. split; [exact Hrun | exact Hfin].
Qed.

(** The chord blocks among the element children [ids] of [p] are the
    blocks the byParent map holds for [p]. *)
Lemma group_members d p v0 l :
  wf d -> In v0 (locs (document d)) -> vid v0 = p ->
  In (p, l) (groupByParent d (chordBlocks Document d)) ->
  forall i, In i (elementKids (kids v0)) ->
    inList l i = isBlock d i.
Proof.
  intros Hwf Hv0 Hid Hin i Hi.
  pose proof (groupByParent_grouped d _ (chordBlocks_NoDup d Hwf))
    as [Gkeys [Gmem [Gall Gnd]]].
  assert (Hloc : locate p d = Some v0)
    by (rewrite <- Hid; now apply (@doc_located d Hwf)).
  destruct (inList l i) eqn:Hl.
  - symmetry. apply inList_In in Hl.
    apply chordBlocks_isBlock; [assumption |]. exact (proj1 (Gmem p l i Hin Hl)).
  - destruct (isBlock d i) eqn:Hb; [exfalso | reflexivity].
    destruct (kid_parent d p v0 i Hwf Hloc Hi) as [vi [Hvi [Hidi Hpar]]].
    assert (Hblock : In i (chordBlocks Document d)).
    { rewrite <- Hidi. apply isBlock_chordBlocks; [assumption | | now rewrite Hidi].
      exact (@descendants_in [] (document d) v0 vi Hv0 Hvi). }
    destruct (Gall i p Hblock Hpar) as [l' [Hin' Hil']].
    rewrite (keyed_unique _ p l l' Gkeys Hin Hin') in Hl.
    apply inList_In in Hil'. rewrite Hil' in Hl. discriminate.
Qed.

Lemma no_group_no_blocks d p v0 :
  wf d -> In v0 (locs (document d)) -> vid v0 = p ->
  ~ In p (map fst (groupByParent d (chordBlocks Document d))) ->
  forall i, In i (elementKids (kids v0)) -> isBlock d i = false.
Proof.
  intros Hwf Hv0 Hid Hnin i Hi.
  pose proof (groupByParent_grouped d _ (chordBlocks_NoDup d Hwf))
    as [Gkeys [Gmem [Gall Gnd]]].
  assert (Hloc : locate p d = Some v0)
    by (rewrite <- Hid; now apply (@doc_located d Hwf)).
  destruct (isBlock d i) eqn:Hb; [exfalso | reflexivity].
  destruct (kid_parent d p v0 i Hwf Hloc Hi) as [vi [Hvi [Hidi Hpar]]].
  assert (Hblock : In i (chordBlocks Document d)).
  { rewrite <- Hidi. apply isBlock_chordBlocks; [assumption | | now rewrite Hidi].
    exact (@descendants_in [] (document d) v0 vi Hv0 Hvi). }
  destruct (Gall i p Hblock Hpar) as [l' [Hin' _]].
  apply Hnin. now apply (in_map fst _ (p, l')).
Qed.

(** When no chord block lies inside another one, sortChordBlocks leaves
    every chord block as it is, with all it holds and with its ancestors,
    and so with its chord key. *)
Theorem sortChordBlocks_keeps_blocks nfc cmp d :
  wf d -> blocksApart d ->
  exists d',
    sortChordBlocks nfc cmp Document d = Done d'
    /\ forall b, In b (chordBlocks Document d) ->
         locate b d' = locate b d
         /\ chordKey nfc d' b = chordKey nfc d b.
Proof.
  intros Hwf Hapart.
  destruct (le_lt_dec 2 (List.length (chordBlocks Document d))) as [Hlen | Hlen].
  - destruct (sortChordBlocks_state nfc cmp d Hwf Hapart Hlen)
      as [d' [Hrun [Hst _]]].
    exists d'. split; [exact Hrun |]. intros b Hb. split.
    + destruct Hst as [_ [_ [_ [Hprot _]]]].
      destruct (chordBlocks_view _ _ Hb) as [vb [Hvb [Hid _]]].
      pose proof (in_document_allTrees d vb Hvb) as Hvb'.
      rewrite <- Hid, (@locate_found d vb Hwf Hvb').
      apply Hprot; [assumption |]. exists (self vb).
      split; [now left |]. unfold vid in Hid. now rewrite Hid.
    + exact (chordKey_settled nfc d Hwf d' b Hst Hb).
  - exists d. split; [| now split]. unfold sortChordBlocks.
    apply Nat.ltb_lt in Hlen. now rewrite Hlen.
Qed.

Lemma sortChordBlocks_keeps_blocks_witness :
  wf threeBlocks /\ blocksApart threeBlocks
  /\ exists d',
       sortChordBlocks nfcOfNormal compareBase Document threeBlocks = Done d'
       /\ forall b, In b (chordBlocks Document threeBlocks) ->
            locate b d' = locate b threeBlocks
            /\ chordKey nfcOfNormal d' b = chordKey nfcOfNormal threeBlocks b.
Proof.
  split; [exact threeBlocks_wf |]. split; [exact threeBlocks_apart |].
  exact (sortChordBlocks_keeps_blocks nfcOfNormal compareBase threeBlocks
           threeBlocks_wf threeBlocks_apart).
Defined.

(* ===================================================================== *)
(** ** What the mark of a click leaves alone *)
(* ===================================================================== *)

Lemma str_eqb_sym a b : str_eqb a b = str_eqb b a.
Proof.
  destruct (str_eqb a b) eqn:E.
  - apply str_eqb_eq in E. subst. symmetry. apply str_eqb_refl.
  - destruct (str_eqb b a) eqn:E'; [| reflexivity].
    apply str_eqb_eq in E'. subst. now rewrite str_eqb_refl in E.
Qed.

Lemma getAttribute_setAttr_other name' name value attrs :
  str_eqb name' name = false ->
  getAttribute name' (setAttr name value attrs) = getAttribute name' attrs.
Proof.
  intros Hne. induction attrs as [|[k v] rest IH]; simpl.
  - now rewrite str_eqb_sym, Hne.
  - destruct (str_eqb k name) eqn:Hk; simpl.
    + apply str_eqb_eq in Hk. subst k. now rewrite str_eqb_sym, Hne.
    + destruct (str_eqb k name'); [reflexivity | exact IH].
Qed.

Section Marking.

Variable i : nat.
Variables name value : jsstring.

Let mark := vmapElement i (withAttr name value).

Lemma matchesCompound_withAttr c e :
  forallb (fun t => negb (str_eqb (attrName t) name)) (selAttrs c) = true ->
  matchesCompound c (atElement i (withAttr name value) e) = matchesCompound c e.
Proof.
  intros Hc. unfold atElement. destruct (Nat.eqb (eid e) i); [| reflexivity].
  unfold matchesCompound. simpl. f_equal.
  rewrite forallb_forall in Hc.
  induction (selAttrs c) as [|t ts IH]; [reflexivity |].
  simpl. rewrite IH by (intros x Hx; apply Hc; now right). f_equal.
  specialize (Hc t (or_introl eq_refl)). apply negb_true_iff in Hc.
  destruct t as [n v | n v]; simpl in *;
    now rewrite (getAttribute_setAttr_other n name value (attributes e) Hc).
Qed.

Lemma matchesAbove_withAttr cs : forall anc,
  forallb (fun c => forallb (fun t => negb (str_eqb (attrName t) name))
                            (selAttrs c)) cs = true ->
  matchesAbove cs (map (atElement i (withAttr name value)) anc)
  = matchesAbove cs anc.
Proof.
  induction cs as [|c cs IHc]; intros anc Hcs.
  - now rewrite !matchesAbove_nil.
  - simpl in Hcs. apply andb_true_iff in Hcs. destruct Hcs as [Hc Hcs].
    induction anc as [|a anc IHa]; [reflexivity |].
    simpl. rewrite (matchesCompound_withAttr c a Hc), (IHc anc Hcs), IHa.
    reflexivity.
Qed.

Lemma matchesView_mark sel v :
  ignoresAttr name sel = true ->
  matchesView sel (mark v) = matchesView sel v.
Proof.
  unfold matchesView, matchesSel, mark. simpl. intros Hs.
  induction sel as [|cx sel IH]; [reflexivity |].
  simpl in Hs. apply andb_true_iff in Hs. destruct Hs as [Hcx Hs].
  simpl. rewrite (IH Hs). f_equal.
  destruct cx as [|c cs]; [reflexivity |].
  simpl in Hcx. apply andb_true_iff in Hcx. destruct Hcx as [Hc Hcs].
  simpl. now rewrite (matchesCompound_withAttr c (self v) Hc),
                     (matchesAbove_withAttr cs (above v) Hcs).
Qed.

Lemma vid_mark v : vid (mark v) = vid v.
Proof. apply vid_withAttr. Qed.

Lemma descendants_mark v : descendants (mark v) = map mark (descendants v).
Proof.
  unfold descendants, mark. simpl.
  exact (locs_mapElement i (withAttr name value) (kids v) (self v :: above v)).
Qed.

Lemma ids_filter_mark sel L :
  ignoresAttr name sel = true ->
  map vid (filter (matchesView sel) (map mark L))
  = map vid (filter (matchesView sel) L).
Proof.
  intros Hs. induction L as [|v L IH]; [reflexivity |].
  simpl. rewrite (matchesView_mark sel v Hs).
  destruct (matchesView sel v); simpl; [rewrite vid_mark |]; now rewrite IH.
Qed.

Lemma document_setAttribute d :
  locs (document (setAttribute i name value d))
  = map mark (locs (document d)).
Proof.
  unfold setAttribute. simpl.
  exact (locs_mapElement i (withAttr name value) (document d) []).
Qed.

Lemma querySelectorAll_setAttribute r sel d :
  ignoresAttr name sel = true ->
  querySelectorAll r sel (setAttribute i name value d)
  = querySelectorAll r sel d.
Proof.
  intros Hs. destruct r as [|x]; cbn [querySelectorAll].
  - rewrite document_setAttribute. now apply ids_filter_mark.
  - rewrite locate_setAttribute. destruct (locate x d) as [v|]; [| reflexivity].
    cbn [option_map]. fold mark. rewrite descendants_mark.
    now apply ids_filter_mark.
Qed.

Lemma text_of_mapElement g f :
  text_of (map (mapElement i g) f) = text_of f.
Proof.
  induction f as [|s f IH|e ks f IHk IHf] using forest_ind.
  - reflexivity.
  - unfold text_of in *. simpl. now rewrite IH.
  - unfold text_of in *. simpl. now rewrite IHk, IHf.
Qed.

Lemma textContent_setAttribute d x :
  textContent (setAttribute i name value d) x = textContent d x.
Proof.
  unfold textContent. rewrite locate_setAttribute.
  destruct (locate x d) as [v|]; [| reflexivity].
  simpl. apply text_of_mapElement.
Qed.

Lemma closestFrom_mark sel :
  ignoresAttr name sel = true ->
  forall anc e,
    closestFrom sel (atElement i (withAttr name value) e)
                (map (atElement i (withAttr name value)) anc)
    = closestFrom sel e anc.
Proof.
  intros Hs. induction anc as [|a anc IH]; intros e; cbn [closestFrom map].
  - pose proof (matchesView_mark sel (mkView e [] []) Hs) as H.
    unfold matchesView, mark in H. simpl in H. rewrite H.
    destruct (matchesSel sel e []); [| reflexivity].
    unfold atElement. now destruct (Nat.eqb (eid e) i).
  - pose proof (matchesView_mark sel (mkView e [] (a :: anc)) Hs) as H.
    unfold matchesView, mark in H. simpl in H. rewrite H.
    destruct (matchesSel sel e (a :: anc)); [| apply IH].
    unfold atElement. now destruct (Nat.eqb (eid e) i).
Qed.

Lemma closest_setAttribute sel d x :
  ignoresAttr name sel = true ->
  closest sel (setAttribute i name value d) x = closest sel d x.
Proof.
  intros Hs. unfold closest. rewrite locate_setAttribute.
  destruct (locate x d) as [v|]; [| reflexivity].
  simpl. now apply closestFrom_mark.
Qed.

Lemma parentElement_setAttribute d x :
  parentElement (setAttribute i name value d) x = parentElement d x.
Proof.
  unfold parentElement. rewrite locate_setAttribute.
  destruct (locate x d) as [v|]; [| reflexivity].
  simpl. destruct (above v) as [|a anc]; [reflexivity |].
  simpl. unfold atElement. now destruct (Nat.eqb (eid a) i).
Qed.

Lemma isTargetSpan_setAttribute nfc blocked d s :
  isTargetSpan nfc blocked (setAttribute i name value d) s
  = isTargetSpan nfc blocked d s.
Proof.
  unfold isTargetSpan. rewrite locate_setAttribute.
  destruct (locate s d) as [v|]; [| reflexivity].
  simpl. rewrite text_of_mapElement. f_equal.
  unfold atElement. now destruct (Nat.eqb (eid (self v)) i).
Qed.

End Marking.

Lemma isChordBlock_setAttribute i d c :
  isChordBlock (setAttribute i clickedSummaryAttr (lit "1") d) c
  = isChordBlock d c.
Proof.
  unfold isChordBlock, querySelector.
  now rewrite querySelectorAll_setAttribute.
Qed.

Lemma chordContainerFor_setAttribute i d s :
  chordContainerFor (setAttribute i clickedSummaryAttr (lit "1") d) s
  = chordContainerFor d s.
Proof.
  unfold chordContainerFor. now rewrite !closest_setAttribute.
Qed.

Lemma chordKey_setAttribute nfc i d b :
  chordKey nfc (setAttribute i clickedSummaryAttr (lit "1") d) b
  = chordKey nfc d b.
Proof.
  unfold chordKey, querySelector.
  rewrite querySelectorAll_setAttribute by reflexivity.
  destruct (hd_error (querySelectorAll (Element b) spanSel d)) as [s|];
    [| reflexivity].
  now rewrite textContent_setAttribute.
Qed.

Lemma chordBlocks_setAttribute i r d :
  chordBlocks r (setAttribute i clickedSummaryAttr (lit "1") d)
  = chordBlocks r d.
Proof.
  unfold chordBlocks. rewrite querySelectorAll_setAttribute by reflexivity.
  apply filter_ext. intros c. apply isChordBlock_setAttribute.
Qed.

(** The page after a call, however it ends: as before, or with the mark
    on one of the candidates. *)
Lemma click_outcome nfc iface r d clicks :
  fst (stateOf (clickSummaryIfPresent nfc iface r d clicks)) = d
  \/ exists el,
       In el (querySelectorAll r buttonSel d)
       /\ fst (stateOf (clickSummaryIfPresent nfc iface r d clicks))
          = setAttribute el clickedSummaryAttr (lit "1") d.
Proof.
  unfold clickSummaryIfPresent. destruct (onDiagramsPage d); [| now left].
  destruct (clickLoop_spec nfc iface d clicks (querySelectorAll r buttonSel d))
    as [[pre [el [post [Heq [_ [_ Hrun]]]]]] | [_ Hrun]]; rewrite Hrun.
  - destruct (iface el); [right | right | now left];
      (exists el; split; [| reflexivity]); rewrite Heq;
      apply in_or_app; right; now left.
  - now left.
Qed.

(** All clickSummaryIfPresent changes in the DOM, whether it returns or
    throws, is the mark on the element it stops at: the tests of the
    filter and of the sort (blocked label, container, chord-diagram guard,
    chord blocks, chord key, parent element) and every text read the same
    before and after it. *)
Theorem click_keeps_filter_and_sort nfc iface r d clicks :
  let d' := fst (stateOf (clickSummaryIfPresent nfc iface r d clicks)) in
  (forall blocked s,
      isTargetSpan nfc blocked d' s = isTargetSpan nfc blocked d s)
  /\ (forall s, chordContainerFor d' s = chordContainerFor d s)
  /\ (forall c, isChordBlock d' c = isChordBlock d c)
  /\ (forall r', chordBlocks r' d' = chordBlocks r' d)
  /\ (forall b, chordKey nfc d' b = chordKey nfc d b)
  /\ (forall x, parentElement d' x = parentElement d x)
  /\ (forall x, textContent d' x = textContent d x).
Proof.
  destruct (click_outcome nfc iface r d clicks) as [E | [el [_ E]]];
    rewrite E; simpl.
  - repeat split; reflexivity.
  - split; [intros; apply isTargetSpan_setAttribute |].
    split; [intros; apply chordContainerFor_setAttribute |].
    split; [intros; apply isChordBlock_setAttribute |].
    split; [intros; apply chordBlocks_setAttribute |].
    split; [intros; apply chordKey_setAttribute |].
    split; [intros; apply parentElement_setAttribute |].
    intros; apply textContent_setAttribute.
Qed.

(* ===================================================================== *)
(** ** Call after call, the candidates are clicked in document order *)
(* ===================================================================== *)

Lemma clickedSummary_other el d x :
  x <> el ->
  clickedSummary (setAttribute el clickedSummaryAttr (lit "1") d) x
  = clickedSummary d x.
Proof.
  intros Hne. unfold clickedSummary. rewrite locate_setAttribute.
  destruct (locate x d) as [v|] eqn:Hloc; [| reflexivity].
  destruct (@locate_some x d v Hloc) as [_ Hid]. simpl.
  unfold atElement. unfold vid in Hid. rewrite Hid.
  apply Nat.eqb_neq in Hne. now rewrite Hne.
Qed.

Lemma stopsAt_other nfc iface el d x :
  x <> el ->
  stopsAt nfc iface (setAttribute el clickedSummaryAttr (lit "1") d) x
  = stopsAt nfc iface d x.
Proof.
  intros Hne. unfold stopsAt.
  now rewrite textContent_setAttribute, (clickedSummary_other el d x Hne).
Qed.

Lemma stopsAt_marked nfc iface el d v :
  locate el d = Some v -> hasDataset (iface el) = true ->
  stopsAt nfc iface (setAttribute el clickedSummaryAttr (lit "1") d) el
  = false.
Proof.
  intros Hloc Hk. unfold stopsAt.
  rewrite (@clickedSummary_marked el d v Hloc), Hk. apply andb_false_r.
Qed.

Lemma onDiagramsPage_setAttribute i d :
  onDiagramsPage (setAttribute i clickedSummaryAttr (lit "1") d)
  = onDiagramsPage d.
Proof.
  unfold onDiagramsPage, querySelector.
  now rewrite querySelectorAll_setAttribute.
Qed.

Lemma queried_NoDup sel d :
  wf d -> NoDup (querySelectorAll Document sel d).
Proof.
  intros Hwf. simpl. apply NoDup_map_filter.
  exact (proj1 (@wf_parts d Hwf)).
Qed.

Lemma clickRuns_cons nfc iface r rs d clicks :
  clickRuns nfc iface (r :: rs) (d, clicks)
  = clickRuns nfc iface rs
      (stateOf (clickSummaryIfPresent nfc iface r d clicks)).
Proof. reflexivity. Qed.

Lemma clicks_in_turn nfc iface k : forall d clicks,
  wf d -> onDiagramsPage d = true ->
  snd (clickRuns nfc iface (repeat Document k) (d, clicks))
  = clicks
    ++ filter (fun el => hasClick (iface el))
         (firstn k
            (takeWhile (fun el => hasDataset (iface el))
               (filter (stopsAt nfc iface d)
                  (querySelectorAll Document buttonSel d)))).
Proof.
  induction k as [|k IH]; intros d clicks Hwf Hon.
  - simpl. now rewrite app_nil_r.
  - cbn [repeat]. rewrite clickRuns_cons.
    assert (Hclick : clickSummaryIfPresent nfc iface Document d clicks
                     = clickLoop nfc iface
                         (querySelectorAll Document buttonSel d) d clicks)
      by (unfold clickSummaryIfPresent; now rewrite Hon).
    rewrite Hclick.
    pose proof (queried_NoDup buttonSel d Hwf) as Hnd.
    destruct (clickLoop_spec nfc iface d clicks
                (querySelectorAll Document buttonSel d))
      as [[pre [el [post [Heq [Hel [Hpre Hrun]]]]]] | [Hnone Hrun]];
      rewrite Hrun.
    + assert (Hin : In el (querySelectorAll Document buttonSel d)).
      { rewrite Heq. apply in_or_app. right. now left. }
      destruct (@queried_located Document buttonSel d el Hwf Hin) as [v Hloc].
      set (d1 := setAttribute el clickedSummaryAttr (lit "1") d).
      assert (Hpre0 : forall (dd : dom),
                (forall x, In x pre ->
                   stopsAt nfc iface dd x = stopsAt nfc iface d x) ->
                filter (stopsAt nfc iface dd) pre = []).
      { intros dd Hdd. apply filter_none. intros x Hx.
        rewrite (Hdd x Hx). now apply Hpre. }
      assert (Hd : filter (stopsAt nfc iface d)
                     (querySelectorAll Document buttonSel d)
                   = el :: filter (stopsAt nfc iface d) post).
      { rewrite Heq, filter_app. cbn [filter]. rewrite Hel.
        now rewrite (Hpre0 d (fun x _ => eq_refl)). }
      assert (Hd1 : hasDataset (iface el) = true ->
                filter (stopsAt nfc iface d1)
                  (querySelectorAll Document buttonSel d1)
                = filter (stopsAt nfc iface d) post).
      { intros Hk. unfold d1.
        rewrite querySelectorAll_setAttribute by reflexivity.
        rewrite Heq, filter_app. cbn [filter].
        rewrite (stopsAt_marked nfc iface el d v Hloc Hk).
        rewrite Heq in Hnd. apply NoDup_remove_2 in Hnd.
        rewrite Hpre0.
        - simpl. apply filter_ext_in. intros x Hx. apply stopsAt_other.
          intros ->. apply Hnd. apply in_or_app. now right.
        - intros x Hx. apply stopsAt_other.
          intros ->. apply Hnd. apply in_or_app. now left. }
      assert (Hwf1 : wf d1) by now apply setAttribute_wf.
      assert (Hon1 : onDiagramsPage d1 = true)
        by (unfold d1; now rewrite onDiagramsPage_setAttribute).
      rewrite Hd. cbn [takeWhile].
      destruct (iface el) eqn:Hk; cbn [stateOf hasDataset].
      * rewrite (IH d1 (clicks ++ [el]) Hwf1 Hon1), (Hd1 eq_refl).
        cbn [firstn filter]. rewrite Hk. cbn [hasClick].
        now rewrite <- app_assoc.
      * rewrite (IH d1 clicks Hwf1 Hon1), (Hd1 eq_refl).
        cbn [firstn filter]. rewrite Hk. reflexivity.
      * rewrite (IH d clicks Hwf Hon), Hd. cbn [takeWhile].
        rewrite Hk. cbn [hasDataset]. now rewrite firstn_nil.
    + cbn [stateOf]. rewrite (IH d clicks Hwf Hon).
      rewrite (@filter_none nat (stopsAt nfc iface d)); [| exact Hnone].
      cbn [takeWhile]. now rewrite !firstn_nil.
Qed.

(** In the Diagrams view, successive calls of clickSummaryIfPresent on
    the document take, one per call and in document order, the candidates
    at which the loop stops (labelled "Summary", with no mark it can
    read), up to the first one without [dataset], at which every later
    call throws again; the elements clicked are the HTML elements among
    the candidates taken, and once all are taken further calls click
    nothing. *)
Theorem clicks_in_document_order nfc iface k d :
  wf d -> onDiagramsPage d = true ->
  snd (clickRuns nfc iface (repeat Document k) (d, []))
  = filter (fun el => hasClick (iface el))
      (firstn k
         (takeWhile (fun el => hasDataset (iface el))
            (filter (stopsAt nfc iface d)
               (querySelectorAll Document buttonSel d)))).
Proof.
  intros Hwf Hon. exact (clicks_in_turn nfc iface k d [] Hwf Hon).
Qed.

Lemma clicks_in_document_order_witness :
  wf iconPage /\ onDiagramsPage iconPage = true
  /\ filter (stopsAt nfcOfNormal (parsedAs iconPage) iconPage)
       (querySelectorAll Document buttonSel iconPage) = [2; 4]
  /\ snd (clickRuns nfcOfNormal (parsedAs iconPage) (repeat Document 5)
            (iconPage, []))
     = filter (fun el => hasClick (parsedAs iconPage el))
         (firstn 5
            (takeWhile (fun el => hasDataset (parsedAs iconPage el))
               (filter (stopsAt nfcOfNormal (parsedAs iconPage) iconPage)
                  (querySelectorAll Document buttonSel iconPage)))).
Proof.
  split; [exact iconPage_wf |]. split; [reflexivity |].
  split; [vm_compute; reflexivity |].
  exact (clicks_in_document_order nfcOfNormal (parsedAs iconPage) 5 iconPage
           iconPage_wf eq_refl).
Defined.

(* ===================================================================== *)
(** ** The running script: frames, and what stays of the page *)
(* ===================================================================== *)

Lemma lastTick_runClick nfc iface r st :
  lastTick (stateOf (runClick nfc iface r st)) = lastTick st.
Proof. now rewrite stateOf_runClick. Qed.

Lemma lastTick_queueSort st : lastTick (queueSort st) = lastTick st.
Proof. unfold queueSort. now destruct (_sortPending st). Qed.

(** After a frame at time [now] that came more than 1500 ms after the
    last check, tick has noted [now], whether or not its click threw, and
    the frames up to 1500 ms later change nothing. *)
Theorem tick_throttle nfc cmp iface now st times :
  (now - lastTick st > 1500)%Z ->
  Forall (fun t => (t - now <= 1500)%Z) times ->
  lastTick (stateOf (tick nfc iface now st)) = now
  /\ run nfc cmp iface (map Frame times) (stateOf (tick nfc iface now st))
     = stateOf (tick nfc iface now st).
Proof.
  intros Hnow Htimes.
  assert (Hlast : lastTick (stateOf (tick nfc iface now st)) = now).
  { unfold tick.
    assert (Hgt : (now - lastTick st >? 1500)%Z = true)
      by (apply Z.gtb_lt; lia).
    rewrite Hgt.
    match goal with |- context [runClick nfc iface ?r ?s] =>
      pose proof (lastTick_runClick nfc iface r s) as H;
      destruct (runClick nfc iface r s) end; simpl in *;
      [now rewrite lastTick_queueSort | exact H]. }
  split; [exact Hlast |].
  set (st1 := stateOf (tick nfc iface now st)) in *.
  induction Htimes as [|t times Ht _ IH]; [reflexivity |].
  cbn [map]. unfold run in *. cbn [fold_left step].
  assert (E : stateOf (tick nfc iface t st1) = st1).
  { unfold tick. rewrite Hlast.
    assert (Hle : (t - now >? 1500)%Z = false)
      by (rewrite Z.gtb_ltb; apply Z.ltb_ge; lia).
    now rewrite Hle. }
  rewrite E. exact IH.
Qed.

Lemma tick_throttle_witness :
  (2000 - lastTick (loaded togglePage) > 1500)%Z
  /\ Forall (fun t => (t - 2000 <= 1500)%Z) [2016; 2033; 3500]%Z
  /\ lastTick (stateOf (tick nfcOfNormal (parsedAs togglePage) 2000
                          (loaded togglePage))) = 2000%Z
  /\ run nfcOfNormal compareBase (parsedAs togglePage)
       (map Frame [2016; 2033; 3500]%Z)
       (stateOf (tick nfcOfNormal (parsedAs togglePage) 2000
                   (loaded togglePage)))
     = stateOf (tick nfcOfNormal (parsedAs togglePage) 2000
                  (loaded togglePage)).
Proof.
  assert (H1 : (2000 - lastTick (loaded togglePage) > 1500)%Z)
    by (simpl; lia).
  assert (H2 : Forall (fun t => (t - 2000 <= 1500)%Z) [2016; 2033; 3500]%Z)
    by (repeat constructor; lia).
  split; [exact H1 |]. split; [exact H2 |].
  exact (tick_throttle nfcOfNormal compareBase (parsedAs togglePage) 2000
           (loaded togglePage) [2016; 2033; 3500]%Z H1 H2).
Defined.

(* --------------------------------------------------------------------- *)
(** *** The elements of the page *)

Lemma setAttr_twice n v attrs :
  setAttr n v (setAttr n v attrs) = setAttr n v attrs.
Proof.
  induction attrs as [|[k w] rest IH]; simpl.
  - now rewrite str_eqb_refl.
  - destruct (str_eqb k n) eqn:Hk; simpl; rewrite Hk; [reflexivity |].
    now rewrite IH.
Qed.

Lemma sameButMark_refl e : sameButMark e e.
Proof. repeat split. now left. Qed.

Lemma sameButMark_mark e e0 :
  sameButMark e e0 ->
  sameButMark (withAttr clickedSummaryAttr (lit "1") e) e0.
Proof.
  intros [Hid [Htag [Hcl Hattr]]]. repeat split; try assumption.
  right. simpl. destruct Hattr as [-> | ->]; [reflexivity |].
  apply setAttr_twice.
Qed.

Lemma selves_prune P f :
  incl (map self (locs (prune P f))) (map self (locs f)).
Proof.
  intros e He. unfold locs in He. rewrite locs_prune in He by reflexivity.
  apply in_map_iff in He. destruct He as [v' [<- Hv']].
  apply in_map_iff in Hv'. destruct Hv' as [v [<- Hv]].
  apply filter_In in Hv. simpl. apply in_map. tauto.
Qed.

Lemma fromDocument_refl d : fromDocument d d.
Proof.
  intros e He. exists e. split; [exact He | apply sameButMark_refl].
Qed.

Lemma fromDocument_sub d0 d1 d2 :
  incl (map self (locs (document d2))) (map self (locs (document d1))) ->
  fromDocument d0 d1 -> fromDocument d0 d2.
Proof. intros Hsub H1 e He. apply H1. now apply Hsub. Qed.

Lemma fromDocument_setAttribute d0 d el :
  fromDocument d0 d ->
  fromDocument d0 (setAttribute el clickedSummaryAttr (lit "1") d).
Proof.
  intros H e He. rewrite document_setAttribute, map_map in He.
  apply in_map_iff in He. destruct He as [v [<- Hv]].
  destruct (H (self v) (in_map self _ _ Hv)) as [e0 [He0 Hsame]].
  exists e0. split; [exact He0 |]. simpl. unfold atElement.
  destruct (Nat.eqb (eid (self v)) el); [| exact Hsame].
  now apply sameButMark_mark.
Qed.

(** What every state of the running script keeps of the document [d0]. *)
Section Kept.

Variable nfc : jsstring -> jsstring.
Variable cmp : jsstring -> jsstring -> Z.
Variable iface : nat -> interface.
Variable d0 : dom.

Let kept (d : dom) : Prop := wf d /\ fromDocument d0 d.

Lemma kept_remove c d : kept d -> kept (remove c d).
Proof.
  intros [Hwf H]. split; [now apply remove_wf |].
  apply (fromDocument_sub d0 d); [| exact H].
  rewrite (@remove_document c d Hwf). apply selves_prune.
Qed.

Lemma kept_purgeSpan blocked d s : kept d -> kept (purgeSpan nfc blocked d s).
Proof.
  intros H. unfold purgeSpan.
  destruct (isTargetSpan nfc blocked d s); [| exact H].
  destruct (chordContainerFor d s) as [c|]; [| exact H].
  destruct (isChordBlock d c); [| exact H]. now apply kept_remove.
Qed.

Lemma kept_purge blocked r d : kept d -> kept (purge nfc blocked r d).
Proof.
  unfold purge. generalize (querySelectorAll r spanSel d). intros l.
  revert d. induction l as [|s l IH]; intros d H; [exact H |].
  simpl. apply IH. now apply kept_purgeSpan.
Qed.

Lemma kept_click r d clicks :
  kept d -> kept (fst (stateOf (clickSummaryIfPresent nfc iface r d clicks))).
Proof.
  intros [Hwf H].
  destruct (click_outcome nfc iface r d clicks) as [E | [el [_ E]]]; rewrite E.
  - now split.
  - split; [now apply setAttribute_wf | now apply fromDocument_setAttribute].
Qed.

Lemma kept_sort d : kept d -> kept (domOf (sortChordBlocks nfc cmp Document d)).
Proof.
  intros [Hwf H]. unfold sortChordBlocks.
  destruct (List.length (chordBlocks Document d) <? 2); [now split |].
  destruct (@sortGroups_rearranged nfc cmp
              (groupByParent d (chordBlocks Document d)) d Hwf
              (groupByParent_groupsOf d (chordBlocks Document d)))
    as [d' [Hrun [Hwf' [_ Hperm]]]].
  rewrite Hrun. split; [exact Hwf' |].
  apply (fromDocument_sub d0 d); [| exact H].
  intros e He. exact (Permutation_in _ Hperm He).
Qed.

Lemma kept_runClick r st :
  kept (page st) -> kept (page (stateOf (runClick nfc iface r st))).
Proof.
  intros H. rewrite stateOf_runClick.
  exact (kept_click r (page st) (clicked st) H).
Qed.

Lemma page_queueSort st : page (queueSort st) = page st.
Proof. unfold queueSort. now destruct (_sortPending st). Qed.

Lemma kept_observeAdded st node :
  kept (page st) -> kept (page (fst (observeAdded nfc st node))).
Proof.
  intros H. unfold observeAdded.
  destruct (matchesSelAt spanSel (page st) node
            && isTargetSpan nfc (blockedChords st) (page st) node).
  - destruct (chordContainerFor (page st) node) as [c|]; [| exact H].
    destruct (isChordBlock (page st) c); [| exact H].
    simpl. now apply kept_remove.
  - destruct (querySelectorAll (Element node) spanSel (page st)); [exact H |].
    simpl. now apply kept_purge.
Qed.

Lemma kept_observerCallback ms st :
  kept (page st) -> kept (page (stateOf (observerCallback nfc iface ms st))).
Proof.
  intros H.
  assert (Hall : kept (page
            (fst (stateOf (fold_left
                    (fun acc m => fold_left (observeNode nfc iface) m acc)
                    ms (Normal (st, false))))))).
  { apply (observeAll_inv nfc iface (fun acc => kept (page (fst acc)))
             (fun _ => True)); [| intros; exact I | exact H].
    intros st1 t node _ H1. rewrite observeNode_element. simpl.
    apply kept_runClick. now apply kept_observeAdded. }
  destruct (observerCallback_cases nfc iface ms st) as [-> | [_ ->]];
    [exact Hall | now rewrite page_queueSort].
Qed.

Lemma kept_step st ev :
  ownEvent ev -> kept (page st) -> kept (page (step nfc cmp iface st ev)).
Proof.
  intros Hev H. destruct ev as [|ms| |now|d]; simpl.
  - unfold start. apply kept_runClick. rewrite page_queueSort.
    simpl. now apply kept_purge.
  - now apply kept_observerCallback.
  - destruct (timeouts st); [exact H |]. simpl. now apply kept_sort.
  - unfold tick. destruct (now - lastTick st >? 1500)%Z; [| exact H].
    match goal with |- context [runClick nfc iface ?r ?s] =>
      assert (Hc : kept (page (stateOf (runClick nfc iface r s))))
        by (apply kept_runClick; exact H);
      destruct (runClick nfc iface r s) end; simpl in *;
      [now rewrite page_queueSort | exact Hc].
  - destruct Hev.
Qed.

Lemma kept_run evs : forall st,
  Forall ownEvent evs -> kept (page st) ->
  kept (page (run nfc cmp iface evs st)).
Proof.
  induction evs as [|ev evs IH]; intros st Hevs H; [exact H |].
  inversion Hevs as [|? ? Hev Hrest]; subst. simpl. apply IH; [exact Hrest |].
  now apply kept_step.
Qed.

End Kept.

(** As long as nobody else changes the page, the script never brings a new
    element into the document and never changes an element it leaves
    there except by the mark of a click: after any sequence of starts,
    observer calls, timers and frames, every element of the document is an
    element of the document the script was loaded into, with its tag, its
    classes and, up to the mark, its attributes. *)
Theorem script_keeps_elements nfc cmp iface evs d :
  wf d -> Forall ownEvent evs ->
  fromDocument d (page (run nfc cmp iface evs (loaded d))).
Proof.
  intros Hwf Hevs.
  apply (kept_run nfc cmp iface d evs (loaded d) Hevs).
  split; [exact Hwf | apply fromDocument_refl].
Qed.

Lemma script_keeps_elements_witness :
  wf twoBlocks
  /\ Forall ownEvent
       [Start; Frame 2000; Mutations [[AddedElement 6; AddedText]]; Timeout]
  /\ fromDocument twoBlocks
       (page (run nfcOfNormal compareBase (parsedAs twoBlocks)
                [Start; Frame 2000; Mutations [[AddedElement 6; AddedText]];
                 Timeout]
                (loaded twoBlocks))).
Proof.
  assert (H : Forall ownEvent
                [Start; Frame 2000;
                 Mutations [[AddedElement 6; AddedText]]; Timeout])
    by (repeat constructor).
  split; [exact twoBlocks_wf |]. split; [exact H |].
  exact (script_keeps_elements nfcOfNormal compareBase (parsedAs twoBlocks)
           _ twoBlocks twoBlocks_wf H).
Defined.

(* --------------------------------------------------------------------- *)
(** *** start *)

(** Loaded into a document where no [span.cbg1qdk] lies inside another
    one, start leaves a page in which no label is both in the exclusion
    list and in a container that passes the chord-diagram guard (the click
    that follows the purge does not undo it), and it leaves exactly one
    sort waiting. *)
Theorem start_purges_and_queues nfc iface d :
  wf d -> spansApart d ->
  let st := stateOf (start nfc iface (loaded d)) in
  _sortPending st = true /\ timeouts st = 1
  /\ forall s c,
       In s (querySelectorAll Document spanSel (page st)) ->
       isTargetSpan nfc blockedChordsList (page st) s = true ->
       chordContainerFor (page st) s = Some c ->
       isChordBlock (page st) c = false.
Proof.
  intros Hwf Hspans. unfold start. rewrite stateOf_runClick.
  unfold withClicks, runPurge, queueSort, loaded.
  cbn [page blockedChords _sortPending timeouts lastTick clicked withPage].
  assert (Eset : newSet blockedChordsList [] = blockedChordsList)
    by (vm_compute; reflexivity).
  rewrite Eset.
  set (d1 := purge nfc blockedChordsList Document d).
  destruct (purge_fixed nfc blockedChordsList d Hwf Hspans) as [Hwf1 Hfix].
  fold d1 in Hwf1, Hfix.
  destruct (click_outcome nfc iface Document d1 []) as [E | [el [_ E]]];
    rewrite E; cbn [page _sortPending timeouts];
    (split; [reflexivity |]); (split; [reflexivity |]); intros s c Hs Ht Hc.
  - exact (fixed_none_designated nfc blockedChordsList d1 s c Hwf1 Hs
             (Hfix s Hs) Ht Hc).
  - rewrite querySelectorAll_setAttribute in Hs by reflexivity.
    rewrite isTargetSpan_setAttribute in Ht.
    rewrite chordContainerFor_setAttribute in Hc.
    rewrite isChordBlock_setAttribute.
    exact (fixed_none_designated nfc blockedChordsList d1 s c Hwf1 Hs
             (Hfix s Hs) Ht Hc).
Qed.

Lemma strayLabel_wf : wf strayLabel.
Proof. apply wfb_sound. vm_compute. reflexivity. Qed.

Lemma strayLabel_spansApart : spansApart strayLabel.
Proof. apply spansApartb_sound. vm_compute. reflexivity. Qed.

Lemma start_purges_and_queues_witness :
  wf strayLabel /\ spansApart strayLabel
  /\ let st := stateOf (start nfcOfNormal (parsedAs strayLabel)
                          (loaded strayLabel)) in
     _sortPending st = true /\ timeouts st = 1
     /\ forall s c,
          In s (querySelectorAll Document spanSel (page st)) ->
          isTargetSpan nfcOfNormal blockedChordsList (page st) s = true ->
          chordContainerFor (page st) s = Some c ->
          isChordBlock (page st) c = false.
Proof.
  split; [exact strayLabel_wf |]. split; [exact strayLabel_spansApart |].
  exact (start_purges_and_queues nfcOfNormal (parsedAs strayLabel) strayLabel
           strayLabel_wf strayLabel_spansApart).
Defined.

(* ===================================================================== *)
(** ** Sorting a second time *)
(* ===================================================================== *)

(* --------------------------------------------------------------------- *)
(** *** Child lists, node by node *)

Lemma isElem_tag b k : isElem b k = isTag b (nodeId k).
Proof. now destruct k. Qed.

Lemma nodeIds_mapKids p g ks : nodeIds (map (mapKids p g) ks) = nodeIds ks.
Proof.
  unfold nodeIds. rewrite map_map. apply map_ext. now intros [s | e ks'].
Qed.

Lemma map_filter_commute (A B : Type) (h : A -> B) (pa : A -> bool)
  (pb : B -> bool) (l : list A) :
  (forall x, pa x = pb (h x)) -> map h (filter pa l) = filter pb (map h l).
Proof.
  intros H. induction l as [|x l IH]; [reflexivity |]. simpl.
  rewrite <- H. destruct (pa x); simpl; now rewrite IH.
Qed.

Lemma nodeIds_moveLast b ks :
  nodeIds (moveLast b ks) = moveLastTag b (nodeIds ks).
Proof.
  unfold nodeIds, moveLast, moveLastTag. rewrite map_app. f_equal.
  - apply map_filter_commute. intros k. now rewrite isElem_tag.
  - apply map_filter_commute. intros k. apply isElem_tag.
Qed.

Lemma kidTags_reorder p b d q :
  wf d ->
  kidTags (reorder p (moveLast b) d) q
  = if Nat.eqb q p then option_map (moveLastTag b) (kidTags d q)
    else kidTags d q.
Proof.
  intros Hwf. unfold kidTags.
  rewrite (@locate_reorder p (moveLast b) (moveLast_perm b) d q Hwf).
  destruct (locate q d) as [v|] eqn:Hloc; [| now destruct (Nat.eqb q p)].
  destruct (@locate_some q d v Hloc) as [_ Hid].
  simpl. unfold kidsAfter. rewrite Hid.
  destruct (Nat.eqb q p); simpl; f_equal.
  - now rewrite nodeIds_moveLast, nodeIds_mapKids.
  - apply nodeIds_mapKids.
Qed.

Lemma elementKids_tags ks :
  elementKids ks
  = flat_map (fun t => match t with Some i => [i] | None => [] end)
      (nodeIds ks).
Proof.
  induction ks as [|k ks IH]; [reflexivity |].
  destruct k as [s | e ks']; simpl; now rewrite <- IH.
Qed.

Lemma tags_single s ks :
  NoDup (elementKids ks) -> In s (elementKids ks) ->
  filter (isTag s) (nodeIds ks) = [Some s].
Proof.
  induction ks as [|k ks IH]; intros Hnd Hin; [contradiction |].
  destruct k as [t | e ks']; simpl in *; [now apply IH |].
  inversion Hnd as [|? ? Hx Hnd']; subst.
  destruct (Nat.eqb (eid e) s) eqn:E.
  - apply Nat.eqb_eq in E. subst s. f_equal. apply filter_none.
    intros t Ht. destruct t as [i|]; [| reflexivity]. simpl.
    apply Nat.eqb_neq. intros ->. apply Hx.
    rewrite elementKids_tags. apply in_flat_map. exists (Some (eid e)).
    split; [exact Ht | now left].
  - apply Nat.eqb_neq in E. destruct Hin as [Heq | Hin]; [contradiction |].
    now apply IH.
Qed.

Lemma filter_tag_other s s' tags :
  s' <> s ->
  filter (isTag s') (moveLastTag s tags) = filter (isTag s') tags.
Proof.
  intros Hne. unfold moveLastTag. rewrite filter_app, !filter_filter.
  rewrite (@filter_none _ (fun x => isTag s x && isTag s' x)).
  - rewrite app_nil_r. apply filter_ext. intros [i|]; [| reflexivity].
    simpl. destruct (Nat.eqb i s') eqn:E; [| now rewrite andb_false_r].
    apply Nat.eqb_eq in E. subst i. apply Nat.eqb_neq in Hne.
    now rewrite Hne.
  - intros [i|] _; [| reflexivity]. simpl.
    destruct (Nat.eqb i s) eqn:E; [| reflexivity].
    apply Nat.eqb_eq in E. subst i. apply Nat.eqb_neq.
    intros E. now apply Hne.
Qed.

(** Moving the distinct children [S] to the end one after the other
    leaves the other nodes first, in their order, then [S] in its
    order. *)
Lemma fold_moveLastTag S : forall tags,
  NoDup S -> (forall s, In s S -> filter (isTag s) tags = [Some s]) ->
  fold_left (fun acc s => moveLastTag s acc) S tags
  = filter (fun t => negb (tagIn S t)) tags ++ map Some S.
Proof.
  induction S as [|s S IH]; intros tags HS Hone.
  - simpl. rewrite app_nil_r. symmetry. apply filter_all.
    now intros [i|].
  - inversion HS as [|? ? Hs HS']; subst. simpl fold_left.
    rewrite IH.
    + unfold moveLastTag. rewrite (Hone s (or_introl eq_refl)).
      rewrite filter_app, filter_filter. simpl.
      assert (Hns : inList S s = false).
      { destruct (inList S s) eqn:E; [| reflexivity].
        apply inList_In in E. contradiction. }
      rewrite Hns. simpl. rewrite <- app_assoc. simpl. f_equal.
      apply filter_ext. intros [i|]; [| reflexivity]. simpl.
      unfold inList. simpl. now rewrite negb_orb.
    + exact HS'.
    + intros s' Hs'. rewrite filter_tag_other.
      * apply Hone. now right.
      * intros ->. contradiction.
Qed.

Lemma kidIds_tags d q :
  kidIds d q
  = option_map
      (flat_map (fun t => match t with Some i => [i] | None => [] end))
      (kidTags d q).
Proof.
  unfold kidIds, kidTags. destruct (locate q d) as [v|]; [| reflexivity].
  simpl. f_equal. apply elementKids_tags.
Qed.

Section SortingTags.

Variable nfc : jsstring -> jsstring.
Variable cmp : jsstring -> jsstring -> Z.
Variable d0 : dom.
Hypothesis Hwf0 : wf d0.
Hypothesis Hapart : blocksApart d0.

Lemma appendAll_tags p S : forall d d',
  settled d0 d ->
  (forall s, In s S ->
     In s (chordBlocks Document d0) /\ parentElement d0 s = Some p) ->
  appendAll p S d = Done d' ->
  settled d0 d'
  /\ kidTags d' p
     = option_map (fold_left (fun acc s => moveLastTag s acc) S) (kidTags d p)
  /\ forall q, q <> p -> kidTags d' q = kidTags d q.
Proof.
  induction S as [|s S IH]; intros d d' Hst HS Hrun.
  - simpl in Hrun. injection Hrun as <-. split; [assumption |]. split.
    + simpl. now destruct (kidTags d p).
    + reflexivity.
  - destruct (HS s (or_introl eq_refl)) as [Hs Hpar].
    assert (Hwf : wf d) by apply Hst.
    simpl appendAll in Hrun.
    rewrite (@appendChild_child d p s Hwf) in Hrun
      by (now rewrite (settled_parent d0 d s Hst)).
    destruct (IH (reorder p (moveLast s) d) d') as [Hst' [Hp Hq]].
    + now apply settled_move.
    + intros x Hx. apply HS. now right.
    + exact Hrun.
    + split; [exact Hst' |]. split.
      * rewrite Hp, (kidTags_reorder p s d p Hwf), Nat.eqb_refl.
        simpl fold_left. now destruct (kidTags d p).
      * intros q Hne. rewrite (Hq q Hne), (kidTags_reorder p s d q Hwf).
        apply Nat.eqb_neq in Hne. now rewrite Hne.
Qed.

Lemma sortGroups_tags groups : forall done d,
  NoDup (map fst (done ++ groups)) ->
  (forall p l, In (p, l) groups ->
     NoDup l /\ forall b, In b l ->
       In b (chordBlocks Document d0) /\ parentElement d0 b = Some p) ->
  settled d0 d -> tagsState nfc cmp d0 done d ->
  exists d',
    sortGroups nfc cmp groups d = Done d'
    /\ settled d0 d' /\ tagsState nfc cmp d0 (done ++ groups) d'.
Proof.
  induction groups as [|[p l] groups IH];
    intros done d Hkeys Hgr Hst [Hother Hdone].
  - exists d. rewrite app_nil_r. split; [reflexivity |]. split; [assumption |].
    now split.
  - destruct (Hgr p l (or_introl eq_refl)) as [Hndl Hl].
    assert (HS : sortBy (compareBlocks nfc cmp d) l
                 = sortBy (compareBlocks nfc cmp d0) l).
    { apply sortBy_ext. intros a b Ha Hb. unfold compareBlocks.
      rewrite (chordKey_settled nfc d0 Hwf0 d a Hst (proj1 (Hl a Ha))).
      rewrite (chordKey_settled nfc d0 Hwf0 d b Hst (proj1 (Hl b Hb))).
      reflexivity. }
    simpl sortGroups. rewrite HS.
    set (S := sortBy (compareBlocks nfc cmp d0) l) in *.
    assert (HSl : Permutation S l) by apply sortBy_perm.
    assert (HSb : forall s, In s S ->
              In s (chordBlocks Document d0) /\ parentElement d0 s = Some p).
    { intros s Hs. apply Hl. exact (Permutation_in _ HSl Hs). }
    destruct (appendAll_sorting d0 Hwf0 Hapart p S d Hst HSb)
      as [d1 [Hrun _]].
    destruct (appendAll_tags p S d d1 Hst HSb Hrun) as [Hst1 [Hp Hq]].
    rewrite Hrun.
    assert (Hpnot : ~ In p (map fst done)).
    { rewrite map_app in Hkeys. simpl in Hkeys.
      apply NoDup_remove_2 in Hkeys. intros Hin. apply Hkeys.
      apply in_or_app. now left. }
    destruct (IH (done ++ [(p, l)]) d1) as [d' [Hrun' [Hst' Hfin]]].
    + now rewrite <- app_assoc.
    + intros q l' Hin. apply Hgr. now right.
    + exact Hst1.
    + split.
      * intros q Hq'. rewrite map_app in Hq'. simpl in Hq'.
        assert (q <> p).
        { intros ->. apply Hq'. apply in_or_app. right. now left. }
        rewrite (Hq q H). apply Hother. intros Hin. apply Hq'.
        apply in_or_app. now left.
      * intros p' l' Hin. apply in_app_or in Hin.
        destruct Hin as [Hin | [Heq | []]].
        -- assert (p' <> p).
           { intros ->. apply Hpnot. now apply (in_map fst _ (p, l')). }
           rewrite (Hq p' H). now apply Hdone.
        -- injection Heq as <- <-. rewrite Hp, (Hother p Hpnot).
           unfold kidTags.
           destruct (locate p d0) as [v0|] eqn:Hloc; [| reflexivity].
           simpl. f_equal.
           assert (Hk : kidIds d0 p = Some (elementKids (kids v0))).
           { unfold kidIds. now rewrite Hloc. }
           rewrite fold_moveLastTag.
           ++ f_equal. apply filter_ext. intros [i|]; [| reflexivity].
              simpl. f_equal. now apply inList_perm.
           ++ exact (Permutation_NoDup (Permutation_sym HSl) Hndl).
           ++ intros s Hs. apply tags_single.
              ** exact (kidIds_NoDup d0 p _ Hwf0 Hk).
              ** apply (@parent_kid d0 s p _ Hwf0); [| exact Hk].
                 apply HSb. exact Hs.
    + exists d'. split; [exact Hrun' |]. split; [exact Hst' |].
      now rewrite <- app_assoc in Hfin.
Qed.

End SortingTags.

(* --------------------------------------------------------------------- *)
(** *** Appending the children that already stand last *)

Lemma sortBy_sorted_id c l :
  StronglySorted (fun a b => (c a b <= 0)%Z) l -> sortBy c l = l.
Proof.
  induction 1 as [|x l Hs IH Hx]; [reflexivity |].
  simpl. rewrite IH. destruct l as [|y l]; [reflexivity |].
  simpl. inversion Hx as [|? ? Hxy _]; subst.
  apply Z.leb_le in Hxy. now rewrite Hxy.
Qed.

Lemma isElem_mapKids b p g k : isElem b (mapKids p g k) = isElem b k.
Proof. now destruct k. Qed.

Lemma moveLast_natural b (h : node -> node) ks :
  (forall k, isElem b (h k) = isElem b k) ->
  map h (moveLast b ks) = moveLast b (map h ks).
Proof.
  intros H. unfold moveLast. rewrite map_app. f_equal.
  - apply map_filter_commute. intros k. now rewrite H.
  - apply map_filter_commute. intros k. now rewrite H.
Qed.

Lemma moveAllLast_natural S (h : node -> node) : forall ks,
  (forall b k, isElem b (h k) = isElem b k) ->
  map h (moveAllLast S ks) = moveAllLast S (map h ks).
Proof.
  induction S as [|s S IH]; intros ks H; [reflexivity |].
  unfold moveAllLast in *. simpl. rewrite (IH _ H). f_equal.
  apply moveLast_natural. apply H.
Qed.

Lemma mapKids_compose p g1 g2 :
  (forall ks, map (mapKids p g2) (g1 ks) = g1 (map (mapKids p g2) ks)) ->
  forall f,
    map (mapKids p g2) (map (mapKids p g1) f)
    = map (mapKids p (fun ks => g2 (g1 ks))) f.
Proof.
  intros Hnat f.
  induction f as [|s f IH|e ks f IHk IHf] using forest_ind.
  - reflexivity.
  - simpl. now rewrite IH.
  - simpl. rewrite IHf. f_equal. f_equal.
    destruct (Nat.eqb (eid e) p).
    + now rewrite Hnat, IHk.
    + exact IHk.
Qed.

Lemma reorder_compose p g1 g2 d :
  (forall ks, map (mapKids p g2) (g1 ks) = g1 (map (mapKids p g2) ks)) ->
  reorder p g2 (reorder p g1 d) = reorder p (fun ks => g2 (g1 ks)) d.
Proof.
  intros Hnat. unfold reorder. simpl.
  now rewrite !(mapKids_compose p g1 g2 Hnat).
Qed.

Lemma mapKids_fixed p g f : forall anc,
  (forall v, In v (locs_in anc f) -> vid v = p -> g (kids v) = kids v) ->
  map (mapKids p g) f = f.
Proof.
  induction f as [|s f IH|e ks f IHk IHf] using forest_ind; intros anc H.
  - reflexivity.
  - simpl. f_equal. apply (IH anc). intros v Hv. apply H.
    now rewrite locs_in_text.
  - simpl. rewrite locs_in_elem in H. f_equal.
    + f_equal. rewrite (IHk (e :: anc)).
      * destruct (Nat.eqb (eid e) p) eqn:E; [| reflexivity].
        apply Nat.eqb_eq in E.
        exact (H (mkView e ks anc) (or_introl eq_refl) E).
      * intros v Hv. apply H. right. apply in_or_app. now left.
    + apply (IHf anc). intros v Hv. apply H. right. apply in_or_app.
      now right.
Qed.

Lemma reorder_fixed p g d :
  (forall v, In v (locs (allTrees d)) -> vid v = p -> g (kids v) = kids v) ->
  reorder p g d = d.
Proof.
  intros H. unfold reorder. destruct d as [doc orph]. simpl. f_equal.
  - apply (mapKids_fixed p g doc []). intros v Hv. apply H.
    apply (in_document_allTrees (mkDom doc orph)). exact Hv.
  - apply (mapKids_fixed p g orph []). intros v Hv. apply H.
    rewrite locs_allTrees. apply in_or_app. now right.
Qed.

Lemma appendAll_reorder p S : forall d,
  wf d -> (forall s, In s S -> parentElement d s = Some p) ->
  appendAll p S d = Done (reorder p (moveAllLast S) d).
Proof.
  induction S as [|s S IH]; intros d Hwf HS.
  - simpl. f_equal. symmetry. apply reorder_fixed. reflexivity.
  - simpl appendAll.
    rewrite (@appendChild_child d p s Hwf (HS s (or_introl eq_refl))).
    rewrite IH.
    + f_equal. rewrite reorder_compose; [reflexivity |].
      intros ks. apply moveLast_natural. intros k. apply isElem_mapKids.
    + exact (@reorder_wf p (moveLast s) (moveLast_perm s) d Hwf).
    + intros x Hx.
      rewrite (@rearranged_parent d _ x (@reorder_rearranged p s d Hwf)).
      apply HS. now right.
Qed.

Lemma isElem_tags s T S :
  nodeIds T = map Some S -> ~ In s S ->
  forall k, In k T -> isElem s k = false.
Proof.
  intros HT Hs k Hk. rewrite isElem_tag.
  assert (Hin : In (nodeId k) (map Some S)).
  { rewrite <- HT. now apply in_map. }
  apply in_map_iff in Hin. destruct Hin as [s' [<- Hs']]. simpl.
  apply Nat.eqb_neq. intros ->. contradiction.
Qed.

(** Children that stand last, in the order [S], among nodes that are
    none of them: moving them last one after the other gives the same
    list. *)
Lemma moveAllLast_tail S : forall T A U,
  nodeIds T = map Some S -> NoDup S ->
  (forall s k, In s S -> In k (A ++ U) -> isElem s k = false) ->
  moveAllLast S (A ++ T ++ U) = A ++ U ++ T.
Proof.
  induction S as [|s S IH]; intros T A U HT HS Hout.
  - destruct T; [| discriminate]. simpl. now rewrite app_nil_r.
  - destruct T as [|t T]; [discriminate |].
    simpl in HT. injection HT as Ht HT.
    inversion HS as [|? ? Hs HS']; subst.
    change (moveAllLast (s :: S) (A ++ (t :: T) ++ U))
      with (moveAllLast S (moveLast s (A ++ t :: T ++ U))).
    assert (Hmove : moveLast s (A ++ t :: T ++ U) = A ++ T ++ (U ++ [t])).
    { unfold moveLast. rewrite !filter_app. simpl filter.
      assert (Et : isElem s t = true)
        by (rewrite isElem_tag, Ht; simpl; apply Nat.eqb_refl).
      rewrite Et. simpl. rewrite !filter_app.
      assert (EA : forall k, In k A -> isElem s k = false).
      { intros k Hk. apply Hout; [now left |]. apply in_or_app. now left. }
      assert (EU : forall k, In k U -> isElem s k = false).
      { intros k Hk. apply Hout; [now left |]. apply in_or_app. now right. }
      pose proof (isElem_tags s T S HT Hs) as ET.
      rewrite (@filter_none node (isElem s) A EA).
      rewrite (@filter_none node (isElem s) U EU).
      rewrite (@filter_none node (isElem s) T ET).
      rewrite (@filter_all node (fun k => negb (isElem s k)) A)
        by (intros k Hk; now rewrite (EA k Hk)).
      rewrite (@filter_all node (fun k => negb (isElem s k)) U)
        by (intros k Hk; now rewrite (EU k Hk)).
      rewrite (@filter_all node (fun k => negb (isElem s k)) T)
        by (intros k Hk; now rewrite (ET k Hk)).
      simpl. now rewrite <- !app_assoc. }
    rewrite Hmove, (IH T A (U ++ [t]) HT HS').
    + now rewrite <- app_assoc.
    + intros s' k Hs' Hk. rewrite app_assoc in Hk. apply in_app_or in Hk.
      destruct Hk as [Hk | [<- | []]].
      * apply Hout; [now right | exact Hk].
      * rewrite isElem_tag, Ht. simpl. apply Nat.eqb_neq.
        intros ->. contradiction.
Qed.

(* --------------------------------------------------------------------- *)
(** *** The byParent map lists the blocks in document order *)

Lemma groupOf_pushTo x p b m :
  groupOf x (pushTo p b m)
  = if Nat.eqb p x then groupOf x m ++ [b] else groupOf x m.
Proof.
  unfold groupOf. induction m as [|[q l] m IH]; simpl.
  - now destruct (Nat.eqb p x).
  - destruct (Nat.eqb q p) eqn:Eqp; simpl.
    + apply Nat.eqb_eq in Eqp. subst q.
      now destruct (Nat.eqb p x).
    + destruct (Nat.eqb q x) eqn:Eqx; [| exact IH].
      apply Nat.eqb_eq in Eqx. subst q.
      apply Nat.eqb_neq in Eqp.
      assert (E : Nat.eqb p x = false) by (apply Nat.eqb_neq; congruence).
      now rewrite E.
Qed.

Lemma groupOf_fold d p B : forall m,
  groupOf p (fold_left
               (fun m b => match parentElement d b with
                           | Some q => pushTo q b m
                           | None => m
                           end) B m)
  = groupOf p m ++ filter (parentIs d p) B.
Proof.
  induction B as [|b B IH]; intros m; simpl.
  - now rewrite app_nil_r.
  - rewrite IH. unfold parentIs at 2.
    destruct (parentElement d b) as [q|]; [| reflexivity].
    rewrite groupOf_pushTo. destruct (Nat.eqb q p); [| reflexivity].
    now rewrite <- app_assoc.
Qed.

Lemma groupOf_groupByParent d B p :
  groupOf p (groupByParent d B) = filter (parentIs d p) B.
Proof. unfold groupByParent. now rewrite groupOf_fold. Qed.

Lemma groupOf_in m p l :
  NoDup (map fst m) -> In (p, l) m -> groupOf p m = l.
Proof.
  unfold groupOf. induction m as [|[q l'] m IH]; intros Hnd Hin;
    [contradiction |].
  simpl in *. inversion Hnd as [|? ? Hq Hnd']; subst.
  destruct Hin as [Heq | Hin].
  - injection Heq as -> ->. now rewrite Nat.eqb_refl.
  - destruct (Nat.eqb q p) eqn:E; [| now apply IH].
    apply Nat.eqb_eq in E. subst q. exfalso. apply Hq.
    now apply (in_map fst _ (p, l)).
Qed.

Lemma map_filter_in (A B : Type) (h : A -> B) (pa : A -> bool)
  (pb : B -> bool) (l : list A) :
  (forall x, In x l -> pa x = pb (h x)) ->
  map h (filter pa l) = filter pb (map h l).
Proof.
  intros H. induction l as [|x l IH]; [reflexivity |]. simpl.
  rewrite <- (H x (or_introl eq_refl)).
  destruct (pa x); simpl; rewrite IH; auto; intros y Hy; apply H; now right.
Qed.

(** Below a child of [e] nothing is a child of [e]. *)
Lemma deeper_not_child ks : forall e anc,
  ~ In (eid e) (map vid (locs_in (e :: anc) ks)) ->
  map vid (filter (hasParent (eid e)) (locs_in (e :: anc) ks))
  = elementKids ks.
Proof.
  induction ks as [|k ks IH]; intros e anc Hnot; [reflexivity |].
  destruct k as [s | e' ks'].
  - rewrite locs_in_text in *. simpl. now apply IH.
  - rewrite locs_in_elem in *. cbn [filter].
    assert (Hh : hasParent (eid e) (mkView e' ks' (e :: anc)) = true)
      by (unfold hasParent; simpl; apply Nat.eqb_refl).
    rewrite Hh, filter_app.
    rewrite (@filter_none view (hasParent (eid e))
               (locs_in (e' :: e :: anc) ks')).
    + simpl. f_equal. apply IH. intros Hin. apply Hnot.
      simpl. right. rewrite map_app. apply in_or_app. now right.
    + intros w Hw. unfold hasParent.
      destruct (@above_in_forest ks' (e' :: e :: anc) w Hw)
        as [rel [Hrel Hall]].
      rewrite Hrel. destruct rel as [|a rel]; simpl.
      * apply Nat.eqb_neq. intros E. apply Hnot. simpl. now left.
      * apply Nat.eqb_neq. intros E. apply Hnot. simpl. right.
        rewrite map_app. apply in_or_app. left.
        inversion Hall as [|? ? Ha _]; subst.
        apply in_map_iff in Ha. destruct Ha as [u [Hu Hin]].
        apply in_map_iff. exists u. split; [| exact Hin].
        unfold vid. now rewrite Hu.
Qed.

(** The views whose parent is [vp], in document order, are the element
    children of [vp] in child order. *)
Lemma children_in_order f vp :
  wf_forest f -> In vp (locs f) ->
  map vid (filter (hasParent (vid vp)) (locs f)) = elementKids (kids vp).
Proof.
  intros Hwf Hvp.
  destruct (@locs_segment f [] vp Hvp) as [l1 [l2 Hseg]].
  fold (locs f) in Hseg.
  assert (Hnd : NoDup (map vid (l1 ++ vp :: descendants vp ++ l2)))
    by (rewrite <- Hseg; exact Hwf).
  assert (Hchild : forall v, In v (locs f) -> hasParent (vid vp) v = true ->
            In v (descendants vp)).
  { intros v Hv Hp. unfold hasParent in Hp.
    destruct (above v) as [|a rest] eqn:Hab; [discriminate |].
    apply Nat.eqb_eq in Hp.
    destruct (@parent_view f v a rest Hv Hab) as [kc [Hpv Hk]].
    assert (E : mkView a kc rest = vp)
      by (apply (@view_unique (locs f) _ _ Hwf Hpv Hvp); exact Hp).
    rewrite <- E. unfold descendants. simpl.
    replace v with (mkView (self v) (kids v) (a :: rest))
      by (destruct v; simpl in *; now subst).
    apply kid_view. exact Hk. }
  assert (Hout : forall v, In v (l1 ++ [vp]) \/ In v l2 ->
            hasParent (vid vp) v = false).
  { intros v Hv. destruct (hasParent (vid vp) v) eqn:Hp; [exfalso | reflexivity].
    assert (Hin : In v (locs f)).
    { rewrite Hseg. destruct Hv as [Hv | Hv].
      - apply in_app_or in Hv. apply in_or_app.
        destruct Hv as [Hv | [<- | []]]; [now left | right; now left].
      - apply in_or_app. right. right. apply in_or_app. now right. }
    pose proof (Hchild v Hin Hp) as Hd.
    destruct Hv as [Hv | Hv].
    - replace (l1 ++ vp :: descendants vp ++ l2)
        with ((l1 ++ [vp]) ++ (descendants vp ++ l2)) in Hnd
        by (rewrite <- app_assoc; reflexivity).
      apply (NoDup_map_app_disjoint vid _ _ v Hnd Hv).
      apply in_or_app. now left.
    - replace (l1 ++ vp :: descendants vp ++ l2)
        with ((l1 ++ vp :: descendants vp) ++ l2) in Hnd
        by (rewrite <- app_assoc; reflexivity).
      apply (NoDup_map_app_disjoint vid _ _ v Hnd); [| exact Hv].
      apply in_or_app. right. now right. }
  rewrite Hseg.
  replace (l1 ++ vp :: descendants vp ++ l2)
    with ((l1 ++ [vp]) ++ descendants vp ++ l2)
    by (rewrite <- app_assoc; reflexivity).
  rewrite (filter_app _ (l1 ++ [vp])), (filter_app _ (descendants vp)).
  rewrite (@filter_none view (hasParent (vid vp)) (l1 ++ [vp]))
    by (intros v Hv; apply Hout; now left).
  rewrite (@filter_none view (hasParent (vid vp)) l2)
    by (intros v Hv; apply Hout; now right).
  rewrite app_nil_r. simpl. apply deeper_not_child.
  intros Hin. rewrite map_app in Hnd. simpl in Hnd.
  apply NoDup_remove_2 in Hnd. apply Hnd.
  apply in_or_app. right. rewrite map_app. apply in_or_app. now left.
Qed.

Lemma parentIs_view d p v :
  wf d -> In v (locs (document d)) -> parentIs d p (vid v) = hasParent p v.
Proof.
  intros Hwf Hv. unfold parentIs, parentElement, hasParent.
  rewrite (@doc_located d Hwf v Hv). now destruct (above v).
Qed.

Lemma blocks_of_parent_views d p L :
  wf d -> incl L (locs (document d)) ->
  filter (parentIs d p)
    (filter (isChordBlock d) (map vid (filter (matchesView blockSel) L)))
  = filter (isBlock d) (map vid (filter (hasParent p) L)).
Proof.
  intros Hwf. induction L as [|v L IH]; intros Hincl; [reflexivity |].
  assert (Hv : In v (locs (document d))) by (apply Hincl; now left).
  assert (HL : incl L (locs (document d)))
    by (intros x Hx; apply Hincl; now right).
  specialize (IH HL).
  pose proof (parentIs_view d p v Hwf Hv) as Hp.
  pose proof (isBlock_view d v Hwf Hv) as Hb.
  cbn [filter map].
  destruct (matchesView blockSel v) eqn:Em; cbn [filter map].
  - destruct (isChordBlock d (vid v)) eqn:Eg; cbn [filter map].
    + rewrite Hp. destruct (hasParent p v); cbn [filter map].
      * rewrite Hb. simpl. now rewrite IH.
      * exact IH.
    + destruct (hasParent p v); cbn [filter map]; [| exact IH].
      rewrite Hb. simpl. exact IH.
  - destruct (hasParent p v); cbn [filter map]; [| exact IH].
    rewrite Hb. simpl. exact IH.
Qed.

(** The array the byParent map holds for [p] lists the chord blocks among
    the children of [p], in child order. *)
Lemma group_is_block_kids d p l vp :
  wf d -> In vp (locs (document d)) -> vid vp = p ->
  In (p, l) (groupByParent d (chordBlocks Document d)) ->
  l = filter (isBlock d) (elementKids (kids vp)).
Proof.
  intros Hwf Hvp Hid Hin.
  pose proof (groupByParent_grouped d _ (chordBlocks_NoDup d Hwf))
    as [Gkeys _].
  rewrite <- (groupOf_in _ p l Gkeys Hin), groupOf_groupByParent.
  unfold chordBlocks. cbn [querySelectorAll].
  rewrite (blocks_of_parent_views d p (locs (document d)) Hwf
             (fun x Hx => Hx)).
  rewrite <- Hid.
  now rewrite (children_in_order (document d) vp (proj1 (@wf_parts d Hwf)) Hvp).
Qed.

Lemma elementKids_Some S : forall T,
  nodeIds T = map Some S -> elementKids T = S.
Proof.
  intros T HT. rewrite elementKids_tags, HT.
  clear. induction S as [|s S IH]; [reflexivity |]. simpl. now rewrite IH.
Qed.

Lemma isBlock_settled d0 d i : settled d0 d -> isBlock d i = isBlock d0 i.
Proof.
  intros [_ [Hshape [Hguard _]]]. unfold isBlock.
  now rewrite (matchesSelAt_shape blockSel d0 d i (Hshape i)), Hguard.
Qed.

Lemma document_ids_settled d0 d i :
  settled d0 d -> In i (map vid (locs (document d))) ->
  In i (map vid (locs (document d0))).
Proof.
  intros [_ [_ [_ [_ Hperm]]]] Hi.
  apply in_map_iff in Hi. destruct Hi as [v [Hid Hv]].
  pose proof (Permutation_in _ Hperm (in_map self _ _ Hv)) as Hs.
  apply in_map_iff in Hs. destruct Hs as [v0 [Hs Hv0]].
  apply in_map_iff. exists v0. split; [| exact Hv0].
  unfold vid in *. now rewrite Hs.
Qed.

Lemma parent_in_document d b p :
  wf d -> In b (map vid (locs (document d))) ->
  parentElement d b = Some p ->
  exists vp, In vp (locs (document d)) /\ vid vp = p.
Proof.
  intros Hwf Hb Hpar. apply in_map_iff in Hb. destruct Hb as [vb [Hid Hvb]].
  unfold parentElement in Hpar. rewrite <- Hid in Hpar.
  rewrite (@doc_located d Hwf vb Hvb) in Hpar.
  destruct (above vb) as [|a rest] eqn:Hab; [discriminate |].
  injection Hpar as Hp.
  destruct (@parent_view (document d) vb a rest Hvb Hab) as [kc [Hvp _]].
  exists (mkView a kc rest). split; [exact Hvp | exact Hp].
Qed.

Lemma sortGroups_fixed nfc cmp groups d1 :
  (forall p l, In (p, l) groups ->
     sortBy (compareBlocks nfc cmp d1) l = l /\ appendAll p l d1 = Done d1) ->
  sortGroups nfc cmp groups d1 = Done d1.
Proof.
  induction groups as [|[p l] groups IH]; intros H; [reflexivity |].
  simpl. destruct (H p l (or_introl eq_refl)) as [Hs Ha].
  rewrite Hs, Ha. apply IH. intros q l' Hin. apply H. now right.
Qed.

Lemma sortChordBlocks_tags nfc cmp d :
  wf d -> blocksApart d ->
  2 <= List.length (chordBlocks Document d) ->
  exists d1,
    sortChordBlocks nfc cmp Document d = Done d1
    /\ settled d d1
    /\ tagsState nfc cmp d (groupByParent d (chordBlocks Document d)) d1.
Proof.
  intros Hwf Hapart Hlen. unfold sortChordBlocks.
  assert (E : (List.length (chordBlocks Document d) <? 2) = false)
    by (apply Nat.ltb_ge; lia).
  rewrite E.
  pose proof (groupByParent_grouped d _ (chordBlocks_NoDup d Hwf))
    as [Gkeys [Gmem [Gall Gnd]]].
  destruct (sortGroups_tags nfc cmp d Hwf Hapart
              (groupByParent d (chordBlocks Document d)) [] d)
    as [d1 [Hrun [Hst Htags]]].
  - exact Gkeys.
  - intros p l Hin. split; [exact (Gnd p l Hin) |].
    intros b Hb. exact (Gmem p l b Hin Hb).
  - now apply settled_refl.
  - split; [reflexivity | intros p l []].
  - exists d1. split; [exact Hrun |]. split; [exact Hst | exact Htags].
Qed.

(** sortChordBlocks is idempotent on documents where no chord block lies
    inside another one: a second sort right after the first finds every
    block where the first one put it and leaves the DOM as it is. *)
Theorem sortChordBlocks_idempotent nfc cmp d :
  wf d -> consistentComparator cmp -> blocksApart d ->
  exists d1,
    sortChordBlocks nfc cmp Document d = Done d1
    /\ sortChordBlocks nfc cmp Document d1 = Done d1.
Proof.
  intros Hwf [Htot Htrans] Hapart.
  destruct (le_lt_dec 2 (List.length (chordBlocks Document d))) as [Hlen | Hlen].
  2: { exists d.
       assert (E : sortChordBlocks nfc cmp Document d = Done d).
       { unfold sortChordBlocks. apply Nat.ltb_lt in Hlen. now rewrite Hlen. }
       now split. }
  destruct (sortChordBlocks_tags nfc cmp d Hwf Hapart Hlen)
    as [d1 [Hrun [Hst [Hother Hdone]]]].
  exists d1. split; [exact Hrun |].
  assert (Hwf1 : wf d1) by apply Hst.
  unfold sortChordBlocks.
  destruct (List.length (chordBlocks Document d1) <? 2); [reflexivity |].
  apply sortGroups_fixed. intros p l1 Hin1.
  pose proof (groupByParent_grouped d1 _ (chordBlocks_NoDup d1 Hwf1))
    as [Gkeys1 [Gmem1 [Gall1 Gnd1]]].
  pose proof (groupByParent_grouped d _ (chordBlocks_NoDup d Hwf))
    as [Gkeys [Gmem [Gall Gnd]]].
  destruct l1 as [|b0 l1']; [split; reflexivity |].
  set (l1 := b0 :: l1') in *.
  assert (Hb0 : In b0 l1) by now left.
  destruct (Gmem1 p l1 b0 Hin1 Hb0) as [HbB1 Hpar1].
  destruct (chordBlocks_view d1 b0 HbB1) as [vb1 [Hvb1 [Hidb1 _]]].
  assert (Hb0doc1 : In b0 (map vid (locs (document d1))))
    by (rewrite <- Hidb1; now apply in_map).
  destruct (parent_in_document d1 b0 p Hwf1 Hb0doc1 Hpar1)
    as [vp1 [Hvp1 Hidp1]].
  pose proof (group_is_block_kids d1 p l1 vp1 Hwf1 Hvp1 Hidp1 Hin1) as Hl1.
  assert (Hb0doc : In b0 (map vid (locs (document d))))
    by exact (document_ids_settled d d1 b0 Hst Hb0doc1).
  assert (Hpar0 : parentElement d b0 = Some p)
    by (rewrite <- (settled_parent d d1 b0 Hst); exact Hpar1).
  assert (HbB : In b0 (chordBlocks Document d)).
  { apply in_map_iff in Hb0doc. destruct Hb0doc as [v0b [Hid0 Hv0b]].
    rewrite <- Hid0. apply isBlock_chordBlocks; [assumption | assumption |].
    rewrite Hid0, <- (isBlock_settled d d1 b0 Hst).
    now apply chordBlocks_isBlock. }
  destruct (Gall b0 p HbB Hpar0) as [l [Hin Hbl]].
  destruct (parent_in_document d b0 p Hwf Hb0doc Hpar0) as [v0 [Hv0 Hidp0]].
  assert (Hloc1 : locate p d1 = Some vp1)
    by (rewrite <- Hidp1; exact (@doc_located d1 Hwf1 vp1 Hvp1)).
  assert (Hloc0 : locate p d = Some v0)
    by (rewrite <- Hidp0; exact (@doc_located d Hwf v0 Hv0)).
  pose proof (Hdone p l Hin) as Htags.
  unfold kidTags in Htags. rewrite Hloc1, Hloc0 in Htags.
  simpl in Htags. injection Htags as Htags.
  set (S := sortBy (compareBlocks nfc cmp d) l) in *.
  unfold nodeIds at 1 in Htags.
  destruct (map_eq_app _ _ _ _ Htags) as [A [T [Hks [HA HT]]]].
  assert (HSl : Permutation S l) by apply sortBy_perm.
  assert (HSnd : NoDup S)
    by exact (Permutation_NoDup (Permutation_sym HSl) (Gnd p l Hin)).
  assert (HSB : forall s, In s S ->
            In s (chordBlocks Document d) /\ parentElement d s = Some p).
  { intros s Hs. apply (Gmem p l s Hin). exact (Permutation_in _ HSl Hs). }
  assert (HAtag : forall t, In t (map nodeId A) ->
            In t (nodeIds (kids v0)) /\ tagIn l t = false).
  { intros t Ht. rewrite HA in Ht. apply filter_In in Ht.
    destruct Ht as [Ht Hn]. split; [exact Ht |]. now apply negb_true_iff. }
  assert (HAnot : forall k s, In k A -> In s S -> isElem s k = false).
  { intros k s Hk Hs. rewrite isElem_tag.
    destruct (HAtag (nodeId k) (in_map nodeId _ _ Hk)) as [_ Hn].
    destruct (nodeId k) as [i|]; [| reflexivity]. simpl in *.
    apply Nat.eqb_neq. intros ->.
    assert (Hl : inList l s = true)
      by (apply inList_In; exact (Permutation_in _ HSl Hs)).
    congruence. }
  assert (El1 : l1 = S).
  { rewrite Hl1, Hks, elementKids_app, filter_app, (elementKids_Some S T HT).
    rewrite (@filter_none nat (isBlock d1) (elementKids A)).
    - simpl. apply filter_all. intros s Hs.
      rewrite (isBlock_settled d d1 s Hst).
      apply chordBlocks_isBlock; [assumption |]. now apply HSB.
    - intros i Hi. rewrite (isBlock_settled d d1 i Hst).
      rewrite elementKids_tags in Hi. apply in_flat_map in Hi.
      destruct Hi as [t [Ht Hit]]. destruct t as [j|]; [| contradiction].
      destruct Hit as [<- | []].
      destruct (HAtag (Some j) Ht) as [Hj0 Hn]. simpl in Hn.
      assert (Hj : In j (elementKids (kids v0))).
      { rewrite elementKids_tags. apply in_flat_map. exists (Some j).
        split; [exact Hj0 | now left]. }
      now rewrite <- (group_members d p v0 l Hwf Hv0 Hidp0 Hin j Hj). }
  rewrite El1. split.
  - rewrite (@sortBy_ext (compareBlocks nfc cmp d1) (compareBlocks nfc cmp d) S).
    + apply sortBy_sorted_id. unfold S.
      apply (@sortBy_sorted (compareBlocks nfc cmp d)).
      * intros a b. apply Htot.
      * intros a b c. apply Htrans.
    + intros a b Ha Hb. unfold compareBlocks.
      rewrite (chordKey_settled nfc d Hwf d1 a Hst (proj1 (HSB a Ha))).
      rewrite (chordKey_settled nfc d Hwf d1 b Hst (proj1 (HSB b Hb))).
      reflexivity.
  - rewrite (appendAll_reorder p S d1 Hwf1).
    + f_equal. apply reorder_fixed. intros v Hv Hid.
      assert (v = vp1).
      { apply (@view_unique (locs (allTrees d1)) v vp1 Hwf1 Hv
                 (in_document_allTrees d1 vp1 Hvp1)). congruence. }
      subst v. rewrite Hks.
      pose proof (moveAllLast_tail S T A [] HT HSnd) as Hm.
      rewrite !app_nil_r in Hm. apply Hm.
      intros s k Hs Hk. exact (HAnot k s Hk Hs).
    + intros s Hs. rewrite (settled_parent d d1 s Hst). now apply HSB.
Qed.

Lemma sortChordBlocks_idempotent_witness :
  wf threeBlocks /\ consistentComparator compareBase
  /\ blocksApart threeBlocks
  /\ exists d1,
       sortChordBlocks nfcOfNormal compareBase Document threeBlocks = Done d1
       /\ sortChordBlocks nfcOfNormal compareBase Document d1 = Done d1.
Proof.
  split; [exact threeBlocks_wf |]. split; [exact compareBase_consistent |].
  split; [exact threeBlocks_apart |].
  exact (sortChordBlocks_idempotent nfcOfNormal compareBase threeBlocks
           threeBlocks_wf compareBase_consistent threeBlocks_apart).
Defined.

(* --------------------------------------------------------------------- *)
(** *** The child lists after a sort *)

Lemma kid_blocks d v0 i :
  wf d -> In v0 (locs (document d)) -> In i (elementKids (kids v0)) ->
  isBlock d i = true -> In i (chordBlocks Document d).
Proof.
  intros Hwf Hv0 Hi Hb.
  destruct (kid_parent d (vid v0) v0 i Hwf (@doc_located d Hwf v0 Hv0) Hi)
    as [vi [Hvi [Hidi _]]].
  rewrite <- Hidi. apply isBlock_chordBlocks; [assumption | | now rewrite Hidi].
  exact (@descendants_in [] (document d) v0 vi Hv0 Hvi).
Qed.

Lemma sort_layout nfc cmp d :
  wf d -> blocksApart d ->
  2 <= List.length (chordBlocks Document d) ->
  exists d',
    sortChordBlocks nfc cmp Document d = Done d'
    /\ settled d d'
    /\ forall p ids,
         In p (map vid (locs (document d))) -> kidIds d p = Some ids ->
         kidIds d' p
         = Some (filter (fun i => negb (isBlock d i)) ids
                 ++ sortBy (compareBlocks nfc cmp d) (filter (isBlock d) ids)).
Proof.
  intros Hwf Hapart Hlen.
  destruct (sortChordBlocks_state nfc cmp d Hwf Hapart Hlen)
    as [d' [Hrun [Hst [Hother Hdone]]]].
  exists d'. split; [exact Hrun |]. split; [exact Hst |]. intros p ids Hp Hk.
  apply in_map_iff in Hp. destruct Hp as [v0 [Hid Hv0]].
  assert (Hloc : locate p d = Some v0)
    by (rewrite <- Hid; now apply (@doc_located d Hwf)).
  assert (Hids : ids = elementKids (kids v0)).
  { unfold kidIds in Hk. rewrite Hloc in Hk. simpl in Hk. now injection Hk. }
  destruct (in_dec Nat.eq_dec p
              (map fst (groupByParent d (chordBlocks Document d))))
    as [Hin | Hnin].
  - apply in_map_iff in Hin. destruct Hin as [[p' l] [Hfst Hin]].
    simpl in Hfst. subst p'.
    rewrite (Hdone p l Hin), Hk. simpl. f_equal.
    rewrite Hids, <- (group_is_block_kids d p l v0 Hwf Hv0 Hid Hin). f_equal.
    apply filter_ext_in. intros i Hi.
    now rewrite (group_members d p v0 l Hwf Hv0 Hid Hin i Hi).
  - rewrite (Hother p Hnin), Hk.
    assert (Hnone : forall i, In i ids -> isBlock d i = false).
    { intros i Hi. rewrite Hids in Hi.
      exact (no_group_no_blocks d p v0 Hwf Hv0 Hid Hnin i Hi). }
    rewrite (@filter_none nat (isBlock d) ids Hnone). simpl.
    rewrite app_nil_r. f_equal. symmetry. apply filter_all. intros i Hi.
    now rewrite (Hnone i Hi).
Qed.

Lemma tags_of_kids d p v0 l t :
  wf d -> In v0 (locs (document d)) -> vid v0 = p ->
  In (p, l) (groupByParent d (chordBlocks Document d)) ->
  In t (nodeIds (kids v0)) -> tagIn l t = blockTag d t.
Proof.
  intros Hwf Hv0 Hid Hin Ht. destruct t as [i|]; [| reflexivity]. simpl.
  apply (group_members d p v0 l Hwf Hv0 Hid Hin).
  rewrite elementKids_tags. apply in_flat_map. exists (Some i).
  split; [exact Ht | now left].
Qed.

(** Of a document with at least two chord blocks, none inside another
    one, sortChordBlocks rewrites the child lists so that under every
    element of the document the child nodes that are no chord blocks (text
    nodes among them) come first, in the order they had, and the chord
    blocks follow, in the order the sort of the array gives them. *)
Theorem sortChordBlocks_blocks_last nfc cmp d :
  wf d -> blocksApart d ->
  2 <= List.length (chordBlocks Document d) ->
  exists d',
    sortChordBlocks nfc cmp Document d = Done d'
    /\ forall p tags ids,
         In p (map vid (locs (document d))) ->
         kidTags d p = Some tags -> kidIds d p = Some ids ->
         kidTags d' p
         = Some (filter (fun t => negb (blockTag d t)) tags
                 ++ map Some (sortBy (compareBlocks nfc cmp d)
                                (filter (isBlock d) ids))).
Proof.
  intros Hwf Hapart Hlen.
  destruct (sortChordBlocks_tags nfc cmp d Hwf Hapart Hlen)
    as [d' [Hrun [Hst [Hother Hdone]]]].
  exists d'. split; [exact Hrun |]. intros p tags ids Hp Ht Hk.
  apply in_map_iff in Hp. destruct Hp as [v0 [Hid Hv0]].
  assert (Hloc : locate p d = Some v0)
    by (rewrite <- Hid; now apply (@doc_located d Hwf)).
  assert (Hids : ids = elementKids (kids v0)).
  { unfold kidIds in Hk. rewrite Hloc in Hk. simpl in Hk. now injection Hk. }
  assert (Htags : tags = nodeIds (kids v0)).
  { unfold kidTags in Ht. rewrite Hloc in Ht. simpl in Ht. now injection Ht. }
  destruct (in_dec Nat.eq_dec p
              (map fst (groupByParent d (chordBlocks Document d))))
    as [Hin | Hnin].
  - apply in_map_iff in Hin. destruct Hin as [[p' l] [Hfst Hin]].
    simpl in Hfst. subst p'.
    rewrite (Hdone p l Hin), Ht. simpl. f_equal.
    rewrite Hids, <- (group_is_block_kids d p l v0 Hwf Hv0 Hid Hin). f_equal.
    apply filter_ext_in. intros t Hin'. rewrite Htags in Hin'.
    now rewrite (tags_of_kids d p v0 l t Hwf Hv0 Hid Hin Hin').
  - rewrite (Hother p Hnin), Ht.
    assert (Hnone : forall i, In i ids -> isBlock d i = false).
    { intros i Hi. rewrite Hids in Hi.
      exact (no_group_no_blocks d p v0 Hwf Hv0 Hid Hnin i Hi). }
    rewrite (@filter_none nat (isBlock d) ids Hnone). simpl.
    rewrite app_nil_r. f_equal. symmetry. apply filter_all.
    intros t Hin'. destruct t as [i|]; [| reflexivity]. simpl.
    rewrite Hnone; [reflexivity |].
    rewrite Hids, elementKids_tags. apply in_flat_map. exists (Some i).
    split; [now rewrite <- Htags | now left].
Qed.

Lemma sortChordBlocks_blocks_last_witness :
  wf threeBlocks /\ blocksApart threeBlocks
  /\ 2 <= List.length (chordBlocks Document threeBlocks)
  /\ exists d',
       sortChordBlocks nfcOfNormal compareBase Document threeBlocks = Done d'
       /\ forall p tags ids,
            In p (map vid (locs (document threeBlocks))) ->
            kidTags threeBlocks p = Some tags ->
            kidIds threeBlocks p = Some ids ->
            kidTags d' p
            = Some (filter (fun t => negb (blockTag threeBlocks t)) tags
                    ++ map Some
                         (sortBy (compareBlocks nfcOfNormal compareBase
                                    threeBlocks)
                            (filter (isBlock threeBlocks) ids))).
Proof.
  split; [exact threeBlocks_wf |]. split; [exact threeBlocks_apart |].
  split; [exact threeBlocks_count |].
  exact (sortChordBlocks_blocks_last nfcOfNormal compareBase threeBlocks
           threeBlocks_wf threeBlocks_apart threeBlocks_count).
Defined.

(* ===================================================================== *)
(** ** From start to the first sort *)
(* ===================================================================== *)

Lemma purgeSpan_prune nfc blocked d s :
  wf d ->
  exists P, document (purgeSpan nfc blocked d s) = prune P (document d).
Proof.
  intros Hwf.
  assert (Hid : exists P, document d = prune P (document d)).
  { exists (fun _ => false). symmetry. now apply prune_id_ids. }
  unfold purgeSpan.
  destruct (isTargetSpan nfc blocked d s); [| exact Hid].
  destruct (chordContainerFor d s) as [c|]; [| exact Hid].
  destruct (isChordBlock d c); [| exact Hid].
  exists (Nat.eqb c). now apply remove_document.
Qed.

Lemma purge_prune nfc blocked r d :
  wf d ->
  exists P, document (purge nfc blocked r d) = prune P (document d).
Proof.
  unfold purge. generalize (querySelectorAll r spanSel d). intros l.
  revert d. induction l as [|s l IH]; intros d Hwf.
  - exists (fun _ => false). symmetry. now apply prune_id_ids.
  - simpl. destruct (purgeSpan_prune nfc blocked d s Hwf) as [P1 H1].
    destruct (IH (purgeSpan nfc blocked d s) (@purgeSpan_wf nfc blocked d s Hwf))
      as [P2 H2].
    exists (fun i => P1 i || P2 i). now rewrite H2, H1, prune_prune.
Qed.

Lemma chordBlocks_pruned P d d' b :
  wf d -> wf d' -> document d' = prune P (document d) ->
  In b (chordBlocks Document d') ->
  In b (chordBlocks Document d)
  /\ exists v, In v (locs (document d)) /\ alive P v = true /\ vid v = b
               /\ In (vprune P v) (locs (document d')).
Proof.
  intros Hwf Hwf' Hdoc Hb.
  destruct (chordBlocks_view d' b Hb) as [v' [Hv' [Hid [Hm Hg]]]].
  pose proof Hv' as Hv'0.
  rewrite Hdoc in Hv'. unfold locs in Hv'.
  rewrite locs_prune in Hv' by reflexivity.
  apply in_map_iff in Hv'. destruct Hv' as [v [Hvv Hv]].
  apply filter_In in Hv. destruct Hv as [Hv Hal].
  assert (Hidv : vid v = b) by (rewrite <- Hid, <- Hvv; reflexivity).
  split.
  - rewrite <- Hidv. apply isBlock_chordBlocks; [assumption | assumption |].
    rewrite (isBlock_view d v Hwf Hv).
    assert (Em : matchesView blockSel v = true)
      by (rewrite <- Hvv in Hm; exact Hm).
    rewrite Em. simpl.
    rewrite (@isChordBlock_view d (vid v) v (@doc_located d Hwf v Hv)).
    rewrite <- Hid in Hg.
    rewrite (@isChordBlock_view d' (vid v') v' (@doc_located d' Hwf' v' Hv'0))
      in Hg.
    rewrite <- Hvv, (@guard_pruned P v Hal) in Hg.
    unfold guardView. exact (@existsb_filter_le _ _ _ _ Hg).
  - exists v. repeat split; try assumption. now rewrite Hvv.
Qed.

Lemma blocksApart_pruned P d d' :
  wf d -> wf d' -> document d' = prune P (document d) ->
  blocksApart d -> blocksApart d'.
Proof.
  intros Hwf Hwf' Hdoc Hapart v' w' Hv' Hbv Hw' Hbw.
  destruct (chordBlocks_pruned P d d' (vid v') Hwf Hwf' Hdoc Hbv)
    as [Hbv0 [v [Hv [Hal [Hid Hvp]]]]].
  assert (Ev : vprune P v = v').
  { apply (@view_unique (locs (document d')) _ _
             (proj1 (@wf_parts d' Hwf')) Hvp Hv'). exact Hid. }
  rewrite <- Ev, (descendants_vprune P v Hal) in Hw'.
  apply in_map_iff in Hw'. destruct Hw' as [w [Hww Hw]].
  apply filter_In in Hw. destruct Hw as [Hw _].
  destruct (chordBlocks_pruned P d d' (vid w') Hwf Hwf' Hdoc Hbw)
    as [Hbw0 _].
  apply (Hapart v w Hv); [now rewrite Hid | exact Hw |].
  rewrite <- Hww in Hbw0. exact Hbw0.
Qed.

Lemma blocksApart_setAttribute el d :
  blocksApart d ->
  blocksApart (setAttribute el clickedSummaryAttr (lit "1") d).
Proof.
  intros Hapart v' w' Hv' Hbv Hw' Hbw.
  rewrite chordBlocks_setAttribute in Hbv, Hbw.
  rewrite document_setAttribute in Hv'.
  apply in_map_iff in Hv'. destruct Hv' as [v [Hvv Hv]].
  rewrite <- Hvv, descendants_mark in Hw'.
  apply in_map_iff in Hw'. destruct Hw' as [w [Hww Hw]].
  apply (Hapart v w Hv); [| exact Hw |].
  - rewrite <- Hvv, vid_mark in Hbv. exact Hbv.
  - rewrite <- Hww, vid_mark in Hbw. exact Hbw.
Qed.

Lemma short_sorted (R : nat -> nat -> Prop) l :
  List.length l < 2 -> StronglySorted R l.
Proof.
  destruct l as [|x [|y l]]; simpl; intros H.
  - constructor.
  - repeat constructor.
  - lia.
Qed.

(** After a sort the chord blocks under every element stand in the order
    of their keys. *)
Lemma sorted_after nfc cmp d vp :
  wf d -> consistentComparator cmp -> blocksApart d ->
  In vp (locs (document (domOf (sortChordBlocks nfc cmp Document d)))) ->
  StronglySorted
    (keyLe nfc cmp (domOf (sortChordBlocks nfc cmp Document d)))
    (blockKids (domOf (sortChordBlocks nfc cmp Document d)) vp).
Proof.
  intros Hwf [Htot Htrans] Hapart.
  destruct (le_lt_dec 2 (List.length (chordBlocks Document d))) as [Hlen | Hlen].
  - destruct (sort_layout nfc cmp d Hwf Hapart Hlen) as [d' [Hrun [Hst Hlay]]].
    rewrite Hrun. simpl. intros Hvp.
    assert (Hwf' : wf d') by apply Hst.
    assert (Hp : In (vid vp) (map vid (locs (document d))))
      by (apply (document_ids_settled d d' _ Hst); now apply in_map).
    pose proof Hp as Hp0.
    apply in_map_iff in Hp0. destruct Hp0 as [v0 [Hid0 Hv0]].
    assert (Hk0 : kidIds d (vid vp) = Some (elementKids (kids v0))).
    { unfold kidIds. rewrite <- Hid0.
      now rewrite (@doc_located d Hwf v0 Hv0). }
    assert (Hk' : kidIds d' (vid vp) = Some (elementKids (kids vp))).
    { unfold kidIds. now rewrite (@doc_located d' Hwf' vp Hvp). }
    rewrite (Hlay (vid vp) _ Hp Hk0) in Hk'. injection Hk' as Hkids.
    set (ids := elementKids (kids v0)) in *.
    set (S := sortBy (compareBlocks nfc cmp d) (filter (isBlock d) ids)) in *.
    assert (HSb : forall s, In s S -> In s (chordBlocks Document d)).
    { intros s Hs. apply (Permutation_in _ (sortBy_perm _ _)) in Hs.
      apply filter_In in Hs. destruct Hs as [Hs Hb].
      exact (kid_blocks d v0 s Hwf Hv0 Hs Hb). }
    unfold blockKids. rewrite <- Hkids, filter_app.
    rewrite (@filter_none nat (isBlock d')).
    + rewrite (@filter_all nat (isBlock d')).
      * simpl.
        apply StronglySorted_ext_in
          with (R := fun a b => (compareBlocks nfc cmp d a b <= 0)%Z).
        -- intros a b Ha Hb Hab. unfold keyLe, compareBlocks.
           rewrite (chordKey_settled nfc d Hwf d' a Hst (HSb a Ha)).
           rewrite (chordKey_settled nfc d Hwf d' b Hst (HSb b Hb)).
           exact Hab.
        -- apply (@sortBy_sorted (compareBlocks nfc cmp d)).
           ++ intros a b. apply Htot.
           ++ intros a b c. apply Htrans.
      * intros s Hs. rewrite (isBlock_settled d d' s Hst).
        apply chordBlocks_isBlock; [assumption | now apply HSb].
    + intros i Hi. apply filter_In in Hi. destruct Hi as [_ Hi].
      rewrite (isBlock_settled d d' i Hst). now apply negb_true_iff.
  - assert (E : sortChordBlocks nfc cmp Document d = Done d).
    { unfold sortChordBlocks. apply Nat.ltb_lt in Hlen. now rewrite Hlen. }
    rewrite E. simpl. intros Hvp. apply short_sorted.
    apply Nat.le_lt_trans with (List.length (chordBlocks Document d));
      [| exact Hlen].
    apply NoDup_incl_length.
    + unfold blockKids. apply NoDup_filter.
      apply (elementKids_NoDup (kids vp) (self vp :: above vp)).
      destruct (@locs_segment (document d) [] vp Hvp) as [l1 [l2 Hseg]].
      pose proof (proj1 (@wf_parts d Hwf)) as Hnd.
      unfold wf_forest, locs in Hnd. rewrite Hseg, map_app in Hnd.
      apply NoDup_app_remove_l in Hnd. simpl in Hnd.
      apply NoDup_cons_iff in Hnd. destruct Hnd as [_ Hnd].
      rewrite map_app in Hnd. now apply NoDup_app_remove_r in Hnd.
    + intros i Hi. unfold blockKids in Hi. apply filter_In in Hi.
      destruct Hi as [Hi Hb]. exact (kid_blocks d vp i Hwf Hvp Hi Hb).
Qed.

(** The script's first pass: start, then the timer of the sort it queued.
    When no chord block of the document lies inside another one, the page
    it leaves has the chord blocks under every element in the order of
    their keys, and no sort is left waiting. *)
Theorem start_then_timer_sorts nfc cmp iface d :
  wf d -> consistentComparator cmp -> blocksApart d ->
  let st := run nfc cmp iface [Start; Timeout] (loaded d) in
  _sortPending st = false /\ timeouts st = 0
  /\ forall vp, In vp (locs (document (page st))) ->
       StronglySorted (keyLe nfc cmp (page st)) (blockKids (page st) vp).
Proof.
  intros Hwf Hcmp Hapart.
  unfold run. cbn [fold_left step]. unfold start. rewrite stateOf_runClick.
  unfold withClicks, runPurge, loaded.
  cbn [page blockedChords _sortPending timeouts lastTick clicked withPage
       queueSort].
  set (d1 := purge nfc (newSet blockedChordsList []) Document d).
  assert (Hwf1 : wf d1) by (apply purge_wf; exact Hwf).
  assert (Hapart1 : blocksApart d1).
  { destruct (purge_prune nfc (newSet blockedChordsList []) Document d Hwf)
      as [P HP].
    exact (blocksApart_pruned P d d1 Hwf Hwf1 HP Hapart). }
  destruct (click_outcome nfc iface Document d1 []) as [E | [el [_ E]]];
    rewrite E; cbn [page _sortPending timeouts sortTimeout runSort withPage
                    blockedChords lastTick clicked pred];
    (split; [reflexivity |]); (split; [reflexivity |]); intros vp Hvp.
  - exact (sorted_after nfc cmp d1 vp Hwf1 Hcmp Hapart1 Hvp).
  - apply sorted_after; try assumption.
    + now apply setAttribute_wf.
    + now apply blocksApart_setAttribute.
Qed.

Lemma start_then_timer_sorts_witness :
  wf threeBlocks /\ consistentComparator compareBase
  /\ blocksApart threeBlocks
  /\ let st := run nfcOfNormal compareBase (parsedAs threeBlocks)
                 [Start; Timeout] (loaded threeBlocks) in
     _sortPending st = false /\ timeouts st = 0
     /\ forall vp, In vp (locs (document (page st))) ->
          StronglySorted (keyLe nfcOfNormal compareBase (page st))
            (blockKids (page st) vp).
Proof.
  split; [exact threeBlocks_wf |]. split; [exact compareBase_consistent |].
  split; [exact threeBlocks_apart |].
  exact (start_then_timer_sorts nfcOfNormal compareBase
           (parsedAs threeBlocks) threeBlocks threeBlocks_wf
           compareBase_consistent threeBlocks_apart).
Defined.

(* ===================================================================== *)
(** ** The observer and nodes that are no longer in the document *)
(* ===================================================================== *)

Lemma mapElement_absent i g f : forall anc,
  ~ In i (map vid (locs_in anc f)) -> map (mapElement i g) f = f.
Proof.
  induction f as [|s f IH|e ks f IHk IHf] using forest_ind; intros anc Hnot.
  - reflexivity.
  - simpl. f_equal. apply (IH anc). now rewrite locs_in_text in Hnot.
  - rewrite locs_in_elem in Hnot. simpl in Hnot. simpl. f_equal.
    + destruct (Nat.eqb (eid e) i) eqn:E.
      * apply Nat.eqb_eq in E. exfalso. apply Hnot. now left.
      * f_equal. apply (IHk (e :: anc)). intros Hin. apply Hnot. right.
        rewrite map_app. apply in_or_app. now left.
    + apply (IHf anc). intros Hin. apply Hnot. right.
      rewrite map_app. apply in_or_app. now right.
Qed.

Lemma setAttribute_outside el name value d :
  ~ In el (map vid (locs (document d))) ->
  document (setAttribute el name value d) = document d.
Proof.
  intros Hnot. unfold setAttribute. simpl.
  exact (mapElement_absent el _ (document d) [] Hnot).
Qed.

(** What lies below a node outside the document is outside the
    document. *)
Lemma below_outside d node v u :
  wf d -> locate node d = Some v ->
  ~ In node (map vid (locs (document d))) ->
  In u (descendants v) -> ~ In (vid u) (map vid (locs (document d))).
Proof.
  intros Hwf Hloc Hnot Hu Hin.
  destruct (@locate_some node d v Hloc) as [Hv Hid].
  pose proof (@descendants_in [] (allTrees d) v u Hv Hu) as Hu'.
  pose proof (document_view d u Hwf Hu' Hin) as Hud.
  destruct (@descendant_above v u Hu) as [rel Hrel].
  destruct (@ancestor_view (document d) [] u rel (self v) (above v) Hud)
    as [kc [Hc _]].
  { now rewrite app_nil_r. }
  rewrite app_nil_r in Hc. apply Hnot. rewrite <- Hid.
  exact (in_map vid _ _ Hc).
Qed.

Lemma container_outside d node v c :
  wf d -> locate node d = Some v ->
  ~ In node (map vid (locs (document d))) ->
  containerOf v = Some c -> ~ In c (map vid (locs (document d))).
Proof.
  intros Hwf Hloc Hnot Hc Hin.
  destruct (@locate_some node d v Hloc) as [Hv Hid].
  destruct (@container_view (allTrees d) v c Hv Hc)
    as [pre [ec [post [kc [_ [Hidc [Hvc Hrel]]]]]]].
  assert (Hvcd : In (mkView ec kc post) (locs (document d))).
  { apply document_view; [assumption | assumption |].
    unfold vid. simpl. now rewrite Hidc. }
  apply Hnot. rewrite <- Hid. destruct Hrel as [[_ <-] | [Hd _]].
  - exact (in_map vid _ _ Hvcd).
  - apply in_map.
    exact (@descendants_in [] (document d) _ v Hvcd Hd).
Qed.

Lemma observeAdded_outside nfc st node :
  wf (page st) ->
  ~ In node (map vid (locs (document (page st)))) ->
  document (page (fst (observeAdded nfc st node))) = document (page st).
Proof.
  intros Hwf Hnot. unfold observeAdded.
  destruct (matchesSelAt spanSel (page st) node
            && isTargetSpan nfc (blockedChords st) (page st) node) eqn:Hm.
  - destruct (chordContainerFor (page st) node) as [c|] eqn:Hc;
      [| reflexivity].
    destruct (isChordBlock (page st) c); [| reflexivity]. simpl.
    apply remove_outside; [exact Hwf |].
    apply andb_true_iff in Hm. destruct Hm as [Hm _].
    unfold matchesSelAt in Hm.
    destruct (locate node (page st)) as [v|] eqn:Hloc; [| discriminate].
    rewrite (@chordContainerFor_view (page st) node v Hloc) in Hc.
    exact (container_outside (page st) node v c Hwf Hloc Hnot Hc).
  - destruct (querySelectorAll (Element node) spanSel (page st))
      as [|s0 spans] eqn:Hq; [reflexivity |].
    simpl. unfold purge. rewrite Hq.
    apply (@fold_outside nfc (blockedChords st) (s0 :: spans) (page st) Hwf).
    intros s Hs. rewrite <- Hq in Hs. simpl in Hs.
    destruct (locate node (page st)) as [v|] eqn:Hloc; [| contradiction].
    apply in_map_iff in Hs. destruct Hs as [u [<- Hu]].
    apply filter_In in Hu. destruct Hu as [Hu _].
    exact (below_outside (page st) node v u Hwf Hloc Hnot Hu).
Qed.

Lemma click_outside nfc iface node d clicks :
  wf d -> ~ In node (map vid (locs (document d))) ->
  document
    (fst (stateOf (clickSummaryIfPresent nfc iface (Element node) d clicks)))
  = document d.
Proof.
  intros Hwf Hnot.
  destruct (click_outcome nfc iface (Element node) d clicks)
    as [E | [el [Hel E]]]; rewrite E; [reflexivity |].
  apply setAttribute_outside. simpl in Hel.
  destruct (locate node d) as [v|] eqn:Hloc; [| contradiction].
  apply in_map_iff in Hel. destruct Hel as [u [<- Hu]].
  apply filter_In in Hu. destruct Hu as [Hu _].
  exact (below_outside d node v u Hwf Hloc Hnot Hu).
Qed.

Lemma observeNode_outside nfc iface st0 st t node :
  ~ In node (map vid (locs (document (page st0)))) ->
  wf (page st) /\ document (page st) = document (page st0) ->
  let acc := stateOf (observeNode nfc iface (Normal (st, t))
                        (AddedElement node)) in
  wf (page (fst acc)) /\ document (page (fst acc)) = document (page st0).
Proof.
  intros Hn [Hwf Hdoc]. cbv zeta. rewrite observeNode_element.
  cbn [fst]. rewrite stateOf_runClick. unfold withClicks. cbn [page].
  assert (Hnot : ~ In node (map vid (locs (document (page st)))))
    by now rewrite Hdoc.
  pose proof (observeAdded_outside nfc st node Hwf Hnot) as Hobs.
  pose proof (kept_observeAdded nfc (page st) st node
                (conj Hwf (fromDocument_refl (page st)))) as [Hwf' _].
  set (st' := fst (observeAdded nfc st node)) in *.
  assert (Hnot' : ~ In node (map vid (locs (document (page st')))))
    by now rewrite Hobs.
  pose proof (click_outside nfc iface node (page st') (clicked st') Hwf' Hnot')
    as Hclick.
  pose proof (kept_click nfc iface (page st') (Element node) (page st')
                (clicked st') (conj Hwf' (fromDocument_refl (page st'))))
    as [Hwf'' _].
  split; [exact Hwf'' |]. congruence.
Qed.

(** Added nodes that are no longer in the document when the observer is
    called (as is everything below a container that was removed
    meanwhile) leave the document alone: whatever the callback removes or
    marks for them is outside the document. *)
Theorem observer_ignores_detached nfc iface ms st :
  wf (page st) ->
  (forall m node, In m ms -> In (AddedElement node) m ->
     ~ In node (map vid (locs (document (page st))))) ->
  document (page (stateOf (observerCallback nfc iface ms st)))
  = document (page st).
Proof.
  intros Hwf Hout.
  assert (Hall : let acc := stateOf (fold_left
                    (fun acc m => fold_left (observeNode nfc iface) m acc)
                    ms (Normal (st, false))) in
            wf (page (fst acc))
            /\ document (page (fst acc)) = document (page st)).
  { apply (observeAll_inv nfc iface
             (fun acc => wf (page (fst acc))
                         /\ document (page (fst acc)) = document (page st))
             (fun node => ~ In node (map vid (locs (document (page st))))));
      [| exact Hout | now split].
    intros st1 t node Hn H1.
    exact (observeNode_outside nfc iface st st1 t node Hn H1). }
  destruct Hall as [_ Hdoc].
  destruct (observerCallback_cases nfc iface ms st) as [-> | [_ ->]];
    [exact Hdoc | now rewrite page_queueSort].
Qed.

Lemma observer_ignores_detached_witness :
  wf (page afterRemoval)
  /\ (forall m node,
        In m [[AddedElement 3; AddedText; AddedElement 2]] ->
        In (AddedElement node) m ->
        ~ In node (map vid (locs (document (page afterRemoval)))))
  /\ document (page (stateOf (observerCallback nfcOfNormal
                                (parsedAs twoBlocks)
                                [[AddedElement 3; AddedText; AddedElement 2]]
                                afterRemoval)))
     = document (page afterRemoval).
Proof.
  assert (Hwf : wf (page afterRemoval))
    by (apply wfb_sound; vm_compute; reflexivity).
  assert (Hout : forall m node,
            In m [[AddedElement 3; AddedText; AddedElement 2]] ->
            In (AddedElement node) m ->
            ~ In node (map vid (locs (document (page afterRemoval))))).
  { intros m node [<- | []] [E | [E | [E | []]]]; try discriminate;
      injection E as <-; vm_compute; intuition discriminate. }
  split; [exact Hwf |]. split; [exact Hout |].
  exact (observer_ignores_detached nfcOfNormal (parsedAs twoBlocks) _
           afterRemoval Hwf Hout).
Defined.

(* ===================================================================== *)
(** ** The observer and nodes without labels *)
(* ===================================================================== *)

Lemma matchesSelAt_setAttribute sel i name value d x :
  ignoresAttr name sel = true ->
  matchesSelAt sel (setAttribute i name value d) x = matchesSelAt sel d x.
Proof.
  intros Hs. unfold matchesSelAt. rewrite locate_setAttribute.
  destruct (locate x d) as [v|]; [| reflexivity].
  simpl. now apply matchesView_mark.
Qed.

(** The page [d'] answers the queries that do not read the mark as [d]
    does. *)
Lemma click_same_queries nfc iface r d clicks :
  (forall r' sel, ignoresAttr clickedSummaryAttr sel = true ->
     querySelectorAll r' sel
       (fst (stateOf (clickSummaryIfPresent nfc iface r d clicks)))
     = querySelectorAll r' sel d)
  /\ (forall sel x, ignoresAttr clickedSummaryAttr sel = true ->
        matchesSelAt sel
          (fst (stateOf (clickSummaryIfPresent nfc iface r d clicks))) x
        = matchesSelAt sel d x).
Proof.
  destruct (click_outcome nfc iface r d clicks) as [E | [el [_ E]]];
    rewrite E.
  - now split.
  - split.
    + intros r' sel Hs. now apply querySelectorAll_setAttribute.
    + intros sel x Hs. now apply matchesSelAt_setAttribute.
Qed.

Section Unlabelled.

Variable nfc : jsstring -> jsstring.
Variable iface : nat -> interface.
Variable st0 : script.

(** The state [st] differs from [st0] by clicks only. *)
Let clicksOnly (st : script) : Prop :=
  (forall r sel, ignoresAttr clickedSummaryAttr sel = true ->
     querySelectorAll r sel (page st) = querySelectorAll r sel (page st0))
  /\ (forall sel x, ignoresAttr clickedSummaryAttr sel = true ->
        matchesSelAt sel (page st) x = matchesSelAt sel (page st0) x)
  /\ _sortPending st = _sortPending st0 /\ timeouts st = timeouts st0.

Lemma clicksOnly_runClick r st :
  clicksOnly st -> clicksOnly (stateOf (runClick nfc iface r st)).
Proof.
  intros [Hq [Hm [Hp Ht]]].
  destruct (click_same_queries nfc iface r (page st) (clicked st))
    as [Hq' Hm'].
  rewrite stateOf_runClick. unfold clicksOnly, withClicks.
  cbn [fst page _sortPending timeouts] in *.
  split; [| split; [| now split]].
  - intros r' sel Hs. now rewrite (Hq' r' sel Hs), (Hq r' sel Hs).
  - intros sel x Hs. now rewrite (Hm' sel x Hs), (Hm sel x Hs).
Qed.

Lemma observeNode_unlabelled st t node :
  (matchesSelAt spanSel (page st0) node = false
   /\ querySelectorAll (Element node) spanSel (page st0) = []) ->
  clicksOnly st /\ t = false ->
  let acc := stateOf (observeNode nfc iface (Normal (st, t))
                        (AddedElement node)) in
  clicksOnly (fst acc) /\ snd acc = false.
Proof.
  intros [Hm0 Hq0] [Hst ->]. cbv zeta. rewrite observeNode_element.
  pose proof Hst as [Hq [Hm _]].
  unfold observeAdded.
  rewrite (Hm spanSel node eq_refl), Hm0. simpl andb.
  rewrite (Hq (Element node) spanSel eq_refl), Hq0. cbn [fst snd].
  split; [now apply clicksOnly_runClick | reflexivity].
Qed.

Lemma observeAll_unlabelled ms st :
  clicksOnly st ->
  (forall m node, In m ms -> In (AddedElement node) m ->
     matchesSelAt spanSel (page st0) node = false
     /\ querySelectorAll (Element node) spanSel (page st0) = []) ->
  let acc := stateOf (fold_left
                        (fun acc m => fold_left (observeNode nfc iface) m acc)
                        ms (Normal (st, false))) in
  clicksOnly (fst acc) /\ snd acc = false.
Proof.
  intros Hst Hms.
  apply (observeAll_inv nfc iface
           (fun acc => clicksOnly (fst acc) /\ snd acc = false)
           (fun node =>
              matchesSelAt spanSel (page st0) node = false
              /\ querySelectorAll (Element node) spanSel (page st0) = []));
    [| exact Hms | now split].
  intros st1 t node Hn H1. exact (observeNode_unlabelled st1 t node Hn H1).
Qed.

End Unlabelled.

(** A batch of added nodes none of which is or holds a [span.cbg1qdk]
    makes the observer remove nothing and queue no sort: all it can do is
    click. Every query that does not read the mark of a click gives the
    same elements after the callback as before. *)
Theorem observer_ignores_unlabelled nfc iface ms st :
  (forall m node, In m ms -> In (AddedElement node) m ->
     matchesSelAt spanSel (page st) node = false
     /\ querySelectorAll (Element node) spanSel (page st) = []) ->
  let st' := stateOf (observerCallback nfc iface ms st) in
  _sortPending st' = _sortPending st /\ timeouts st' = timeouts st
  /\ forall r sel, ignoresAttr clickedSummaryAttr sel = true ->
       querySelectorAll r sel (page st') = querySelectorAll r sel (page st).
Proof.
  intros Hms. cbv zeta.
  destruct (observeAll_unlabelled nfc iface st ms st)
    as [[Hq [_ [Hp Ht]]] Htouched].
  - repeat split; reflexivity.
  - exact Hms.
  - destruct (observerCallback_cases nfc iface ms st) as [-> | [Hs _]].
    + split; [exact Hp |]. split; [exact Ht | exact Hq].
    + rewrite Hs in Htouched. discriminate.
Qed.

Lemma observer_ignores_unlabelled_witness :
  (forall m node,
     In m [[AddedElement 1; AddedText]; [AddedElement 4]] ->
     In (AddedElement node) m ->
     matchesSelAt spanSel (page (loaded togglePage)) node = false
     /\ querySelectorAll (Element node) spanSel (page (loaded togglePage)) = [])
  /\ let st' := stateOf (observerCallback nfcOfNormal (parsedAs togglePage)
                           [[AddedElement 1; AddedText]; [AddedElement 4]]
                           (loaded togglePage)) in
     _sortPending st' = _sortPending (loaded togglePage)
     /\ timeouts st' = timeouts (loaded togglePage)
     /\ forall r sel, ignoresAttr clickedSummaryAttr sel = true ->
          querySelectorAll r sel (page st')
          = querySelectorAll r sel (page (loaded togglePage)).
Proof.
  assert (H : forall m node,
            In m [[AddedElement 1; AddedText]; [AddedElement 4]] ->
            In (AddedElement node) m ->
            matchesSelAt spanSel (page (loaded togglePage)) node = false
            /\ querySelectorAll (Element node) spanSel
                 (page (loaded togglePage)) = []).
  { intros m node [<- | [<- | []]] Hin.
    - destruct Hin as [E | [E | []]]; [| discriminate].
      injection E as <-. split; vm_compute; reflexivity.
    - destruct Hin as [E | []].
      injection E as <-. split; vm_compute; reflexivity. }
  split; [exact H |].
  exact (observer_ignores_unlabelled nfcOfNormal (parsedAs togglePage) _
           (loaded togglePage) H).
Defined.

(* ===================================================================== *)
(** ** The marks of the clicks in the running script *)
(* ===================================================================== *)

Lemma locs_app f g : locs (f ++ g) = locs f ++ locs g.
Proof. unfold locs. apply locs_in_app. Qed.

(** An element that [remove] takes out of its parent, or that lies in the
    subtree taken out, is still in the DOM, the same element. *)
Lemma self_after_remove c d x u :
  wf d -> locate x d = Some u ->
  exists u', locate x (remove c d) = Some u' /\ self u' = self u.
Proof.
  intros Hwf Hloc. pose proof (@remove_wf c d Hwf) as Hwf'.
  unfold remove in *.
  destruct (locate c d) as [v|] eqn:Hc; [| now exists u].
  destruct (existsb (isElem c) (orphans d)); [now exists u |].
  set (d' := mkDom (prune (Nat.eqb c) (document d))
                   (prune (Nat.eqb c) (orphans d) ++ [viewNode v])) in *.
  destruct (@locate_some x d u Hloc) as [Hu Hid].
  destruct (@locate_some c d v Hc) as [Hv Hidv].
  assert (Hsuff : exists u', In u' (locs (allTrees d')) /\ vid u' = x
                             /\ self u' = self u).
  { destruct (alive (Nat.eqb c) u) eqn:Hal.
    - exists (vprune (Nat.eqb c) u). split; [| now split].
      unfold allTrees, d'. simpl. rewrite !locs_app.
      rewrite locs_allTrees in Hu. apply in_app_or in Hu.
      destruct Hu as [Hu | Hu].
      + apply in_or_app. left. unfold locs.
        rewrite locs_prune by reflexivity. apply in_map.
        apply filter_In. now split.
      + apply in_or_app. right. apply in_or_app. left. unfold locs.
        rewrite locs_prune by reflexivity. apply in_map.
        apply filter_In. now split.
    - assert (Hpos : u = v \/ In u (descendants v)).
      { unfold alive in Hal. apply andb_false_iff in Hal.
        destruct Hal as [Hal | Hal].
        - left. apply negb_false_iff, Nat.eqb_eq in Hal.
          apply (@view_unique (locs (allTrees d)) u v Hwf Hu Hv). congruence.
        - right. destruct (@clear_false (Nat.eqb c) (above u) Hal)
            as [a [Ha Hca]].
          apply Nat.eqb_eq in Hca. apply in_split in Ha.
          destruct Ha as [pre [post Hab]].
          destruct (@ancestor_view (allTrees d) [] u pre a post Hu)
            as [kc [Hvc Hd]].
          { now rewrite app_nil_r. }
          rewrite app_nil_r in *.
          assert (E : mkView a kc post = v).
          { apply (@view_unique (locs (allTrees d)) _ v Hwf Hvc Hv).
            unfold vid in *. simpl. congruence. }
          now rewrite <- E. }
      assert (Hin : forall w, In w (locs [viewNode v]) ->
                In w (locs (allTrees d'))).
      { intros w Hw. unfold allTrees, d'. simpl. rewrite !locs_app.
        apply in_or_app. right. apply in_or_app. now right. }
      destruct Hpos as [-> | Hd].
      + exists (mkView (self v) (kids v) []). split; [| now split].
        apply Hin. simpl. now left.
      + pose proof (in_map self _ _ Hd) as Hs. unfold descendants in Hs.
        rewrite (selves_anc (kids v) (self v :: above v) [self v]) in Hs.
        apply in_map_iff in Hs. destruct Hs as [u' [Hs Hu']].
        exists u'. split; [| split; [| exact Hs]].
        * apply Hin. unfold locs, viewNode. rewrite locs_in_elem.
          right. apply in_or_app. now left.
        * unfold vid in *. now rewrite Hs. }
  destruct Hsuff as [u' [Hu' [Hid' Hs]]]. exists u'. split; [| exact Hs].
  rewrite <- Hid'. exact (@locate_found d' u' Hwf' Hu').
Qed.

Lemma clickedSummary_remove c d x :
  wf d -> clickedSummary d x = true -> clickedSummary (remove c d) x = true.
Proof.
  intros Hwf H. unfold clickedSummary in *.
  destruct (locate x d) as [u|] eqn:Hloc; [| discriminate].
  destruct (self_after_remove c d x u Hwf Hloc) as [u' [Hloc' Hs]].
  now rewrite Hloc', Hs.
Qed.

Lemma clickedSummary_shape d d' x :
  shape d' x = shape d x -> clickedSummary d' x = clickedSummary d x.
Proof.
  unfold shape, clickedSummary. intros H.
  destruct (locate x d') as [v'|], (locate x d) as [v|]; simpl in H;
    try discriminate; [| reflexivity].
  injection H as Hs _. now rewrite Hs.
Qed.

Section Marked.

Variable nfc : jsstring -> jsstring.
Variable cmp : jsstring -> jsstring -> Z.
Variable iface : nat -> interface.

Lemma clickedMarked_remove c d clicks :
  clickedMarked (d, clicks) -> clickedMarked (remove c d, clicks).
Proof.
  intros [Hwf [Hnd Hm]]. simpl in *. split; [now apply remove_wf |].
  split; [exact Hnd |]. simpl. intros el Hel.
  apply clickedSummary_remove; [exact Hwf | now apply Hm].
Qed.

Lemma clickedMarked_purgeSpan blocked d s clicks :
  clickedMarked (d, clicks) ->
  clickedMarked (purgeSpan nfc blocked d s, clicks).
Proof.
  intros H. unfold purgeSpan.
  destruct (isTargetSpan nfc blocked d s); [| exact H].
  destruct (chordContainerFor d s) as [c|]; [| exact H].
  destruct (isChordBlock d c); [| exact H]. now apply clickedMarked_remove.
Qed.

Lemma clickedMarked_purge blocked r d clicks :
  clickedMarked (d, clicks) -> clickedMarked (purge nfc blocked r d, clicks).
Proof.
  unfold purge. generalize (querySelectorAll r spanSel d). intros l.
  revert d. induction l as [|s l IH]; intros d H; [exact H |].
  simpl. apply IH. now apply clickedMarked_purgeSpan.
Qed.

Lemma clickedMarked_sort d clicks :
  clickedMarked (d, clicks) ->
  clickedMarked (domOf (sortChordBlocks nfc cmp Document d), clicks).
Proof.
  intros [Hwf [Hnd Hm]]. simpl in *. unfold sortChordBlocks.
  destruct (List.length (chordBlocks Document d) <? 2); [now split |].
  destruct (@sortGroups_rearranged nfc cmp
              (groupByParent d (chordBlocks Document d)) d Hwf
              (groupByParent_groupsOf d (chordBlocks Document d)))
    as [d' [Hrun [Hwf' [Hshape _]]]].
  rewrite Hrun. split; [exact Hwf' |]. split; [exact Hnd |].
  simpl. intros el Hel.
  rewrite (clickedSummary_shape d d' el (Hshape el)). now apply Hm.
Qed.

Let marked (st : script) : Prop := clickedMarked (page st, clicked st).

Lemma marked_runClick r st :
  marked st -> marked (stateOf (runClick nfc iface r st)).
Proof.
  intros H. pose proof (@click_clickedMarked nfc iface r _ H) as H'.
  rewrite stateOf_runClick. unfold marked, withClicks. simpl in *.
  now destruct (stateOf (clickSummaryIfPresent nfc iface r (page st)
                           (clicked st))).
Qed.

Lemma marked_queueSort st : marked st -> marked (queueSort st).
Proof. unfold marked, queueSort. now destruct (_sortPending st). Qed.

Lemma marked_observeAdded st node :
  marked st -> marked (fst (observeAdded nfc st node)).
Proof.
  intros H. unfold observeAdded.
  destruct (matchesSelAt spanSel (page st) node
            && isTargetSpan nfc (blockedChords st) (page st) node).
  - destruct (chordContainerFor (page st) node) as [c|]; [| exact H].
    destruct (isChordBlock (page st) c); [| exact H].
    exact (clickedMarked_remove c (page st) (clicked st) H).
  - destruct (querySelectorAll (Element node) spanSel (page st)); [exact H |].
    exact (clickedMarked_purge (blockedChords st) (Element node) (page st)
             (clicked st) H).
Qed.

Lemma marked_observerCallback ms st :
  marked st -> marked (stateOf (observerCallback nfc iface ms st)).
Proof.
  intros H.
  assert (Hall : marked
            (fst (stateOf (fold_left
                    (fun acc m => fold_left (observeNode nfc iface) m acc)
                    ms (Normal (st, false)))))).
  { apply (observeAll_inv nfc iface (fun acc => marked (fst acc))
             (fun _ => True)); [| intros; exact I | exact H].
    intros st1 t node _ H1. rewrite observeNode_element. cbn [fst].
    apply marked_runClick. now apply marked_observeAdded. }
  destruct (observerCallback_cases nfc iface ms st) as [-> | [_ ->]];
    [exact Hall | now apply marked_queueSort].
Qed.

Lemma marked_step st ev :
  ownEvent ev -> marked st -> marked (step nfc cmp iface st ev).
Proof.
  intros Hev H. destruct ev as [|ms| |now|d]; simpl.
  - unfold start. apply marked_runClick, marked_queueSort.
    exact (clickedMarked_purge (blockedChords st) Document (page st)
             (clicked st) H).
  - now apply marked_observerCallback.
  - destruct (timeouts st); [exact H |].
    exact (clickedMarked_sort (page st) (clicked st) H).
  - unfold tick. destruct (now - lastTick st >? 1500)%Z; [| exact H].
    match goal with |- context [runClick nfc iface ?r ?s] =>
      assert (Hc : marked (stateOf (runClick nfc iface r s)))
        by (apply marked_runClick; exact H);
      destruct (runClick nfc iface r s) end; cbn [stateOf] in *;
      [now apply marked_queueSort | exact Hc].
  - destruct Hev.
Qed.

Lemma marked_run evs : forall st,
  Forall ownEvent evs -> marked st -> marked (run nfc cmp iface evs st).
Proof.
  induction evs as [|ev evs IH]; intros st Hevs H; [exact H |].
  inversion Hevs as [|? ? Hev Hrest]; subst. simpl. apply IH; [exact Hrest |].
  now apply marked_step.
Qed.

End Marked.

(** In the running script, as long as nobody else changes the page, no
    element is clicked twice, whatever is purged, sorted or added between
    the clicks: the elements clicked so far are distinct, and each of them
    still bears the mark, in the document or out of it. *)
Theorem script_clicks_once nfc cmp iface evs d :
  wf d -> Forall ownEvent evs ->
  let st := run nfc cmp iface evs (loaded d) in
  NoDup (clicked st)
  /\ forall el, In el (clicked st) -> clickedSummary (page st) el = true.
Proof.
  intros Hwf Hevs.
  destruct (marked_run nfc cmp iface evs (loaded d) Hevs) as [_ [Hnd Hm]].
  - split; [exact Hwf |]. split; [constructor | intros el []].
  - split; [exact Hnd | exact Hm].
Qed.

Lemma script_clicks_once_witness :
  wf togglePage
  /\ Forall ownEvent
       [Start; Frame 2000; Mutations [[AddedElement 1]]; Timeout; Frame 4000]
  /\ clicked (run nfcOfNormal compareBase (parsedAs togglePage)
                [Start; Frame 2000; Mutations [[AddedElement 1]]; Timeout;
                 Frame 4000]
                (loaded togglePage)) = [3; 4]
  /\ let st := run nfcOfNormal compareBase (parsedAs togglePage)
                 [Start; Frame 2000; Mutations [[AddedElement 1]]; Timeout;
                  Frame 4000]
                 (loaded togglePage) in
     NoDup (clicked st)
     /\ forall el, In el (clicked st) -> clickedSummary (page st) el = true.
Proof.
  assert (H : Forall ownEvent
                [Start; Frame 2000; Mutations [[AddedElement 1]]; Timeout;
                 Frame 4000])
    by (repeat constructor).
  split; [exact togglePage_wf |]. split; [exact H |].
  split; [vm_compute; reflexivity |].
  exact (script_clicks_once nfcOfNormal compareBase (parsedAs togglePage) _
           togglePage togglePage_wf H).
Defined.
